(** * atom-veda: the live-reload orchestration core ([src/app.ts])

    A shallow embedding of the [GlslLivecoder] class: the pass assembler
    ([createPasses]), the build pipeline ([loadShaderOfEditor]) and the
    configuration-change handler ([onAnyChanges]), with the external
    collaborators (configuration, validator, preprocessor, backends, control
    source) taken as parameters and their calls recorded in a trace. *)

From Stdlib Require Import ZArith String Ascii List Bool Lia.
From Stdlib Require Import DecimalString DecimalZ.
From stdpp Require Import base option list gmap strings.

Open Scope string_scope.
Open Scope list_scope.

(** ** JavaScript values and library functions used by the source *)

Module JS.

(** A field typed [T | null]; a missing key ([undefined]) is the [None] of an
    enclosing [option]. *)
Inductive Nullable (A : Type) : Type :=
| JsNull
| JsVal (a : A).
Arguments JsNull {A}.
Arguments JsVal {A} a.

(** Truthiness of an optional string: [undefined] and the empty string are
    falsy. *)
Definition truthyStr (v : option string) : bool :=
  match v with
  | Some s => negb (s =? "")
  | None => false
  end.

(** Truthiness of a [number | null | undefined] holding an integer. *)
Definition truthyNum (v : option (Nullable Z)) : bool :=
  match v with
  | Some (JsVal n) => negb (n =? 0)%Z
  | _ => false
  end.

(** The decimal digits of an integer, with a minus sign when negative. *)
Definition decimal (n : Z) : string :=
  NilZero.string_of_int (Z.to_int n).

(** The integers that [Number.prototype.toString] writes without an
    exponent: those below 10^21 in absolute value. *)
Definition plainInteger (n : Z) : bool := (Z.abs n <? 10 ^ 21)%Z.

Definition digitCount (x : Z) : Z := Z.of_nat (String.length (decimal x)).

(** Whether the decimal [v] is read as the number [x], for [x] from 2^53 on:
    [v] is within half a unit in the last place of [x], the ends included
    when the mantissa of [x] is even.  Everything is doubled to stay in the
    integers. *)
Definition readsAs (x v : Z) : bool :=
  let e := (Z.log2 x - 52)%Z in
  let m := Z.shiftr x e in
  let up := (2 * x + 2 ^ e)%Z in
  let down :=
    (2 * x - (if (m =? 2 ^ 52)%Z then 2 ^ (e - 1) else 2 ^ e))%Z in
  if Z.even m then (down <=? 2 * v)%Z && (2 * v <=? up)%Z
  else (down <? 2 * v)%Z && (2 * v <? up)%Z.

(** The decimal with the fewest significant digits, [k] or more, that is
    read as [x], and of these the one nearest to [x] (the even one of two
    equally near); [p] is the number of digits of [x]. *)
Fixpoint shortest (fuel : nat) (k x p : Z) : Z :=
  match fuel with
  | O => x
  | S fuel' =>
      let scale := (10 ^ (p - k))%Z in
      let lo := (x / scale * scale)%Z in
      let hi := (lo + scale)%Z in
      match readsAs x lo, readsAs x hi with
      | true, true =>
          if (x - lo <? hi - x)%Z then lo
          else if (hi - x <? x - lo)%Z then hi
          else if Z.even (x / scale) then lo else hi
      | true, false => lo
      | false, true => hi
      | false, false => shortest fuel' (k + 1)%Z x p
      end
  end.

Fixpoint stripZeros (s : string) : string :=
  match s with
  | EmptyString => EmptyString
  | String c s' =>
      match stripZeros s' with
      | EmptyString =>
          if Ascii.eqb c "0" then EmptyString else String c EmptyString
      | r => String c r
      end
  end.

(** The exponent form of a positive number from 10^21 on: the first of its
    shortest digits, a point and the other digits when there are any, then
    the exponent.  Seventeen digits always suffice. *)
Definition exponentForm (x : Z) : string :=
  let v := shortest 17 1 x (digitCount x) in
  let e := decimal (digitCount v - 1) in
  match stripZeros (decimal v) with
  | String d EmptyString => String d ("e+" ++ e)
  | String d r => String d ("." ++ r ++ "e+" ++ e)
  | EmptyString => EmptyString
  end.

(** [Number.prototype.toString] on an integer: the decimal digits of a plain
    integer, the exponent form of the others.  (For a plain integer above
    2^53 the method writes the shortest digits that read back as the same
    number, followed by zeros, where this has all its digits; [parseInt] of
    either text is the number.) *)
Definition toString (n : Z) : string :=
  if plainInteger n then decimal n
  else if (n <? 0)%Z then ("-" ++ exponentForm (- n))%string
  else exponentForm n.

Definition isWhiteSpace (c : ascii) : bool :=
  match c with
  | " "%char | "009"%char | "010"%char | "011"%char | "012"%char | "013"%char => true
  | _ => false
  end.

Definition isDigit (c : ascii) : bool :=
  match c with
  | "0"%char | "1"%char | "2"%char | "3"%char | "4"%char
  | "5"%char | "6"%char | "7"%char | "8"%char | "9"%char => true
  | _ => false
  end.

Fixpoint skipWhiteSpace (s : string) : string :=
  match s with
  | String c s' => if isWhiteSpace c then skipWhiteSpace s' else s
  | EmptyString => s
  end.

Fixpoint takeDigits (s : string) : string :=
  match s with
  | String c s' => if isDigit c then String c (takeDigits s') else ""
  | EmptyString => ""
  end.

(** [parseInt(s, 10)]: leading white space is skipped, an optional sign is
    read, then the longest prefix of decimal digits; [None] stands for
    [NaN]. *)
Definition parseInt10 (s : string) : option Z :=
  let s := skipWhiteSpace s in
  let '(neg, s) :=
    match s with
    | String "-" s' => (true, s')
    | String "+" s' => (false, s')
    | _ => (false, s)
    end in
  match takeDigits s with
  | "" => None
  | ds =>
      match NilZero.uint_of_string ds with
      | Some u => Some (if neg then Z.opp (Z.of_uint u) else Z.of_uint u)
      | None => None
      end
  end.

(** [n !== m] for a number [n] and a result of [parseInt]; [NaN] differs from
    every number. *)
Definition strictNeq (n : Z) (m : option Z) : bool :=
  match m with
  | Some k => negb (n =? k)%Z
  | None => true
  end.

Fixpoint endsWith (s suffix : string) : bool :=
  (s =? suffix) ||
  match s with
  | String _ s' => endsWith s' suffix
  | EmptyString => false
  end.

(** [s.match] with the pattern of [loadShaderOfEditor]: a dot followed by
    one of glsl, frag, vert, fs, vs at the very end of [s]; the result is
    capture group 1, the matched postfix. *)
Definition matchPostfix (s : string) : option string :=
  if endsWith s ".glsl" then Some ".glsl"
  else if endsWith s ".frag" then Some ".frag"
  else if endsWith s ".vert" then Some ".vert"
  else if endsWith s ".fs" then Some ".fs"
  else if endsWith s ".vs" then Some ".vs"
  else None.

(** A text as JavaScript has it is a sequence of UTF-16 code units.  The
    strings of this development stand for the texts whose code units are all
    below 256, one character for each code unit. *)
Definition unitsOf (s : string) : list N :=
  map N_of_ascii (list_ascii_of_string s).

Definition textOf (l : list N) : string :=
  string_of_list_ascii (map ascii_of_N l).

Definition slash : N := 47%N.
Definition star : N := 42%N.

Definition isOpener (s : list N) : bool :=
  match s with
  | a :: b :: _ => (a =? slash)%N && (b =? star)%N
  | _ => false
  end.

Definition isCloser (s : list N) : bool :=
  match s with
  | a :: b :: _ => (a =? star)%N && (b =? slash)%N
  | _ => false
  end.

(** What one round of the group between opener and closer takes: the dot
    takes every code unit but line feed, carriage return, U+2028 and U+2029,
    and the other alternatives take line feed and carriage return; so every
    code unit passes except U+2028 and U+2029. *)
Definition commentUnit (c : N) : bool :=
  negb ((c =? 8232)%N || (c =? 8233)%N).

(** The lazy group followed by the closer, tried at the start of [s]: the
    units before the first closer, when all of them pass. *)
Fixpoint untilClose (s : list N) : option (list N) :=
  if isCloser s then Some []
  else
    match s with
    | c :: s' =>
        if commentUnit c then option_map (cons c) (untilClose s') else None
    | [] => None
    end.

(** The head-comment pattern of [loadShaderOfEditor] on a text: a comment
    opener (slash, star), the shortest run of units that pass, a comment
    closer.  The match is tried at every position from the left; capture
    group 1 of the first match is the result, [None] ([undefined]) when
    nothing matches. *)
Fixpoint headCommentUnits (s : list N) : option (list N) :=
  match s with
  | _ :: s' =>
      match (if isOpener s then untilClose (drop 2 s) else None) with
      | Some c => Some c
      | None => headCommentUnits s'
      end
  | [] => None
  end.

Definition headComment (s : string) : option string :=
  option_map textOf (headCommentUnits (unitsOf s)).

End JS.
Export JS.

(** ** Errors and results *)

Inductive Error : Type :=
| TypeError (msg : string)
| Failure (msg : string).

Inductive result (A : Type) : Type :=
| Ok (a : A)
| Err (e : Error).
Arguments Ok {A} a.
Arguments Err {A} e.

(** ** Data model *)

(** One entry of [rc.PASSES]. *)
Record RcPass : Type := mkRcPass {
  rc_TARGET : option string;
  rc_FLOAT : option bool;
  rc_WIDTH : option string;
  rc_HEIGHT : option string;
  rc_vs : option string;
  rc_fs : option string;
}.

(** The object literal [{}]. *)
Definition emptyRcPass : RcPass := mkRcPass None None None None None None.

(** An assembled pass. *)
Record Pass : Type := mkPass {
  TARGET : option string;
  FLOAT : option bool;
  WIDTH : option string;
  HEIGHT : option string;
  vs : option string;
  fs : option string;
}.

Definition set_vs (p : Pass) (s : string) : Pass :=
  mkPass (TARGET p) (FLOAT p) (WIDTH p) (HEIGHT p) (Some s) (fs p).

Definition set_fs (p : Pass) (s : string) : Pass :=
  mkPass (TARGET p) (FLOAT p) (WIDTH p) (HEIGHT p) (vs p) (Some s).

Definition Shader : Type := list Pass.
Definition SoundShader : Type := string.

(** The options of a configuration snapshot that the class reads. *)
Record Rc : Type := mkRc {
  rc_glslangValidatorPath : string;
  rc_glslify : bool;
  rc_PASSES : list RcPass;
}.

(** The [added] side of a configuration diff. *)
Record RcFragment : Type := mkRcFragment {
  added_glslangValidatorPath : option string;
  added_server : option (Nullable Z);
  added_osc : option (Nullable Z);
}.

Record RcDiff : Type := mkRcDiff {
  added : RcFragment;
}.

(** ** File loads of the pass assembler

    An asynchronous task is modelled by the file loads it issues and its
    settlement.  [Promise.all] starts every task and lets each run to its own
    end, so the loads of all tasks are issued; it rejects when a task rejects.
    In the source the order in time of the loads of different tasks, and
    which of several rejections comes first and is reported, depend on how
    long each load takes.  Neither is modelled: the loads are listed task by
    task, and of several rejections the one of the lowest index stands for
    the one reported.  What is stated below about the loads of an assembly is
    therefore stated up to their order, and about a reported rejection that
    it is the rejection of one of the tasks. *)

Record LoadCall : Type := mkLoadCall {
  lc_validatorPath : string;
  lc_path : string;
}.

Definition Task (A : Type) : Type := (list LoadCall * result A)%type.

Definition task_ret {A} (a : A) : Task A := ([], Ok a).

Definition task_bind {A B} (t : Task A) (k : A -> Task B) : Task B :=
  match t with
  | (l, Ok a) => let '(l', r) := k a in (l ++ l', r)
  | (l, Err e) => (l, Err e)
  end.

Notation "'await' x <- t ; k" := (task_bind t (fun x => k))
  (at level 10, x name, t at level 100, k at level 200).

Fixpoint settleAll {A} (rs : list (result A)) : result (list A) :=
  match rs with
  | [] => Ok []
  | Ok a :: rs' =>
      match settleAll rs' with
      | Ok l => Ok (a :: l)
      | Err e => Err e
      end
  | Err e :: _ => Err e
  end.

Definition Promise_all {A} (ts : list (Task A)) : Task (list A) :=
  (concat (map fst ts), settleAll (map snd ts)).

(** ** The pass assembler *)

Section PassAssembler.

(** [loadFile] of [./validator] and [path.resolve]. *)
Variable loadFile : string -> string -> result string.
Variable path_resolve : string -> string -> string.

Definition isVertexPostfix (postfix : string) : bool :=
  (postfix =? ".vert") || (postfix =? ".vs").

Definition isFragmentPostfix (postfix : string) : bool :=
  (postfix =? ".frag") || (postfix =? ".fs").

Definition loadFileTask (validatorPath file : string) : Task string :=
  ([mkLoadCall validatorPath file], loadFile validatorPath file).

(** The callback of [rcPasses.map] in [createPasses]. *)
Definition assemblePass (glslangValidatorPath shader postfix dirname : string)
    (lastPass : nat) (i : nat) (rcPass : RcPass) : Task Pass :=
  let pass :=
    mkPass (rc_TARGET rcPass) (rc_FLOAT rcPass) (rc_WIDTH rcPass)
      (rc_HEIGHT rcPass) None None in
  if negb (truthyStr (rc_fs rcPass)) && negb (truthyStr (rc_vs rcPass)) then
    if isVertexPostfix postfix
    then task_ret (set_vs pass shader)
    else task_ret (set_fs pass shader)
  else
    await pass <-
      (if truthyStr (rc_vs rcPass) then
         await src <- loadFileTask glslangValidatorPath
                        (path_resolve dirname (default "" (rc_vs rcPass)));
         let pass := set_vs pass src in
         if (i =? lastPass)%nat && isFragmentPostfix postfix
         then task_ret (set_fs pass shader)
         else task_ret pass
       else task_ret pass);
    if truthyStr (rc_fs rcPass) then
      await src <- loadFileTask glslangValidatorPath
                     (path_resolve dirname (default "" (rc_fs rcPass)));
      let pass := set_fs pass src in
      if (i =? lastPass)%nat && isVertexPostfix postfix
      then task_ret (set_vs pass shader)
      else task_ret pass
    else task_ret pass.

(** [rcPasses] after the [push] of the first statement.  The push also
    changes the array inside the snapshot it was taken from; nothing below
    reads that array again. *)
Definition coercePasses (rcPasses : list RcPass) : list RcPass :=
  if (length rcPasses =? 0)%nat then rcPasses ++ [emptyRcPass] else rcPasses.

(** The index [lastPass] that [createPasses] computes. *)
Definition lastPassOf (rcPasses : list RcPass) : nat :=
  (length (coercePasses rcPasses) - 1)%nat.

Definition createPasses (glslangValidatorPath : string)
    (rcPasses : list RcPass) (shader postfix dirname : string)
    : Task (list Pass) :=
  let rcPasses := coercePasses rcPasses in
  let lastPass := (length rcPasses - 1)%nat in
  Promise_all
    (imap (assemblePass glslangValidatorPath shader postfix dirname lastPass)
       rcPasses).

End PassAssembler.

(** ** Collaborators *)

(** The active text editor as the build pipeline reads it: [getPath()] is
    [undefined] for a buffer that was never saved. *)
Record Editor : Type := mkEditor {
  getPath : option string;
  getText : string;
}.

(** The modules the class imports; [Cfg] is the state of the [Config]
    object. *)
Record Collab (Cfg : Type) : Type := mkCollab {
  (* ./config *)
  setFileSettingsByString : string -> option string -> Cfg -> Cfg;
  setSoundSettingsByString : string -> option string -> Cfg -> Cfg;
  config_rc : Cfg -> Rc;
  createRc : Cfg -> Rc;
  createSoundRc : Cfg -> Rc;
  projectPath : Cfg -> string;
  config_play : Cfg -> Cfg;
  config_stop : Cfg -> Cfg;
  (* glslify(source, { basedir }) *)
  glslify : string -> string -> result string;
  (* ./validator *)
  validator : string -> string -> string -> result unit;
  loadFile : string -> string -> result string;
  (* path, on strings *)
  dirname : string -> string;
  resolve : string -> string -> string;
  (* ./constants *)
  INITIAL_SHADER : Shader;
  INITIAL_SOUND_SHADER : SoundShader;
}.
Arguments setFileSettingsByString {Cfg}.
Arguments setSoundSettingsByString {Cfg}.
Arguments config_rc {Cfg}.
Arguments createRc {Cfg}.
Arguments createSoundRc {Cfg}.
Arguments projectPath {Cfg}.
Arguments config_play {Cfg}.
Arguments config_stop {Cfg}.
Arguments glslify {Cfg}.
Arguments validator {Cfg}.
Arguments loadFile {Cfg}.
Arguments dirname {Cfg}.
Arguments resolve {Cfg}.
Arguments INITIAL_SHADER {Cfg}.
Arguments INITIAL_SOUND_SHADER {Cfg}.

(** Node's [path.dirname] asserts that its argument is a string and throws a
    [TypeError] otherwise. *)
Definition path_dirname {Cfg} (E : Collab Cfg) (p : option string)
    : result string :=
  match p with
  | Some s => Ok (dirname E s)
  | None => Err (TypeError "Path must be a string. Received undefined")
  end.

(** How a backend was constructed: [new Player(view, rc, isPlaying,
    lastShader)] or [new PlayerServer(server, { rc, isPlaying, projectPath,
    lastShader })]. *)
Inductive BackendCtor : Type :=
| Player (view : nat) (rc : Rc) (isPlaying : bool) (lastShader : Shader)
| PlayerServer (server : Z) (rc : Rc) (isPlaying : bool)
    (projectPath : string) (lastShader : Shader).

Record Backend : Type := mkBackend {
  bid : nat;
  ctor : BackendCtor;
}.

(** Modelled from the spec: the control-source collaborator
    ([./osc-loader] is not part of the sources) is constructed with a port and
    exposes it as its [port] property. *)
Record OscLoader : Type := mkOscLoader {
  oid : nat;
  port : Z;
}.

Record OscMessage : Type := mkOscMessage {
  address : string;
  args : list Z;
}.

Inductive LogArg : Type :=
| LogString (s : string)
| LogError (e : Error).

(** Calls that leave the object, in the order they are made. *)
Inductive Event : Type :=
| EvConsoleError (a : LogArg)
| EvNewView (view : nat)
| EvNewBackend (b : Backend)
| EvPlayerPlay (b : nat)
| EvPlayerStop (b : nat)
| EvPlayerDestroy (b : nat)
| EvPlayerLoadShader (b : nat) (passes : Shader)
| EvPlayerLoadSoundShader (b : nat) (shader : SoundShader)
| EvPlayerOnChange (b : nat) (d : RcDiff)
| EvPlayerOnChangeSound (b : nat) (d : RcDiff)
| EvPlayerSetOsc (b : nat) (m : OscMessage)
| EvNewOsc (o : OscLoader)
| EvOscOn (o : nat) (event : string)
| EvOscDestroy (o : nat)
| EvDispose (d : nat)
| EvLoadFile (c : LoadCall).

(** ** The object and its monad *)

Section GlslLivecoder.

Context {Cfg : Type} (E : Collab Cfg).

(** The fields of [GlslLivecoder], then the calls made so far and the next
    free object identity.  The two disposers and [editor] are set by
    [watchShader] and [watchActiveShader], which are modelled further below
    together with the listeners; [stopWatching] clears them. *)
Record App : Type := mkApp {
  player : Backend;
  isPlaying : bool;
  activeEditorDisposer : option nat;
  editorDisposer : option nat;
  editor : option Editor;
  glslangValidatorPath : string;
  lastShader : Shader;
  lastSoundShader : SoundShader;
  osc : option OscLoader;
  config : Cfg;
  trace : list Event;
  nextId : nat;
}.

(** State passing with exceptions: a computation either returns or throws,
    and in both cases leaves a state. *)
Definition M (A : Type) : Type := App -> result A * App.

Definition ret {A} (a : A) : M A := fun app => (Ok a, app).

Definition bind {A B} (m : M A) (k : A -> M B) : M B :=
  fun app =>
    match m app with
    | (Ok a, app') => k a app'
    | (Err e, app') => (Err e, app')
    end.

Definition throw {A} (e : Error) : M A := fun app => (Err e, app).

(** [.catch(h)] at the end of a promise chain. *)
Definition catch {A} (m : M A) (h : Error -> M A) : M A :=
  fun app =>
    match m app with
    | (Ok a, app') => (Ok a, app')
    | (Err e, app') => h e app'
    end.

Definition liftResult {A} (r : result A) : M A :=
  match r with
  | Ok a => ret a
  | Err e => throw e
  end.

Definition gets {A} (f : App -> A) : M A := fun app => (Ok (f app), app).

Definition modify (f : App -> App) : M unit := fun app => (Ok tt, f app).

#[local] Instance M_ret : MRet M := @ret.
#[local] Instance M_bind : MBind M := fun A B k m => bind m k.

(** *** Field assignments *)

Definition set_player (b : Backend) (a : App) : App :=
  mkApp b (isPlaying a) (activeEditorDisposer a) (editorDisposer a)
    (editor a) (glslangValidatorPath a) (lastShader a) (lastSoundShader a)
    (osc a) (config a) (trace a) (nextId a).

Definition set_isPlaying (v : bool) (a : App) : App :=
  mkApp (player a) v (activeEditorDisposer a) (editorDisposer a)
    (editor a) (glslangValidatorPath a) (lastShader a) (lastSoundShader a)
    (osc a) (config a) (trace a) (nextId a).

Definition set_activeEditorDisposer (v : option nat) (a : App) : App :=
  mkApp (player a) (isPlaying a) v (editorDisposer a)
    (editor a) (glslangValidatorPath a) (lastShader a) (lastSoundShader a)
    (osc a) (config a) (trace a) (nextId a).

Definition set_editorDisposer (v : option nat) (a : App) : App :=
  mkApp (player a) (isPlaying a) (activeEditorDisposer a) v
    (editor a) (glslangValidatorPath a) (lastShader a) (lastSoundShader a)
    (osc a) (config a) (trace a) (nextId a).

Definition set_editor (v : option Editor) (a : App) : App :=
  mkApp (player a) (isPlaying a) (activeEditorDisposer a) (editorDisposer a)
    v (glslangValidatorPath a) (lastShader a) (lastSoundShader a)
    (osc a) (config a) (trace a) (nextId a).

Definition set_glslangValidatorPath (v : string) (a : App) : App :=
  mkApp (player a) (isPlaying a) (activeEditorDisposer a) (editorDisposer a)
    (editor a) v (lastShader a) (lastSoundShader a)
    (osc a) (config a) (trace a) (nextId a).

Definition set_lastShader (v : Shader) (a : App) : App :=
  mkApp (player a) (isPlaying a) (activeEditorDisposer a) (editorDisposer a)
    (editor a) (glslangValidatorPath a) v (lastSoundShader a)
    (osc a) (config a) (trace a) (nextId a).

Definition set_lastSoundShader (v : SoundShader) (a : App) : App :=
  mkApp (player a) (isPlaying a) (activeEditorDisposer a) (editorDisposer a)
    (editor a) (glslangValidatorPath a) (lastShader a) v
    (osc a) (config a) (trace a) (nextId a).

Definition set_osc (v : option OscLoader) (a : App) : App :=
  mkApp (player a) (isPlaying a) (activeEditorDisposer a) (editorDisposer a)
    (editor a) (glslangValidatorPath a) (lastShader a) (lastSoundShader a)
    v (config a) (trace a) (nextId a).

Definition set_config (v : Cfg) (a : App) : App :=
  mkApp (player a) (isPlaying a) (activeEditorDisposer a) (editorDisposer a)
    (editor a) (glslangValidatorPath a) (lastShader a) (lastSoundShader a)
    (osc a) v (trace a) (nextId a).

Definition set_trace (v : list Event) (a : App) : App :=
  mkApp (player a) (isPlaying a) (activeEditorDisposer a) (editorDisposer a)
    (editor a) (glslangValidatorPath a) (lastShader a) (lastSoundShader a)
    (osc a) (config a) v (nextId a).

Definition set_nextId (v : nat) (a : App) : App :=
  mkApp (player a) (isPlaying a) (activeEditorDisposer a) (editorDisposer a)
    (editor a) (glslangValidatorPath a) (lastShader a) (lastSoundShader a)
    (osc a) (config a) (trace a) v.

(** *** Calls to the outside *)

Definition emit (e : Event) : M unit :=
  modify (fun a => set_trace (trace a ++ [e]) a).

Definition emitAll (es : list Event) : M unit :=
  modify (fun a => set_trace (trace a ++ es) a).

(** The identity of a newly constructed object. *)
Definition fresh : M nat :=
  fun a => (Ok (nextId a), set_nextId (S (nextId a)) a).

Definition console_error (a : LogArg) : M unit := emit (EvConsoleError a).

(** [new View(atom.workspace.element)] *)
Definition newView : M nat :=
  v ← fresh;
  emit (EvNewView v);;
  mret v.

Definition newBackend (c : BackendCtor) : M Backend :=
  i ← fresh;
  let b := mkBackend i c in
  emit (EvNewBackend b);;
  mret b.

(** [new OscLoader(port)] *)
Definition newOscLoader (p : Z) : M OscLoader :=
  i ← fresh;
  let o := mkOscLoader i p in
  emit (EvNewOsc o);;
  mret o.

(** A method call on [this.player]. *)
Definition callPlayer (ev : nat -> Event) : M unit :=
  p ← gets player;
  emit (ev (bid p)).

(** Running an asynchronous task: its file loads happen, then it settles. *)
Definition awaitTask {A} (t : Task A) : M A :=
  emitAll (map EvLoadFile (fst t));;
  liftResult (snd t).

(** *** Construction and teardown *)

Definition constructor (cfg : Cfg) : App :=
  let rc := config_rc E cfg in
  let view := 0%nat in
  let b := mkBackend 1 (Player view rc false (INITIAL_SHADER E)) in
  mkApp b false None None None (rc_glslangValidatorPath rc)
    (INITIAL_SHADER E) (INITIAL_SOUND_SHADER E) None cfg
    [EvNewView view; EvNewBackend b] 2.

Definition destroy : M unit :=
  callPlayer EvPlayerDestroy;;
  o ← gets osc;
  match o with
  | Some o => emit (EvOscDestroy (oid o))
  | None => mret tt
  end.

(** *** Configuration changes *)

(** The test [osc && (!port || osc.port !== parseInt(port.toString(), 10))]
    for a live [osc]. *)
Definition oscOutdated (o : OscLoader) (newPort : Nullable Z) : bool :=
  negb (truthyNum (Some newPort)) ||
  match newPort with
  | JsVal n => strictNeq (port o) (parseInt10 (toString n))
  | JsNull => true
  end.

(** [onAnyChanges] is three [if] statements in a row, one per option; each
    is given on its own. *)

(** [if (added.glslangValidatorPath) ...] *)
Definition changeValidatorPath (added : RcFragment) : M unit :=
  if truthyStr (added_glslangValidatorPath added)
  then modify (set_glslangValidatorPath
                 (default "" (added_glslangValidatorPath added)))
  else mret tt.

(** [if (added.server !== undefined) ...]; [this.player] always holds an
    object, so its guard passes. *)
Definition changeServer (added : RcFragment) : M unit :=
  match added_server added with
  | Some server =>
      callPlayer EvPlayerStop;;
      rc ← gets (fun a => createRc E (config a));
      match server with
      | JsVal n =>
          if truthyNum (Some server) then
            playing ← gets isPlaying;
            dir ← gets (fun a => projectPath E (config a));
            last ← gets lastShader;
            b ← newBackend (PlayerServer n rc playing dir last);
            modify (set_player b)
          else
            view ← newView;
            playing ← gets isPlaying;
            last ← gets lastShader;
            b ← newBackend (Player view rc playing last);
            modify (set_player b)
      | JsNull =>
          view ← newView;
          playing ← gets isPlaying;
          last ← gets lastShader;
          b ← newBackend (Player view rc playing last);
          modify (set_player b)
      end
  | None => mret tt
  end.

(** [if (added.osc !== undefined) ...] *)
Definition changeOsc (added : RcFragment) : M unit :=
  match added_osc added with
  | Some newPort =>
      o ← gets osc;
      match o with
      | Some o =>
          if oscOutdated o newPort then
            emit (EvOscDestroy (oid o));;
            modify (set_osc None)
          else mret tt
      | None => mret tt
      end;;
      o ← gets osc;
      match newPort, o with
      | JsVal n, None =>
          if truthyNum (Some newPort) then
            oscLoader ← newOscLoader n;
            modify (set_osc (Some oscLoader));;
            emit (EvOscOn (oid oscLoader) "message");;
            emit (EvOscOn (oid oscLoader) "reload")
          else mret tt
      | _, _ => mret tt
      end
  | None => mret tt
  end.

Definition onAnyChanges (d : RcDiff) : M unit :=
  let added := added d in
  changeValidatorPath added;;
  changeServer added;;
  changeOsc added.

Definition loadLastShader : M unit :=
  (* an array is truthy, the early return is never taken *)
  last ← gets lastShader;
  callPlayer (fun b => EvPlayerLoadShader b last).

Definition loadLastSoundShader : M unit :=
  last ← gets lastSoundShader;
  if last =? "" then mret tt
  else callPlayer (fun b => EvPlayerLoadSoundShader b last).

Definition onChange (rcDiff : RcDiff) : M unit :=
  onAnyChanges rcDiff;;
  callPlayer (fun b => EvPlayerOnChange b rcDiff);;
  loadLastShader.

(** [onChangeSound] up to its return: the diff is applied and the backend
    then in place gets [onChangeSound(rcDiff)].  The promise that this call
    returns is pending when [onChangeSound] returns. *)
Definition onChangeSound (rcDiff : RcDiff) : M unit :=
  onAnyChanges rcDiff;;
  callPlayer (fun b => EvPlayerOnChangeSound b rcDiff).

(** The callback that [onChangeSound] registers on that promise with [then]:
    it runs if and when the promise resolves, on the object as it is at that
    moment.  Nothing is registered for a rejection, so after a rejection the
    class does nothing. *)
Definition onChangeSoundResolved : M unit := loadLastSoundShader.

Definition onOsc (msg : OscMessage) : M unit :=
  callPlayer (fun b => EvPlayerSetOsc b msg).

(** *** Playing and stopping *)

Definition dispose (get : App -> option nat)
    (set : option nat -> App -> App) : M unit :=
  d ← gets get;
  match d with
  | Some d => emit (EvDispose d);; modify (set None)
  | None => mret tt
  end.

Definition stopWatching : M unit :=
  modify (set_editor None);;
  dispose activeEditorDisposer set_activeEditorDisposer;;
  dispose editorDisposer set_editorDisposer.

Definition play : M unit :=
  modify (set_isPlaying true);;
  callPlayer EvPlayerPlay;;
  modify (fun a => set_config (config_play E (config a)) a).

Definition stop : M unit :=
  modify (set_isPlaying false);;
  callPlayer EvPlayerStop;;
  modify (fun a => set_config (config_stop E (config a)) a);;
  stopWatching.

Definition toggle : M unit :=
  playing ← gets isPlaying;
  if playing : bool then stop else play.

(** *** The build pipeline *)

(** How a call that returns a promise ends for its caller: the promise
    resolves or rejects, or the call throws before returning one. *)
Inductive Completion : Type :=
| Resolved
| Rejected (e : Error)
| Thrown (e : Error).

Definition promise (m : M unit) : App -> Completion * App :=
  fun app =>
    match m app with
    | (Ok _, app') => (Resolved, app')
    | (Err e, app') => (Rejected e, app')
    end.

(** [createPasses] as a method: it reads [this.glslangValidatorPath]. *)
Definition createPassesOf (rcPasses : list RcPass)
    (shader postfix dirname : string) : M (list Pass) :=
  gvp ← gets glslangValidatorPath;
  awaitTask
    (createPasses (loadFile E) (resolve E) gvp rcPasses shader postfix dirname).

(** First [then] callback: the head comment goes to the configuration, the
    snapshot is taken and the text is preprocessed when the snapshot asks
    for it.  The callback assigns the variables [shader] and [rc] of the
    enclosing call; here it returns them. *)
Definition settingsStep (filepath shader : string) (isSound : bool)
    : M (string * Rc) :=
  let hc := headComment shader in
  rc ← (if isSound then
          modify (fun a =>
            set_config (setSoundSettingsByString E filepath hc (config a)) a);;
          gets (fun a => createSoundRc E (config a))
        else
          modify (fun a =>
            set_config (setFileSettingsByString E filepath hc (config a)) a);;
          gets (fun a => createRc E (config a)));
  if rc_glslify rc then
    shader' ← liftResult (glslify E shader (dirname E filepath));
    mret (shader', rc)
  else mret (shader, rc).

(** Second [then] callback. *)
Definition validateStep (shader postfix : string) (isSound : bool) : M unit :=
  if negb isSound then
    gvp ← gets glslangValidatorPath;
    liftResult (validator E gvp shader postfix)
  else mret tt.

(** Last [then] callback. *)
Definition dispatchStep (isSound : bool) (shader : string)
    (passes : list Pass) : M unit :=
  if isSound then
    callPlayer (fun b => EvPlayerLoadSoundShader b shader);;
    modify (set_lastSoundShader shader)
  else
    callPlayer (fun b => EvPlayerLoadShader b passes);;
    modify (set_lastShader passes).

(** The promise chain of [loadShaderOfEditor] without its [catch]. *)
Definition buildChain (filepath dir postfix shader : string)
    (isSound : bool) : M unit :=
  sr ← settingsStep filepath shader isSound;
  validateStep (fst sr) postfix isSound;;
  passes ← createPassesOf (rc_PASSES (snd sr)) (fst sr) postfix dir;
  dispatchStep isSound (fst sr) passes.

Definition notGlslMessage : string :=
  "The filename for current doesn't seems to be GLSL.".

Definition loadShaderOfEditor (editor : option Editor) (isSound : bool)
    : App -> Completion * App :=
  fun app =>
    match editor with
    | None => (Resolved, app)
    | Some editor =>
        let filepath := getPath editor in
        match path_dirname E filepath with
        | Err e => (Thrown e, app)
        | Ok dir =>
            match matchPostfix (default "" filepath) with
            | None =>
                promise (console_error (LogString notGlslMessage)) app
            | Some postfix =>
                let shader := getText editor in
                promise
                  (catch
                     (buildChain (default "" filepath) dir postfix shader
                        isSound)
                     (fun e => console_error (LogError e)))
                  app
            end
        end
    end.

(** [loadShader] and [loadSoundShader], given the result of
    [atom.workspace.getActiveTextEditor()]. *)
Definition loadShader (active : option Editor) : App -> Completion * App :=
  loadShaderOfEditor active false.

Definition loadSoundShader (active : option Editor)
    : App -> Completion * App :=
  loadShaderOfEditor active true.

(** *** The steps of a build, one by one

    What each step of the pipeline receives and yields when it is taken on
    its own, for stating which step failed. *)

(** Step 3: the configuration after the head comment was handed over, and the
    snapshot taken from it. *)
Definition stepSnapshot (filepath text : string) (isSound : bool) (cfg : Cfg)
    : Cfg * Rc :=
  let hc := headComment text in
  if isSound then
    let cfg' := setSoundSettingsByString E filepath hc cfg in
    (cfg', createSoundRc E cfg')
  else
    let cfg' := setFileSettingsByString E filepath hc cfg in
    (cfg', createRc E cfg').

(** Step 4: preprocessing, when the snapshot requests it. *)
Definition stepPreprocess (rc : Rc) (filepath text : string) : result string :=
  if rc_glslify rc then glslify E text (dirname E filepath) else Ok text.

(** Step 5: validation, for a visual build. *)
Definition stepValidate (isSound : bool) (validatorPath shader postfix : string)
    : result unit :=
  if isSound then Ok tt else validator E validatorPath shader postfix.

(** Step 6: pass assembly. *)
Definition stepAssemble (validatorPath : string) (rc : Rc)
    (shader postfix dir : string) : Task (list Pass) :=
  createPasses (loadFile E) (resolve E) validatorPath (rc_PASSES rc) shader
    postfix dir.

(** A step of a build that fails, for an editor [ed]: the extension is not
    recognised, the preprocessor fails, validation fails, or a file load of
    the pass assembler fails. *)
Inductive StepFails (ed : Editor) (isSound : bool) (a : App) : Prop :=
| UnrecognizedExtension :
    matchPostfix (default "" (getPath ed)) = None ->
    StepFails ed isSound a
| PreprocessingError (filepath : string) (e : Error) :
    getPath ed = Some filepath ->
    stepPreprocess
      (snd (stepSnapshot filepath (getText ed) isSound (config a)))
      filepath (getText ed) = Err e ->
    StepFails ed isSound a
| ValidationError (filepath postfix shader : string) (e : Error) :
    getPath ed = Some filepath ->
    matchPostfix filepath = Some postfix ->
    stepPreprocess
      (snd (stepSnapshot filepath (getText ed) isSound (config a)))
      filepath (getText ed) = Ok shader ->
    stepValidate isSound (glslangValidatorPath a) shader postfix = Err e ->
    StepFails ed isSound a
| FileLoadError (filepath postfix shader : string) (e : Error) :
    getPath ed = Some filepath ->
    matchPostfix filepath = Some postfix ->
    stepPreprocess
      (snd (stepSnapshot filepath (getText ed) isSound (config a)))
      filepath (getText ed) = Ok shader ->
    snd (stepAssemble (glslangValidatorPath a)
           (snd (stepSnapshot filepath (getText ed) isSound (config a)))
           shader postfix (dirname E filepath)) = Err e ->
    StepFails ed isSound a.

(** [osc.port === port] for a port that is a number. *)
Definition samePort (o : OscLoader) (newPort : Nullable Z) : bool :=
  match newPort with
  | JsVal n => (port o =? n)%Z
  | JsNull => false
  end.

(** A port whose text [port.toString()] has no exponent: [null], or a plain
    integer.  Every port number that a socket can be bound to is one. *)
Definition plainPort (newPort : Nullable Z) : Prop :=
  match newPort with
  | JsVal n => plainInteger n = true
  | JsNull => True
  end.

(** *** What the trace says about instances *)

(** Control sources constructed and not yet destroyed. *)
Fixpoint removeOne (i : nat) (l : list nat) : list nat :=
  match l with
  | [] => []
  | j :: l' => if (i =? j)%nat then l' else j :: removeOne i l'
  end.

Definition oscStep (live : list nat) (e : Event) : list nat :=
  match e with
  | EvNewOsc o => oid o :: live
  | EvOscDestroy i => removeOne i live
  | _ => live
  end.

Definition liveOsc (tr : list Event) : list nat :=
  fold_left oscStep tr [].

(** File loads of the pass assembler. *)
Definition isFileLoad (e : Event) : bool :=
  match e with
  | EvLoadFile _ => true
  | _ => false
  end.

(** Constructions and destructions of control sources. *)
Definition isOscLifecycle (e : Event) : bool :=
  match e with
  | EvNewOsc _ | EvOscDestroy _ => true
  | _ => false
  end.

(** Constructions of backends and calls on them. *)
Definition isBackendEvent (e : Event) : bool :=
  match e with
  | EvNewBackend _ | EvPlayerPlay _ | EvPlayerStop _ | EvPlayerDestroy _
  | EvPlayerLoadShader _ _ | EvPlayerLoadSoundShader _ _
  | EvPlayerOnChange _ _ | EvPlayerOnChangeSound _ _ | EvPlayerSetOsc _ _ =>
      true
  | _ => false
  end.

(** The live control sources are exactly the one the object holds. *)
Definition oscInv (a : App) : Prop :=
  liveOsc (trace a) =
  match osc a with
  | Some o => [oid o]
  | None => []
  end.

(** A step that neither constructs nor destroys a control source and leaves
    the [osc] field alone. *)
Definition oscUntouched (a a' : App) : Prop :=
  osc a' = osc a /\
  exists delta,
    trace a' = trace a ++ delta /\ List.filter isOscLifecycle delta = [].

(** *** Runs of the object *)

(** The calls the object receives between construction and teardown: the
    two configuration events, a message and a reload request of the control
    source, the commands, and the callback of [onChangeSound], which comes
    at some later time or, when the promise of the backend rejects, not at
    all. *)
Inductive Call : Type :=
| CallChange (d : RcDiff)
| CallChangeSound (d : RcDiff)
| CallOsc (m : OscMessage)
| CallOscReload
| CallToggle
| CallPlay
| CallStop
| CallLoadShader (active : option Editor)
| CallLoadSoundShader (active : option Editor)
| CallChangeSoundResolved.

Definition perform (c : Call) (app : App) : App :=
  match c with
  | CallChange d => snd (onChange d app)
  | CallChangeSound d => snd (onChangeSound d app)
  | CallOsc m => snd (onOsc m app)
  | CallOscReload => snd (loadLastShader app)
  | CallToggle => snd (toggle app)
  | CallPlay => snd (play app)
  | CallStop => snd (stop app)
  | CallLoadShader ed => snd (loadShader ed app)
  | CallLoadSoundShader ed => snd (loadSoundShader ed app)
  | CallChangeSoundResolved => snd (onChangeSoundResolved app)
  end.

Definition run (cs : list Call) (app : App) : App :=
  fold_left (fun a c => perform c a) cs app.

End GlslLivecoder.

Arguments App : clear implicits.
Arguments M : clear implicits.

(** ** The rest of the class: sound transport and watching *)

(** The calls [playSound()] and [stopSound()] on a backend.  They are the
    last thing [playSound] and [stopSound] of the class do, so they are
    returned beside the state instead of being put into its trace: they come
    after every call of the trace. *)
Inductive SoundCall : Type :=
| PlayerPlaySound (b : nat)
| PlayerStopSound (b : nat).

(** A listener registered with the workspace ([onDidChangeActiveTextEditor])
    or with an editor ([onDidStopChanging]); [lid] is the identity of the
    disposable that the registration returned. *)
Inductive ListenerKind : Type :=
| DidChangeActiveTextEditor
| DidStopChanging (ed : Editor).

Record Listener : Type := mkListener {
  lid : nat;
  lkind : ListenerKind;
}.

Definition isActiveListener (l : Listener) : bool :=
  match lkind l with
  | DidChangeActiveTextEditor => true
  | DidStopChanging _ => false
  end.

Definition isContentListener (l : Listener) : bool :=
  match lkind l with
  | DidChangeActiveTextEditor => false
  | DidStopChanging _ => true
  end.

Definition isDisposal (d : nat) (e : Event) : bool :=
  match e with
  | EvDispose d' => (d =? d')%nat
  | _ => false
  end.

(** The disposable [d] has had its [dispose()] called. *)
Definition disposed (tr : list Event) (d : nat) : bool :=
  existsb (isDisposal d) tr.

(** Loads handed to the backend, and reports on the console. *)
Definition isDispatch (e : Event) : bool :=
  match e with
  | EvPlayerLoadShader _ _ | EvPlayerLoadSoundShader _ _ => true
  | _ => false
  end.

Definition isDiagnostic (e : Event) : bool :=
  match e with
  | EvConsoleError _ => true
  | _ => false
  end.

(** Method calls on the backend [b]. *)
Definition addressedTo (b : nat) (e : Event) : bool :=
  match e with
  | EvPlayerPlay b' | EvPlayerStop b' | EvPlayerDestroy b'
  | EvPlayerLoadShader b' _ | EvPlayerLoadSoundShader b' _
  | EvPlayerOnChange b' _ | EvPlayerOnChangeSound b' _
  | EvPlayerSetOsc b' _ => (b =? b')%nat
  | _ => false
  end.

(** An event of a build or of a message: a report, a file load, or a call
    on the backend [b] other than [play], [stop] and [destroy]. *)
Definition calmEvent (b : nat) (e : Event) : bool :=
  match e with
  | EvConsoleError _ | EvLoadFile _ => true
  | EvPlayerLoadShader b' _ | EvPlayerLoadSoundShader b' _
  | EvPlayerOnChange b' _ | EvPlayerOnChangeSound b' _
  | EvPlayerSetOsc b' _ => (b =? b')%nat
  | _ => false
  end.

(** An event during which the object keeps its backend [b]: no backend is
    constructed and no other backend is called. *)
Definition steadyEvent (b : nat) (e : Event) : bool :=
  match e with
  | EvNewBackend _ => false
  | EvPlayerPlay b' | EvPlayerStop b' | EvPlayerDestroy b'
  | EvPlayerLoadShader b' _ | EvPlayerLoadSoundShader b' _
  | EvPlayerOnChange b' _ | EvPlayerOnChangeSound b' _
  | EvPlayerSetOsc b' _ => (b =? b')%nat
  | _ => true
  end.

(** The events that applying a configuration diff can cause. *)
Definition configEvent (e : Event) : bool :=
  match e with
  | EvPlayerStop _ | EvNewView _ | EvNewBackend _
  | EvNewOsc _ | EvOscOn _ _ | EvOscDestroy _ => true
  | _ => false
  end.

(** The [isPlaying] argument a backend was constructed with. *)
Definition seedPlaying (c : BackendCtor) : bool :=
  match c with
  | Player _ _ playing _ => playing
  | PlayerServer _ _ playing _ _ => playing
  end.

(** Whether the backend [b] is playing after an event, for a backend that
    starts on [play()] and halts on [stop()]. *)
Definition playStep (b : nat) (playing : bool) (e : Event) : bool :=
  match e with
  | EvPlayerPlay b' => if (b =? b')%nat then true else playing
  | EvPlayerStop b' => if (b =? b')%nat then false else playing
  | _ => playing
  end.

(** Whether a backend is playing at the end of a trace: as it was
    constructed, then as the calls it received say. *)
Definition backendPlaying (b : Backend) (tr : list Event) : bool :=
  fold_left (playStep (bid b)) tr (seedPlaying (ctor b)).

(** The last method call that the backend [b] has received. *)
Definition lastCallTo (b : nat) (tr : list Event) : option Event :=
  last (List.filter (addressedTo b) tr).

(** The backends constructed so far, oldest first. *)
Definition constructedBackends (tr : list Event) : list nat :=
  flat_map (fun e => match e with
                     | EvNewBackend b => [bid b]
                     | _ => []
                     end) tr.

(** A load made with the validator path [gvp] for a source that one of the
    specifications names, resolved against [dir]. *)
Definition namedSourceOf (path_resolve : string -> string -> string)
    (gvp dir : string) (specs : list RcPass) (c : LoadCall) : Prop :=
  lc_validatorPath c = gvp /\
  exists spec ref,
    In spec specs /\
    (rc_vs spec = Some ref \/ rc_fs spec = Some ref) /\
    ref <> "" /\
    lc_path c = path_resolve dir ref.

(** The pass of a specification that names no source: the edited text on the
    side of the postfix. *)
Definition textPassOf (shader postfix : string) (spec : RcPass) : Pass :=
  if isVertexPostfix postfix
  then mkPass (rc_TARGET spec) (rc_FLOAT spec) (rc_WIDTH spec)
         (rc_HEIGHT spec) (Some shader) None
  else mkPass (rc_TARGET spec) (rc_FLOAT spec) (rc_WIDTH spec)
         (rc_HEIGHT spec) None (Some shader).

(** A text with a block comment in it: an opener, the body [c], a closer. *)
Definition blockComment (pre c post : list N) : list N :=
  pre ++ [slash; star] ++ c ++ [star; slash] ++ post.

(** A text in which no comment closer occurs. *)
Definition closerFree (c : list N) : Prop :=
  forall u v, c <> u ++ [star; slash] ++ v.

(** The same collaborators with another validator. *)
Definition withValidator {Cfg} (E : Collab Cfg)
    (v : string -> string -> string -> result unit) : Collab Cfg :=
  mkCollab Cfg
    (setFileSettingsByString E) (setSoundSettingsByString E)
    (config_rc E) (createRc E) (createSoundRc E) (projectPath E)
    (config_play E) (config_stop E)
    (glslify E) v (loadFile E) (dirname E) (resolve E)
    (INITIAL_SHADER E) (INITIAL_SOUND_SHADER E).

Section Watching.

Context {Cfg : Type} (E : Collab Cfg).

(** [playSound]: the then-callback runs when the promise of
    [loadSoundShader] resolves; a call that throws makes no promise. *)
Definition playSound (active : option Editor) (app : App Cfg)
    : result unit * App Cfg * list SoundCall :=
  match loadSoundShader E active app with
  | (Resolved, app') =>
      (Ok tt, app', [PlayerPlaySound (bid (player app'))])
  | (Rejected _, app') => (Ok tt, app', [])
  | (Thrown e, app') => (Err e, app', [])
  end.

Definition stopSound (app : App Cfg) : list SoundCall :=
  [PlayerStopSound (bid (player app))].

(** The object together with the listeners it has registered, oldest
    first. *)
Record Watch : Type := mkWatch {
  obj : App Cfg;
  listeners : list Listener;
}.

(** The registered listeners whose disposable has not been disposed. *)
Definition liveListeners (w : Watch) : list Listener :=
  List.filter (fun l => negb (disposed (trace (obj w)) (lid l)))
    (listeners w).

(** A registration: the listener is added and the disposable it returns is
    assigned to a field of [this.state]. *)
Definition subscribe (k : ListenerKind)
    (set : option nat -> App Cfg -> App Cfg) (w : Watch) : Watch :=
  let d := nextId (obj w) in
  mkWatch (set (Some d) (set_nextId (S d) (obj w)))
    (listeners w ++ [mkListener d k]).

(** [watchShader], given the result of
    [atom.workspace.getActiveTextEditor()].  The promise of
    [loadShaderOfEditor] is dropped.  Its chain runs after [watchShader] has
    returned; it touches neither the disposables nor the identities, so it is
    run here before the registration. *)
Definition watchShader (active : option Editor) (w : Watch)
    : result unit * Watch :=
  let a1 := snd (dispose editorDisposer set_editorDisposer (obj w)) in
  let a2 := set_editor active a1 in
  match loadShaderOfEditor E active false a2 with
  | (Thrown e, a3) => (Err e, mkWatch a3 (listeners w))
  | (_, a3) =>
      match active with
      | Some ed =>
          (Ok tt,
           subscribe (DidStopChanging ed) set_editorDisposer
             (mkWatch a3 (listeners w)))
      | None => (Ok tt, mkWatch a3 (listeners w))
      end
  end.

Definition watchActiveShader (active : option Editor) (w : Watch)
    : result unit * Watch :=
  match activeEditorDisposer (obj w) with
  | Some _ => (Ok tt, w)
  | None =>
      match watchShader active w with
      | (Err e, w1) => (Err e, w1)
      | (Ok _, w1) =>
          (Ok tt,
           subscribe DidChangeActiveTextEditor set_activeEditorDisposer w1)
      end
  end.

(** What reaches the object while it may be watching: the calls of [Call],
    the three watch commands, and the two kinds of listener firing.  A
    listener fires only while it is live; the listener of an editor reads the
    editor as it is then. *)
Inductive WatchCall : Type :=
| OnObject (c : Call)
| CallWatchActiveShader (active : option Editor)
| CallWatchShader (active : option Editor)
| CallStopWatching
| ActiveEditorChanged (active : option Editor)
| StoppedChanging (l : nat) (now : Editor).

Definition onObject (f : App Cfg -> App Cfg) (w : Watch) : Watch :=
  mkWatch (f (obj w)) (listeners w).

Definition performWatch (c : WatchCall) (w : Watch) : Watch :=
  match c with
  | OnObject c => onObject (perform E c) w
  | CallWatchActiveShader active => snd (watchActiveShader active w)
  | CallWatchShader active => snd (watchShader active w)
  | CallStopWatching => onObject (fun a => snd (stopWatching a)) w
  | ActiveEditorChanged active =>
      if existsb isActiveListener (liveListeners w)
      then snd (watchShader active w)
      else w
  | StoppedChanging l now =>
      if existsb (fun x => (lid x =? l)%nat && isContentListener x)
           (liveListeners w)
      then onObject
             (fun a => snd (loadShaderOfEditor E (Some now) false a)) w
      else w
  end.

Definition runWatch (cs : list WatchCall) (w : Watch) : Watch :=
  fold_left (fun w c => performWatch c w) cs w.

(** The object right after construction, with nothing registered. *)
Definition startWatch (cfg : Cfg) : Watch :=
  mkWatch (constructor E cfg) [].

(** Every live listener is the one whose disposable the object holds in the
    field of its kind, and the identities handed out are below the next
    one. *)
Definition watchInv (w : Watch) : Prop :=
  (forall l, In l (liveListeners w) ->
     if isActiveListener l
     then activeEditorDisposer (obj w) = Some (lid l)
     else editorDisposer (obj w) = Some (lid l)) /\
  NoDup (map lid (listeners w)) /\
  (forall l, In l (listeners w) -> (lid l < nextId (obj w))%nat) /\
  (forall d, activeEditorDisposer (obj w) = Some d ->
     (d < nextId (obj w))%nat) /\
  (forall d, editorDisposer (obj w) = Some d -> (d < nextId (obj w))%nat) /\
  (forall d, disposed (trace (obj w)) d = true -> (d < nextId (obj w))%nat).

(** A step of the object as the listeners see it: identities are only
    handed out, the only disposables disposed are those held in the two
    fields, and a field keeps its disposable or is cleared after disposing
    it. *)
Definition watchStep (a a' : App Cfg) : Prop :=
  (nextId a <= nextId a')%nat /\
  exists delta,
    trace a' = trace a ++ delta /\
    (forall d, In (EvDispose d) delta ->
       activeEditorDisposer a = Some d \/ editorDisposer a = Some d) /\
    (activeEditorDisposer a' = activeEditorDisposer a \/
     (activeEditorDisposer a' = None /\
      forall d, activeEditorDisposer a = Some d -> In (EvDispose d) delta)) /\
    (editorDisposer a' = editorDisposer a \/
     (editorDisposer a' = None /\
      forall d, editorDisposer a = Some d -> In (EvDispose d) delta)).

(** The backend the object holds is one it has constructed and plays
    exactly when [isPlaying] is set; no identity was handed out twice or
    used before it was handed out; and every other backend the object has
    constructed was stopped by the last call it received. *)
Definition backendInv (a : App Cfg) : Prop :=
  In (bid (player a)) (constructedBackends (trace a)) /\
  NoDup (constructedBackends (trace a)) /\
  (forall b, In b (constructedBackends (trace a)) -> (b < nextId a)%nat) /\
  (forall b e, In e (trace a) -> addressedTo b e = true ->
     (b < nextId a)%nat) /\
  (forall b, In b (constructedBackends (trace a)) ->
     b <> bid (player a) ->
     lastCallTo b (trace a) = Some (EvPlayerStop b)) /\
  backendPlaying (player a) (trace a) = isPlaying a.

End Watching.

Arguments Watch : clear implicits.

(** ** A concrete project

    Collaborators for a project in [/proj] used in the examples: the
    configuration keeps one snapshot for visual builds and one for sound
    builds, the preprocessor puts its banner line before the text, the
    validator wants a shader to end with a closing brace, and two files exist
    next to the edited one. *)

Module Scenario.

Record Settings : Type := mkSettings {
  visual : Rc;
  sound : Rc;
}.

Fixpoint beforeLastSlash (s : string) : option string :=
  match s with
  | EmptyString => None
  | String c s' =>
      match beforeLastSlash s' with
      | Some d => Some (String c d)
      | None => if Ascii.eqb c "/" then Some "" else None
      end
  end.

Definition dirnameOf (s : string) : string :=
  match beforeLastSlash s with
  | Some "" => "/"
  | Some d => d
  | None => "."
  end.

Definition resolveIn (dir file : string) : string :=
  (dir ++ "/" ++ file)%string.

Definition banner : string :=
  ("#define GLSLIFY 1" ++ String "010" "")%string.

Definition bundle (source basedir : string) : result string :=
  Ok (banner ++ source)%string.

Definition validate (validatorPath source postfix : string) : result unit :=
  if endsWith source "}" then Ok tt
  else Err (Failure "ERROR: syntax error").

Definition readFile (validatorPath file : string) : result string :=
  if file =? "/proj/a.vert" then Ok "VS_TEXT"
  else if file =? "/proj/b.frag" then Ok "FS_TEXT"
  else Err (Failure "ENOENT").

Definition collab : Collab Settings :=
  mkCollab Settings
    (fun _ _ c => c) (fun _ _ c => c)
    visual visual sound (fun _ => "/proj") (fun c => c) (fun c => c)
    bundle validate readFile dirnameOf resolveIn
    [mkPass None None None None None (Some "void main(){}")]
    "vec2 mainSound(float t){return vec2(0.);}".

Definition glslang : string := "glslangValidator".

(** The text in the editor. *)
Definition text : string := "void main(){}".

Definition rcOf (glslify : bool) (passes : list RcPass) : Rc :=
  mkRc glslang glslify passes.

Definition vsOnly (file : string) : RcPass :=
  mkRcPass None None None None (Some file) None.

Definition fsOnly (file : string) : RcPass :=
  mkRcPass None None None None None (Some file).

Definition vsAndFs (v f : string) : RcPass :=
  mkRcPass None None None None (Some v) (Some f).

(** The object right after construction. *)
Definition start (v s : Rc) : App Settings :=
  constructor collab (mkSettings v s).

Definition fragEditor (text : string) : Editor :=
  mkEditor (Some "/proj/shader.frag") text.

Definition oscDiff (p : Nullable Z) : RcDiff :=
  mkRcDiff (mkRcFragment None None (Some p)).

Definition serverDiff (p : Nullable Z) : RcDiff :=
  mkRcDiff (mkRcFragment None (Some p) None).

End Scenario.

(** * Properties *)

(** ** Numbers and strings *)

Lemma takeDigits_string_of_uint (d : Decimal.uint) :
  takeDigits (NilEmpty.string_of_uint d) = NilEmpty.string_of_uint d.
Proof. induction d; simpl; congruence. Qed.

Lemma parseInt10_unsigned c s :
  isDigit c = true ->
  parseInt10 (String c s) =
  match NilZero.uint_of_string (String c (takeDigits s)) with
  | Some u => Some (Z.of_uint u)
  | None => None
  end.
Proof.
  destruct c as [[] [] [] [] [] [] [] []]; simpl; intros H; try discriminate H;
    reflexivity.
Qed.

Lemma parseInt10_negative c s :
  isDigit c = true ->
  parseInt10 (String "-" (String c s)) =
  match NilZero.uint_of_string (String c (takeDigits s)) with
  | Some u => Some (- Z.of_uint u)%Z
  | None => None
  end.
Proof.
  destruct c as [[] [] [] [] [] [] [] []]; simpl; intros H; try discriminate H;
    reflexivity.
Qed.

Lemma string_of_uint_head (d : Decimal.uint) :
  d <> Decimal.Nil ->
  exists c s,
    NilEmpty.string_of_uint d = String c s /\
    isDigit c = true /\ takeDigits s = s.
Proof.
  intros Hd.
  destruct d; try congruence; simpl; do 2 eexists;
    (split; [reflexivity|]); (split; [reflexivity|]);
    apply takeDigits_string_of_uint.
Qed.

(** The decimal rendering of a non-empty digit sequence reads back as
    itself, and a leading minus sign negates it. *)
Lemma parseInt10_digits (d : Decimal.uint) :
  d <> Decimal.Nil ->
  parseInt10 (NilEmpty.string_of_uint d) = Some (Z.of_uint d) /\
  parseInt10 (String "-" (NilEmpty.string_of_uint d)) =
    Some (- Z.of_uint d)%Z.
Proof.
  intros Hd. pose proof (NilEmpty.usu d) as Hu.
  destruct (string_of_uint_head d Hd) as (c & s & Hs & Hc & Ht).
  rewrite Hs in *.
  rewrite parseInt10_unsigned, parseInt10_negative by exact Hc.
  rewrite Ht. unfold NilZero.uint_of_string. rewrite Hu.
  split; reflexivity.
Qed.

Lemma string_of_uint_nonnil (d : Decimal.uint) :
  d <> Decimal.Nil -> NilZero.string_of_uint d = NilEmpty.string_of_uint d.
Proof. destruct d; [congruence | reflexivity ..]. Qed.

(** The decimal digits of an integer read back as that integer. *)
Lemma parseInt10_decimal (n : Z) : parseInt10 (decimal n) = Some n.
Proof.
  destruct n as [|p|p]; [reflexivity| |];
    pose proof (DecimalPos.Unsigned.to_uint_nonnil p) as Hn;
    unfold decimal; simpl; rewrite (string_of_uint_nonnil _ Hn).
  - pose proof (DecimalZ.of_to (Z.pos p)) as Hz. simpl in Hz.
    rewrite <- Hz. apply parseInt10_digits; exact Hn.
  - pose proof (DecimalZ.of_to (Z.neg p)) as Hz. simpl in Hz.
    rewrite <- Hz. apply parseInt10_digits; exact Hn.
Qed.

(** [parseInt(n.toString(), 10)] is [n] for a plain integer [n]. *)
Lemma parseInt10_toString (n : Z) :
  plainInteger n = true -> parseInt10 (toString n) = Some n.
Proof.
  intros H. unfold toString. rewrite H. apply parseInt10_decimal.
Qed.

(** From 10^21 on the text has an exponent and [parseInt] reads the leading
    digit only. *)
Lemma parseInt10_toString_exponent :
  toString (10 ^ 21) = "1e+21" /\ parseInt10 (toString (10 ^ 21)) = Some 1%Z.
Proof. split; vm_compute; reflexivity. Qed.

(** ** The pass assembler *)

Section PassAssemblerFacts.

Variable loadFile : string -> string -> result string.
Variable path_resolve : string -> string -> string.
Variables gvp shader postfix dir : string.

Lemma settleAll_Ok {A} (rs : list (result A)) (l : list A) :
  settleAll rs = Ok l <-> rs = map Ok l.
Proof.
  revert l. induction rs as [|r rs IH]; intros l; simpl.
  - split; intros H.
    + injection H as <-. reflexivity.
    + destruct l; [reflexivity | discriminate].
  - destruct r as [a|e].
    + destruct (settleAll rs) as [l'|e] eqn:Hrs.
      * split; intros H.
        -- injection H as <-. simpl. f_equal. apply IH. reflexivity.
        -- destruct l as [|b l]; simpl in H; [discriminate|].
           injection H as -> Hl. apply IH in Hl. congruence.
      * split; intros H; [discriminate|].
        destruct l as [|b l]; simpl in H; [discriminate|].
        injection H as _ Hl. apply IH in Hl. discriminate.
    + split; intros H; [discriminate|].
      destruct l; simpl in H; discriminate.
Qed.

Lemma settleAll_Err {A} (rs : list (result A)) (e : Error) :
  settleAll rs = Err e -> exists i, rs !! i = Some (Err e).
Proof.
  induction rs as [|r rs IH]; simpl; [discriminate|].
  destruct r as [a|e'].
  - destruct (settleAll rs) as [l|e''] eqn:Hrs; [discriminate|].
    intros H. injection H as ->.
    destruct (IH eq_refl) as [i Hi]. exists (S i). exact Hi.
  - intros H. injection H as ->. exists 0%nat. reflexivity.
Qed.

Lemma coercePasses_length (rcPasses : list RcPass) :
  length (coercePasses rcPasses) = Nat.max (length rcPasses) 1.
Proof.
  unfold coercePasses. destruct rcPasses as [|r l]; simpl; [reflexivity|].
  lia.
Qed.

Lemma coercePasses_nonempty (rcPasses : list RcPass) :
  rcPasses <> [] -> coercePasses rcPasses = rcPasses.
Proof. destruct rcPasses; [congruence | reflexivity]. Qed.

Lemma createPasses_settle (rcPasses : list RcPass) :
  snd (createPasses loadFile path_resolve gvp rcPasses shader postfix dir) =
  settleAll
    (imap (fun i spec =>
             snd (assemblePass loadFile path_resolve gvp shader postfix dir
                    (lastPassOf rcPasses) i spec))
       (coercePasses rcPasses)).
Proof.
  unfold createPasses, Promise_all, lastPassOf. simpl.
  f_equal. generalize (length (coercePasses rcPasses) - 1)%nat as n.
  intros n. apply list_eq. intros i.
  rewrite list_lookup_fmap, !list_lookup_imap.
  destruct (coercePasses rcPasses !! i); reflexivity.
Qed.

(** An assembly that rejects does so with the rejection of the task of a
    listed specification. *)
Lemma createPasses_rejects (rcPasses : list RcPass) (e : Error) :
  snd (createPasses loadFile path_resolve gvp rcPasses shader postfix dir) =
    Err e ->
  exists i spec,
    coercePasses rcPasses !! i = Some spec /\
    snd (assemblePass loadFile path_resolve gvp shader postfix dir
           (lastPassOf rcPasses) i spec) = Err e.
Proof.
  rewrite createPasses_settle. intros Hc.
  apply settleAll_Err in Hc. destruct Hc as [i Hi].
  rewrite list_lookup_imap in Hi.
  destruct (coercePasses rcPasses !! i) as [spec|] eqn:Hs;
    simpl in Hi; [|discriminate].
  injection Hi as Hi. eauto.
Qed.

(** Every output pass is the settlement of the task of the specification
    at the same index. *)
Lemma createPasses_lookup (rcPasses : list RcPass) (passes : list Pass) :
  snd (createPasses loadFile path_resolve gvp rcPasses shader postfix dir) =
    Ok passes ->
  forall i spec,
    coercePasses rcPasses !! i = Some spec ->
    exists p,
      passes !! i = Some p /\
      snd (assemblePass loadFile path_resolve gvp shader postfix dir
             (lastPassOf rcPasses) i spec) = Ok p.
Proof.
  rewrite createPasses_settle, settleAll_Ok. intros Heq i spec Hi.
  assert (Hl : (imap (fun i spec =>
             snd (assemblePass loadFile path_resolve gvp shader postfix dir
                    (lastPassOf rcPasses) i spec))
       (coercePasses rcPasses)) !! i = (map Ok passes) !! i) by (rewrite Heq; reflexivity).
  rewrite list_lookup_imap, Hi in Hl. simpl in Hl.
  change (map Ok passes) with (Ok <$> passes) in Hl.
  rewrite list_lookup_fmap in Hl.
  destruct (passes !! i) as [p|]; simpl in Hl; [|discriminate].
  exists p. split; [reflexivity|]. congruence.
Qed.

Lemma createPasses_length (rcPasses : list RcPass) (passes : list Pass) :
  snd (createPasses loadFile path_resolve gvp rcPasses shader postfix dir) =
    Ok passes ->
  length passes = Nat.max (length rcPasses) 1.
Proof.
  rewrite createPasses_settle, settleAll_Ok. intros Heq.
  apply (f_equal length) in Heq.
  rewrite length_imap, length_map, coercePasses_length in Heq. lia.
Qed.

Lemma lastPassOf_nonempty (rcPasses : list RcPass) :
  lastPassOf rcPasses = (length rcPasses - 1)%nat.
Proof.
  unfold lastPassOf. rewrite coercePasses_length.
  destruct rcPasses; simpl; lia.
Qed.

Lemma lookup_coercePasses (rcPasses : list RcPass) i spec :
  rcPasses !! i = Some spec -> coercePasses rcPasses !! i = Some spec.
Proof.
  intros H. rewrite coercePasses_nonempty; [exact H|].
  intros ->. discriminate.
Qed.

Ltac run_task :=
  unfold assemblePass, task_bind, loadFileTask, task_ret; simpl.

(** The task of a specification that sets neither side issues no load and
    resolves. *)
Lemma assemblePass_neither lastPass i spec :
  truthyStr (rc_vs spec) = false ->
  truthyStr (rc_fs spec) = false ->
  assemblePass loadFile path_resolve gvp shader postfix dir lastPass i spec =
  ([], Ok (if isVertexPostfix postfix
           then mkPass (rc_TARGET spec) (rc_FLOAT spec) (rc_WIDTH spec)
                  (rc_HEIGHT spec) (Some shader) None
           else mkPass (rc_TARGET spec) (rc_FLOAT spec) (rc_WIDTH spec)
                  (rc_HEIGHT spec) None (Some shader))).
Proof.
  intros Hv Hf. run_task. rewrite Hv, Hf. simpl.
  destruct (isVertexPostfix postfix); reflexivity.
Qed.

Lemma assemblePass_resolves lastPass i spec :
  (forall f, exists src, loadFile gvp f = Ok src) ->
  exists p,
    snd (assemblePass loadFile path_resolve gvp shader postfix dir
           lastPass i spec) = Ok p.
Proof.
  intros Hload. run_task.
  destruct (truthyStr (rc_fs spec)) eqn:Hf,
           (truthyStr (rc_vs spec)) eqn:Hv; simpl;
    repeat match goal with
      | |- context [loadFile gvp ?f] =>
          let src := fresh "src" in
          let H := fresh "H" in
          destruct (Hload f) as [src H]; rewrite H; simpl
      | |- context [if ?b then _ else _] => destruct b; simpl
      end; eauto.
Qed.

(** C3: the assembler yields as many passes as there are specifications
    (one for an empty list), the pass at each index being the outcome of
    the task of the specification at that index; it fails only when the
    task of a listed specification fails, and never when every file
    loads. *)
Theorem createPasses_count_and_order (rcPasses : list RcPass) :
  let task i spec :=
    snd (assemblePass loadFile path_resolve gvp shader postfix dir
           (length rcPasses - 1) i spec) in
  match
    snd (createPasses loadFile path_resolve gvp rcPasses shader postfix dir)
  with
  | Ok passes =>
      length passes = Nat.max (length rcPasses) 1 /\
      forall i spec,
        rcPasses !! i = Some spec ->
        exists p, passes !! i = Some p /\ task i spec = Ok p
  | Err e =>
      exists i spec, rcPasses !! i = Some spec /\ task i spec = Err e
  end /\
  ((forall f, exists src, loadFile gvp f = Ok src) ->
   exists passes,
     snd (createPasses loadFile path_resolve gvp rcPasses shader postfix dir)
     = Ok passes).
Proof.
  intros task. subst task. split.
  - destruct (snd (createPasses _ _ _ _ _ _ _)) as [passes|e] eqn:Hc.
    + split; [eapply createPasses_length; eauto|].
      intros i spec Hi. rewrite <- lastPassOf_nonempty.
      eapply createPasses_lookup; eauto using lookup_coercePasses.
    + rewrite createPasses_settle in Hc.
      apply settleAll_Err in Hc. destruct Hc as [i Hi].
      rewrite list_lookup_imap in Hi.
      destruct (coercePasses rcPasses !! i) as [spec|] eqn:Hs;
        simpl in Hi; [|discriminate].
      injection Hi as Hi. destruct rcPasses as [|r l].
      * destruct i; simpl in Hs; [|destruct i; discriminate].
        injection Hs as <-. rewrite assemblePass_neither in Hi by reflexivity.
        discriminate.
      * rewrite lastPassOf_nonempty in Hi. eauto.
  - intros Hload. rewrite createPasses_settle.
    induction (coercePasses rcPasses) as [|spec l IH] using rev_ind.
    + exists []. reflexivity.
    + destruct IH as [ps Hps]. rewrite imap_app. simpl.
      destruct (assemblePass_resolves (lastPassOf rcPasses) (length l + 0)
                  spec Hload) as [p Hp].
      exists (ps ++ [p]). apply settleAll_Ok. apply settleAll_Ok in Hps.
      rewrite Hps, Hp, map_app. reflexivity.
Qed.

Lemma isVertexPostfix_spec p :
  isVertexPostfix p = true <-> p = ".vert" \/ p = ".vs".
Proof.
  unfold isVertexPostfix. rewrite orb_true_iff, !String.eqb_eq. tauto.
Qed.

Lemma isFragmentPostfix_spec p :
  isFragmentPostfix p = true <-> p = ".frag" \/ p = ".fs".
Proof.
  unfold isFragmentPostfix. rewrite orb_true_iff, !String.eqb_eq. tauto.
Qed.

(** C4: a specification that sets neither [vs] nor [fs] (both are falsy to
    the code) is assembled with the edited text on one side only: on [vs]
    for the postfixes .vert and .vs, on [fs] for .glsl, .frag and .fs. *)
Theorem unset_sides_filled_by_postfix
    (rcPasses : list RcPass) (passes : list Pass) (i : nat) (spec : RcPass) :
  snd (createPasses loadFile path_resolve gvp rcPasses shader postfix dir) =
    Ok passes ->
  coercePasses rcPasses !! i = Some spec ->
  truthyStr (rc_vs spec) = false ->
  truthyStr (rc_fs spec) = false ->
  exists p,
    passes !! i = Some p /\
    (postfix = ".vert" \/ postfix = ".vs" ->
     vs p = Some shader /\ fs p = None) /\
    (postfix = ".glsl" \/ postfix = ".frag" \/ postfix = ".fs" ->
     fs p = Some shader /\ vs p = None).
Proof.
  intros Hc Hi Hv Hf.
  destruct (createPasses_lookup _ _ Hc _ _ Hi) as (p & Hp & Ht).
  rewrite assemblePass_neither in Ht by assumption.
  injection Ht as <-. eexists. split; [exact Hp|]. split.
  - intros H. apply isVertexPostfix_spec in H. rewrite H.
    split; reflexivity.
  - intros H.
    assert (Hn : isVertexPostfix postfix = false).
    { destruct H as [->| [->| ->]]; reflexivity. }
    rewrite Hn. split; reflexivity.
Qed.

Ltac split_task Ht :=
  unfold assemblePass, task_bind, loadFileTask, task_ret in Ht;
  simpl in Ht;
  repeat match type of Ht with
    | context [loadFile ?a ?f] =>
        let src := fresh "src" in
        destruct (loadFile a f) as [src|] eqn:?; simpl in Ht
    | context [if ?b then _ else _] => destruct b eqn:?; simpl in Ht
    end;
  try discriminate Ht.

(** C5: a specification that sets [vs] only gets the loaded file as [vs];
    when it is the last one and the postfix is .frag or .fs, the edited text
    becomes its [fs], and when it is not the last one its [fs] stays unset.
    The same holds with the sides exchanged and the postfixes .vert and
    .vs. *)
Theorem one_side_set_other_from_editor
    (rcPasses : list RcPass) (passes : list Pass) (i : nat) (spec : RcPass) :
  snd (createPasses loadFile path_resolve gvp rcPasses shader postfix dir) =
    Ok passes ->
  rcPasses !! i = Some spec ->
  exists p,
    passes !! i = Some p /\
    (truthyStr (rc_vs spec) = true -> truthyStr (rc_fs spec) = false ->
     exists src,
       loadFile gvp (path_resolve dir (default "" (rc_vs spec))) = Ok src /\
       vs p = Some src /\
       (i = (length rcPasses - 1)%nat ->
        postfix = ".frag" \/ postfix = ".fs" -> fs p = Some shader) /\
       (i <> (length rcPasses - 1)%nat -> fs p = None)) /\
    (truthyStr (rc_fs spec) = true -> truthyStr (rc_vs spec) = false ->
     exists src,
       loadFile gvp (path_resolve dir (default "" (rc_fs spec))) = Ok src /\
       fs p = Some src /\
       (i = (length rcPasses - 1)%nat ->
        postfix = ".vert" \/ postfix = ".vs" -> vs p = Some shader) /\
       (i <> (length rcPasses - 1)%nat -> vs p = None)).
Proof.
  intros Hc Hi.
  destruct (createPasses_lookup _ _ Hc _ _ (lookup_coercePasses _ _ _ Hi))
    as (p & Hp & Ht).
  rewrite lastPassOf_nonempty in Ht.
  exists p. split; [exact Hp|]. split.
  - intros Hv Hf. unfold assemblePass in Ht. rewrite Hv, Hf in Ht.
    split_task Ht; injection Ht as <-; eexists; (split; [reflexivity|]);
      simpl; (split; [reflexivity|]); split; intros Hlast; try intros Hpost.
    all: try reflexivity.
    all: try (apply andb_true_iff in Heqb as [Hb _];
              apply Nat.eqb_eq in Hb; contradiction).
    apply isFragmentPostfix_spec in Hpost.
    apply Nat.eqb_eq in Hlast.
    rewrite Hlast, Hpost in Heqb. discriminate.
  - intros Hf Hv. unfold assemblePass in Ht. rewrite Hv, Hf in Ht.
    split_task Ht; injection Ht as <-; eexists; (split; [reflexivity|]);
      simpl; (split; [reflexivity|]); split; intros Hlast; try intros Hpost.
    all: try reflexivity.
    all: try (apply andb_true_iff in Heqb as [Hb _];
              apply Nat.eqb_eq in Hb; contradiction).
    apply isVertexPostfix_spec in Hpost.
    apply Nat.eqb_eq in Hlast.
    rewrite Hlast, Hpost in Heqb. discriminate.
Qed.

Lemma postfix_kinds_disjoint p :
  isVertexPostfix p = true -> isFragmentPostfix p = true -> False.
Proof.
  rewrite isVertexPostfix_spec, isFragmentPostfix_spec.
  intros [->| ->] [H|H]; discriminate H.
Qed.

(** C10: when the last specification sets both [vs] and [fs], both files
    are loaded; with the postfix .vert or .vs the edited text replaces the
    loaded [vs] and [fs] is the loaded file, while with .frag or .fs the
    loaded [fs] replaces the edited text and [vs] is the loaded file. *)
Theorem both_sides_set_asymmetric
    (rcPasses : list RcPass) (passes : list Pass) (spec : RcPass) :
  snd (createPasses loadFile path_resolve gvp rcPasses shader postfix dir) =
    Ok passes ->
  rcPasses !! (length rcPasses - 1)%nat = Some spec ->
  truthyStr (rc_vs spec) = true ->
  truthyStr (rc_fs spec) = true ->
  exists p vsrc fsrc,
    passes !! (length rcPasses - 1)%nat = Some p /\
    loadFile gvp (path_resolve dir (default "" (rc_vs spec))) = Ok vsrc /\
    loadFile gvp (path_resolve dir (default "" (rc_fs spec))) = Ok fsrc /\
    (postfix = ".vert" \/ postfix = ".vs" ->
     vs p = Some shader /\ fs p = Some fsrc) /\
    (postfix = ".frag" \/ postfix = ".fs" ->
     vs p = Some vsrc /\ fs p = Some fsrc).
Proof.
  intros Hc Hi Hv Hf.
  destruct (createPasses_lookup _ _ Hc _ _ (lookup_coercePasses _ _ _ Hi))
    as (p & Hp & Ht).
  rewrite lastPassOf_nonempty in Ht.
  unfold assemblePass in Ht. rewrite Hv, Hf, Nat.eqb_refl in Ht.
  simpl in Ht. exists p.
  unfold task_bind, loadFileTask, task_ret in Ht. simpl in Ht.
  destruct (loadFile gvp (path_resolve dir (default "" (rc_vs spec))))
    as [vsrc|] eqn:Hlv; simpl in Ht.
  2: discriminate Ht.
  exists vsrc.
  destruct (isFragmentPostfix postfix) eqn:Hfrag; simpl in Ht;
    destruct (loadFile gvp (path_resolve dir (default "" (rc_fs spec))))
      as [fsrc|] eqn:Hlf; simpl in Ht; try discriminate Ht;
    exists fsrc;
    destruct (isVertexPostfix postfix) eqn:Hvert; simpl in Ht;
    injection Ht as <-; simpl;
    (split; [exact Hp|]); (split; [reflexivity|]); (split; [reflexivity|]);
    split; intros Hpost;
    try (apply isVertexPostfix_spec in Hpost);
    try (apply isFragmentPostfix_spec in Hpost);
    try congruence;
    try (exfalso; eapply postfix_kinds_disjoint; eassumption);
    split; reflexivity.
Qed.

End PassAssemblerFacts.

(** ** The build pipeline *)

Section BuildPipelineFacts.

Context {Cfg : Type} (E : Collab Cfg).

Ltac run_chain :=
  unfold loadShaderOfEditor, promise, catch, buildChain, settingsStep,
    validateStep, createPassesOf, dispatchStep, awaitTask, console_error,
    callPlayer, emit, emitAll, liftResult, gets, modify, throw,
    mbind, mret, M_bind, M_ret, bind, ret;
  simpl.

(** The pipeline, for an editor on a file with a recognised postfix, in terms
    of its steps: the configuration is refreshed, then the first failing step
    is reported and ends the build, and only a build whose steps all succeed
    reaches the dispatch. *)
Lemma loadShaderOfEditor_steps (ed : Editor) (isSound : bool) (app : App Cfg)
    (filepath postfix : string) :
  getPath ed = Some filepath ->
  matchPostfix filepath = Some postfix ->
  let dir := dirname E filepath in
  let gvp := glslangValidatorPath app in
  let '(cfg', rc) := stepSnapshot E filepath (getText ed) isSound (config app) in
  let app1 := set_config cfg' app in
  let report e a := set_trace (trace a ++ [EvConsoleError (LogError e)]) a in
  loadShaderOfEditor E (Some ed) isSound app =
  (Resolved,
   match stepPreprocess E rc filepath (getText ed) with
   | Err e => report e app1
   | Ok shader =>
       match stepValidate E isSound gvp shader postfix with
       | Err e => report e app1
       | Ok _ =>
           let t := stepAssemble E gvp rc shader postfix dir in
           let app2 := set_trace (trace app1 ++ map EvLoadFile (fst t)) app1 in
           match snd t with
           | Err e => report e app2
           | Ok passes =>
               if isSound then
                 set_lastSoundShader shader
                   (set_trace
                      (trace app2 ++
                       [EvPlayerLoadSoundShader (bid (player app)) shader])
                      app2)
               else
                 set_lastShader passes
                   (set_trace
                      (trace app2 ++
                       [EvPlayerLoadShader (bid (player app)) passes])
                      app2)
           end
       end
   end).
Proof.
  intros Hpath Hpost. unfold stepSnapshot, stepPreprocess, stepValidate,
    stepAssemble.
  run_chain. rewrite Hpath. simpl. rewrite Hpost.
  destruct isSound; simpl;
    destruct (rc_glslify _); simpl;
    repeat match goal with
      | |- context [match ?x with Ok _ => _ | Err _ => _ end] =>
          destruct x eqn:?; simpl
      end; reflexivity.
Qed.

Ltac use_steps H ed isSound app filepath postfix Hp Hm :=
  pose proof (loadShaderOfEditor_steps ed isSound app filepath postfix Hp Hm)
    as H;
  cbv zeta in H;
  destruct (stepSnapshot E filepath (getText ed) isSound (config app))
    as [cfg' rc] eqn:Hsnap;
  cbn [snd] in *.

(** C1: when a step of a build fails (unrecognised extension, preprocessing
    error, validation error, file-load error), and also when the call throws
    for a missing path, [lastShader] and [lastSoundShader] keep the values
    they had before the call; when one of them has changed, every step of the
    build has succeeded. *)
Theorem failed_build_keeps_shader_state
    (ed : Editor) (isSound : bool) (app : App Cfg) :
  let app' := snd (loadShaderOfEditor E (Some ed) isSound app) in
  (StepFails E ed isSound app \/ getPath ed = None ->
   lastShader app' = lastShader app /\
   lastSoundShader app' = lastSoundShader app) /\
  (lastShader app' <> lastShader app \/
   lastSoundShader app' <> lastSoundShader app ->
   exists filepath postfix shader passes,
     let rc := snd (stepSnapshot E filepath (getText ed) isSound
                      (config app)) in
     getPath ed = Some filepath /\
     matchPostfix filepath = Some postfix /\
     stepPreprocess E rc filepath (getText ed) = Ok shader /\
     stepValidate E isSound (glslangValidatorPath app) shader postfix
       = Ok tt /\
     snd (stepAssemble E (glslangValidatorPath app) rc shader postfix
            (dirname E filepath)) = Ok passes).
Proof.
  intros app'. subst app'.
  destruct (getPath ed) as [filepath|] eqn:Hp.
  2: { unfold loadShaderOfEditor. rewrite Hp. simpl.
       split; [auto | intros [H|H]; congruence]. }
  destruct (matchPostfix filepath) as [postfix|] eqn:Hm.
  2: { unfold loadShaderOfEditor. rewrite Hp. simpl. rewrite Hm. simpl.
       split; [auto | intros [H|H]; congruence]. }
  use_steps H ed isSound app filepath postfix Hp Hm. rewrite H. clear H.
  destruct (stepPreprocess E rc filepath (getText ed)) as [shader|e1] eqn:H1.
  2: { simpl. split; [auto | intros [H|H]; congruence]. }
  destruct (stepValidate E isSound (glslangValidatorPath app) shader postfix)
    as [[]|e2] eqn:H2.
  2: { simpl. split; [auto | intros [H|H]; congruence]. }
  destruct (snd (stepAssemble E (glslangValidatorPath app) rc shader postfix
                   (dirname E filepath))) as [passes|e3] eqn:H3.
  2: { simpl. split; [auto | intros [H|H]; congruence]. }
  split.
  - intros [Hf|Hn]; [|discriminate Hn].
    destruct Hf as [Hu|fp e Hfp He|fp pf sh e Hfp Hpf Hsh He
                   |fp pf sh e Hfp Hpf Hsh He].
    + rewrite Hp in Hu. change (matchPostfix filepath = None) in Hu.
      congruence.
    + rewrite Hp in Hfp. injection Hfp as <-.
      rewrite Hsnap in He. simpl in He. congruence.
    + rewrite Hp in Hfp. injection Hfp as <-.
      rewrite Hsnap in Hsh. simpl in *.
      assert (sh = shader) by congruence. subst sh.
      assert (pf = postfix) by congruence. subst pf. congruence.
    + rewrite Hp in Hfp. injection Hfp as <-.
      rewrite Hsnap in Hsh, He. simpl in *.
      assert (sh = shader) by congruence. subst sh.
      assert (pf = postfix) by congruence. subst pf. congruence.
  - intros _. exists filepath, postfix, shader, passes.
    cbv zeta. rewrite Hsnap. simpl. auto.
Qed.

Lemma filter_file_loads (l : list LoadCall) (rest : list Event) :
  List.filter isFileLoad rest = [] ->
  List.filter isFileLoad (map EvLoadFile l ++ rest) = map EvLoadFile l /\
  List.filter (fun e => negb (isFileLoad e)) (map EvLoadFile l ++ rest) =
    List.filter (fun e => negb (isFileLoad e)) rest.
Proof.
  intros Hr. rewrite !List.filter_app, Hr, app_nil_r.
  induction l as [|c l [IH1 IH2]]; [auto|].
  simpl. rewrite IH1. split; [reflexivity | exact IH2].
Qed.

(** C2, as the code has it: pass assembly runs in a sound-mode build as in a
    visual one.  A build that has passed preprocessing and validation issues
    the file loads of the assembler in either mode, in some order, and makes
    one more call.  When every load succeeds that call comes last and is the
    dispatch: a visual build stores and dispatches the assembled passes, a
    sound build drops them and leaves [lastShader] as it was.  When a load
    fails the call is the report of the rejection of one of the tasks, and
    the shader state stays. *)
Theorem pass_assembly_runs_in_both_modes
    (ed : Editor) (isSound : bool) (app : App Cfg)
    (filepath postfix shader : string) :
  getPath ed = Some filepath ->
  matchPostfix filepath = Some postfix ->
  let rc := snd (stepSnapshot E filepath (getText ed) isSound (config app)) in
  stepPreprocess E rc filepath (getText ed) = Ok shader ->
  stepValidate E isSound (glslangValidatorPath app) shader postfix = Ok tt ->
  let gvp := glslangValidatorPath app in
  let dir := dirname E filepath in
  let t := stepAssemble E gvp rc shader postfix dir in
  let app' := snd (loadShaderOfEditor E (Some ed) isSound app) in
  exists delta,
    trace app' = trace app ++ delta /\
    Permutation (List.filter isFileLoad delta) (map EvLoadFile (fst t)) /\
    let others := List.filter (fun e => negb (isFileLoad e)) delta in
    match snd t with
    | Ok passes =>
        if isSound then
          others = [EvPlayerLoadSoundShader (bid (player app)) shader] /\
          last delta = head others /\
          lastShader app' = lastShader app
        else
          others = [EvPlayerLoadShader (bid (player app)) passes] /\
          last delta = head others /\
          lastShader app' = passes
    | Err _ =>
        (exists i spec e,
           coercePasses (rc_PASSES rc) !! i = Some spec /\
           snd (assemblePass (loadFile E) (resolve E) gvp shader postfix dir
                  (lastPassOf (rc_PASSES rc)) i spec) = Err e /\
           others = [EvConsoleError (LogError e)]) /\
        lastShader app' = lastShader app /\
        lastSoundShader app' = lastSoundShader app
    end.
Proof.
  intros Hp Hm rc0 H1 H2 gvp dir t app'. subst rc0 gvp dir t app'.
  use_steps H ed isSound app filepath postfix Hp Hm.
  rewrite H, H1, H2. clear H.
  set (t := stepAssemble E (glslangValidatorPath app) rc shader postfix
              (dirname E filepath)).
  assert (Hrej : forall e, snd t = Err e ->
            exists i spec,
              coercePasses (rc_PASSES rc) !! i = Some spec /\
              snd (assemblePass (loadFile E) (resolve E)
                     (glslangValidatorPath app) shader postfix
                     (dirname E filepath) (lastPassOf (rc_PASSES rc)) i spec)
                = Err e).
  { intros e He. apply createPasses_rejects. exact He. }
  assert (Hdelta : forall x,
            isFileLoad x = false ->
            Permutation
              (List.filter isFileLoad (map EvLoadFile (fst t) ++ [x]))
              (map EvLoadFile (fst t)) /\
            List.filter (fun e => negb (isFileLoad e))
              (map EvLoadFile (fst t) ++ [x]) = [x] /\
            last (map EvLoadFile (fst t) ++ [x]) = Some x).
  { intros x Hx.
    destruct (filter_file_loads (fst t) [x]) as [F1 F2];
      [simpl; rewrite Hx; reflexivity|].
    rewrite F1, F2. simpl. rewrite Hx. simpl.
    split; [reflexivity|]. split; [reflexivity|]. apply last_snoc. }
  destruct (snd t) as [passes|e3] eqn:H3.
  - destruct isSound.
    + destruct (Hdelta (EvPlayerLoadSoundShader (bid (player app)) shader)
                  eq_refl) as (P1 & P2 & P3).
      exists (map EvLoadFile (fst t) ++
              [EvPlayerLoadSoundShader (bid (player app)) shader]).
      split; [simpl; rewrite <- app_assoc; reflexivity|].
      split; [exact P1|]. cbv zeta. rewrite P2, P3. repeat split.
    + destruct (Hdelta (EvPlayerLoadShader (bid (player app)) passes)
                  eq_refl) as (P1 & P2 & P3).
      exists (map EvLoadFile (fst t) ++
              [EvPlayerLoadShader (bid (player app)) passes]).
      split; [simpl; rewrite <- app_assoc; reflexivity|].
      split; [exact P1|]. cbv zeta. rewrite P2, P3. repeat split.
  - destruct (Hdelta (EvConsoleError (LogError e3)) eq_refl)
      as (P1 & P2 & _).
    exists (map EvLoadFile (fst t) ++ [EvConsoleError (LogError e3)]).
    split; [simpl; rewrite <- app_assoc; reflexivity|].
    split; [exact P1|]. cbv zeta. rewrite P2.
    destruct (Hrej e3 eq_refl) as (i & spec & Hi & He).
    split; [exists i, spec, e3; auto|]. split; reflexivity.
Qed.

(** C6, where the code departs from it: for an editor whose buffer has no
    path, [path.dirname] throws before the postfix is looked at and before
    the promise chain with its [catch] exists, so the call throws instead of
    returning a promise; nothing is logged and no state changes. *)
Theorem untitled_editor_throws
    (text : string) (isSound : bool) (app : App Cfg) :
  loadShaderOfEditor E (Some (mkEditor None text)) isSound app =
  (Thrown (TypeError "Path must be a string. Received undefined"), app).
Proof. reflexivity. Qed.

(** For an absent editor and for an editor on a file with a path the call
    does return a promise, and the promise resolves: without an editor
    nothing happens at all, and for an unrecognised postfix the one message
    is logged and nothing else changes. *)
Lemma loadShaderOfEditor_resolves (isSound : bool) (app : App Cfg) :
  loadShaderOfEditor E None isSound app = (Resolved, app) /\
  (forall ed filepath,
     getPath ed = Some filepath ->
     fst (loadShaderOfEditor E (Some ed) isSound app) = Resolved) /\
  (forall ed filepath,
     getPath ed = Some filepath ->
     matchPostfix filepath = None ->
     loadShaderOfEditor E (Some ed) isSound app =
     (Resolved,
      set_trace
        (trace app ++ [EvConsoleError (LogString notGlslMessage)]) app)).
Proof.
  split; [reflexivity|]. split.
  - intros ed filepath Hp.
    destruct (matchPostfix filepath) as [postfix|] eqn:Hm.
    + use_steps H ed isSound app filepath postfix Hp Hm. rewrite H.
      reflexivity.
    + unfold loadShaderOfEditor. rewrite Hp. simpl. rewrite Hm. reflexivity.
  - intros ed filepath Hp Hm.
    unfold loadShaderOfEditor. rewrite Hp. simpl. rewrite Hm. reflexivity.
Qed.

(** C9, as the code has it: a sound build that succeeds stores and dispatches
    one and the same text, the outcome of the preprocessing step; that is the
    editor text when the sound snapshot does not request preprocessing, and
    the preprocessor's output for the editor text when it does. *)
Theorem sound_build_stores_preprocessed_text
    (ed : Editor) (app : App Cfg) (filepath postfix shader : string)
    (passes : list Pass) :
  getPath ed = Some filepath ->
  matchPostfix filepath = Some postfix ->
  let rc := snd (stepSnapshot E filepath (getText ed) true (config app)) in
  stepPreprocess E rc filepath (getText ed) = Ok shader ->
  snd (stepAssemble E (glslangValidatorPath app) rc shader postfix
         (dirname E filepath)) = Ok passes ->
  let app' := snd (loadShaderOfEditor E (Some ed) true app) in
  lastSoundShader app' = shader /\
  (exists tr,
     trace app' =
       tr ++ [EvPlayerLoadSoundShader (bid (player app)) shader]) /\
  (rc_glslify rc = false -> shader = getText ed) /\
  (rc_glslify rc = true ->
   glslify E (getText ed) (dirname E filepath) = Ok shader).
Proof.
  intros Hp Hm rc0 H1 H3 app'. subst rc0 app'.
  use_steps H ed true app filepath postfix Hp Hm.
  rewrite H, H1. cbn [stepValidate]. rewrite H3. clear H.
  split; [reflexivity|]. split.
  - eexists. simpl. reflexivity.
  - unfold stepPreprocess in H1. split; intros Hg; rewrite Hg in H1.
    + congruence.
    + exact H1.
Qed.

End BuildPipelineFacts.

(** ** Configuration changes *)

Section ConfigChangeFacts.

Context {Cfg : Type} (E : Collab Cfg).

Ltac run_change :=
  unfold onAnyChanges, changeValidatorPath, changeServer, changeOsc,
    newBackend, newView, newOscLoader, fresh, callPlayer, emit, emitAll,
    gets, modify, mbind, mret, M_bind, M_ret, bind, ret;
  simpl.

(** The test of [changeOsc] on a live control source, in plain terms: the
    new port is falsy or is not the bound port.  This is the test of the
    source for a plain port, whose text is its decimal digits. *)
Lemma oscOutdated_spec (o : OscLoader) (newPort : Nullable Z) :
  plainPort newPort ->
  oscOutdated o newPort =
  match newPort with
  | JsVal n => (n =? 0)%Z || negb (port o =? n)%Z
  | JsNull => true
  end.
Proof.
  unfold oscOutdated, plainPort. destruct newPort as [|n]; [reflexivity|].
  intros Hn. rewrite (parseInt10_toString n Hn). simpl.
  destruct (n =? 0)%Z; reflexivity.
Qed.

Lemma kept_iff_same_port (o : OscLoader) (newPort : Nullable Z) :
  plainPort newPort ->
  negb (oscOutdated o newPort) =
  truthyNum (Some newPort) && samePort o newPort.
Proof.
  intros Hn. rewrite (oscOutdated_spec o newPort Hn).
  destruct newPort as [|n]; [reflexivity|]. simpl.
  destruct (n =? 0)%Z, (port o =? n)%Z; reflexivity.
Qed.

(** An outdated control source has been tested against a port, and one that
    is kept against a truthy port. *)
Lemma oscOutdated_falsy (o : OscLoader) (newPort : Nullable Z) :
  oscOutdated o newPort = false -> truthyNum (Some newPort) = true.
Proof.
  unfold oscOutdated. destruct (truthyNum (Some newPort)); [auto|].
  simpl. discriminate.
Qed.

Lemma changeValidatorPath_run (added : RcFragment) (a : App Cfg) :
  changeValidatorPath added a =
  (Ok tt,
   if truthyStr (added_glslangValidatorPath added)
   then set_glslangValidatorPath
          (default "" (added_glslangValidatorPath added)) a
   else a).
Proof.
  unfold changeValidatorPath.
  destruct (truthyStr (added_glslangValidatorPath added)); reflexivity.
Qed.

Lemma changeServer_none (added : RcFragment) (a : App Cfg) :
  added_server added = None -> changeServer E added a = (Ok tt, a).
Proof. intros H. unfold changeServer. rewrite H. reflexivity. Qed.

(** The second block: one stop, at most a new view, then the new backend. *)
Lemma changeServer_some (added : RcFragment) (a : App Cfg)
    (server : Nullable Z) :
  added_server added = Some server ->
  let a' := snd (changeServer E added a) in
  let rc := createRc E (config a) in
  fst (changeServer E added a) = Ok tt /\
  (exists views,
     trace a' =
       trace a ++ [EvPlayerStop (bid (player a))] ++ views ++
       [EvNewBackend (player a')] /\
     List.filter isBackendEvent views = [] /\
     List.filter isOscLifecycle views = []) /\
  (if truthyNum (Some server)
   then exists n,
          server = JsVal n /\
          ctor (player a') =
            PlayerServer n rc (isPlaying a) (projectPath E (config a))
              (lastShader a)
   else exists view,
          ctor (player a') = Player view rc (isPlaying a) (lastShader a)) /\
  isPlaying a' = isPlaying a /\
  lastShader a' = lastShader a /\
  lastSoundShader a' = lastSoundShader a /\
  osc a' = osc a /\
  config a' = config a /\
  glslangValidatorPath a' = glslangValidatorPath a /\
  (nextId a <= bid (player a') < nextId a')%nat.
Proof.
  intros Hs. unfold changeServer. rewrite Hs. run_change.
  destruct server as [|n]; simpl; [|destruct (n =? 0)%Z; simpl].
  - split; [reflexivity|]. split.
    + exists [EvNewView (nextId a)]. rewrite <- !app_assoc. auto.
    + split; [eauto|]. repeat split; lia.
  - split; [reflexivity|]. split.
    + exists [EvNewView (nextId a)]. rewrite <- !app_assoc. auto.
    + split; [eauto|]. repeat split; lia.
  - split; [reflexivity|]. split.
    + exists []. rewrite <- !app_assoc. auto.
    + split; [eauto|]. repeat split; lia.
Qed.

Lemma changeOsc_none (added : RcFragment) (a : App Cfg) :
  added_osc added = None -> changeOsc added a = (Ok tt, a).
Proof. intros H. unfold changeOsc. rewrite H. reflexivity. Qed.

(** The third block, case by case: a live control source that the test
    finds outdated is destroyed, and one is constructed when the port is
    truthy and none is live then. *)
Lemma changeOsc_some (added : RcFragment) (a : App Cfg)
    (newPort : Nullable Z) :
  added_osc added = Some newPort ->
  let a' := snd (changeOsc added a) in
  let present := truthyNum (Some newPort) in
  fst (changeOsc added a) = Ok tt /\
  (exists delta,
     trace a' = trace a ++ delta /\
     List.filter isBackendEvent delta = [] /\
     match osc a with
     | Some o =>
         if negb (oscOutdated o newPort) then
           List.filter isOscLifecycle delta = [] /\ osc a' = Some o
         else if present then
           exists o',
             List.filter isOscLifecycle delta =
               [EvOscDestroy (oid o); EvNewOsc o'] /\
             osc a' = Some o' /\ JsVal (port o') = newPort /\
             oid o' = nextId a
         else
           List.filter isOscLifecycle delta = [EvOscDestroy (oid o)] /\
           osc a' = None
     | None =>
         if present then
           exists o',
             List.filter isOscLifecycle delta = [EvNewOsc o'] /\
             osc a' = Some o' /\ JsVal (port o') = newPort /\
             oid o' = nextId a
         else List.filter isOscLifecycle delta = [] /\ osc a' = None
     end) /\
  player a' = player a /\
  isPlaying a' = isPlaying a /\
  lastShader a' = lastShader a /\
  lastSoundShader a' = lastSoundShader a /\
  config a' = config a /\
  glslangValidatorPath a' = glslangValidatorPath a /\
  (nextId a <= nextId a')%nat.
Proof.
  intros Hs. unfold changeOsc. rewrite Hs. run_change.
  destruct (osc a) as [o|] eqn:Ho; simpl.
  - destruct (oscOutdated o newPort) eqn:Hout; simpl; rewrite ?Ho; simpl.
    + destruct newPort as [|n]; simpl.
      * split; [reflexivity|]. split; [|repeat split; lia].
        eexists. split; [reflexivity|]. auto.
      * destruct (n =? 0)%Z eqn:Hn; simpl.
        -- split; [reflexivity|]. split; [|repeat split; lia].
           eexists. split; [reflexivity|]. auto.
        -- split; [reflexivity|]. split; [|repeat split; lia].
           eexists. split; [rewrite <- !app_assoc; reflexivity|].
           split; [reflexivity|]. eexists. simpl. eauto.
    + pose proof (oscOutdated_falsy o newPort Hout) as Hp.
      destruct newPort as [|n]; [discriminate Hp|]. simpl.
      split; [reflexivity|]. split; [|repeat split; lia].
      exists []. rewrite app_nil_r. auto.
  - destruct newPort as [|n]; simpl; rewrite ?Ho; simpl.
    + split; [reflexivity|]. split; [|repeat split; lia].
      exists []. rewrite app_nil_r. auto.
    + destruct (n =? 0)%Z eqn:Hn; simpl; rewrite ?Ho; simpl.
      * split; [reflexivity|]. split; [|repeat split; lia].
        exists []. rewrite app_nil_r. auto.
      * split; [reflexivity|]. split; [|repeat split; lia].
        eexists. split; [rewrite <- !app_assoc; reflexivity|].
        split; [reflexivity|]. eexists. simpl. eauto.
Qed.

Lemma onAnyChanges_seq (d : RcDiff) (a : App Cfg) :
  onAnyChanges E d a =
  (Ok tt,
   snd (changeOsc (added d)
          (snd (changeServer E (added d)
                  (snd (changeValidatorPath (added d) a)))))).
Proof.
  unfold onAnyChanges, mbind, M_bind, bind.
  rewrite changeValidatorPath_run. simpl.
  set (a1 := if truthyStr _ then _ else a).
  assert (H2 : fst (changeServer E (added d) a1) = Ok tt).
  { destruct (added_server (added d)) as [sv|] eqn:Hs.
    - apply (changeServer_some _ a1 sv Hs).
    - rewrite changeServer_none by exact Hs. reflexivity. }
  destruct (changeServer E (added d) a1) as [r a2]. simpl in *. subst r.
  assert (H3 : fst (changeOsc (added d) a2) = Ok tt).
  { destruct (added_osc (added d)) as [np|] eqn:Hs.
    - apply (changeOsc_some _ a2 np Hs).
    - rewrite changeOsc_none by exact Hs. reflexivity. }
  destruct (changeOsc (added d) a2) as [r a3]. simpl in *. subst r.
  reflexivity.
Qed.

Lemma changeServer_frame (added : RcFragment) (a : App Cfg) :
  let a' := snd (changeServer E added a) in
  (exists delta,
     trace a' = trace a ++ delta /\
     List.filter isOscLifecycle delta = []) /\
  osc a' = osc a /\ (nextId a <= nextId a')%nat.
Proof.
  destruct (added_server added) as [server|] eqn:Hs.
  - destruct (changeServer_some added a server Hs)
      as (_ & (views & Ht & _ & Hv) & _ & _ & _ & _ & Ho & _ & _ & Hn).
    simpl. split; [|split; [exact Ho | lia]].
    eexists. split; [exact Ht|].
    rewrite !List.filter_app, Hv. reflexivity.
  - rewrite changeServer_none by exact Hs. simpl.
    split; [|split; [reflexivity | lia]].
    exists []. rewrite app_nil_r. auto.
Qed.

Lemma changeOsc_frame (added : RcFragment) (a : App Cfg) :
  let a' := snd (changeOsc added a) in
  (exists delta,
     trace a' = trace a ++ delta /\
     List.filter isBackendEvent delta = []) /\
  player a' = player a /\
  isPlaying a' = isPlaying a /\
  lastShader a' = lastShader a /\
  lastSoundShader a' = lastSoundShader a.
Proof.
  destruct (added_osc added) as [newPort|] eqn:Hs.
  - destruct (changeOsc_some added a newPort Hs)
      as (_ & (delta & Ht & Hb & _) & Hp & Hi & Hl & Hls & _).
    simpl. split; [eauto|]. auto.
  - rewrite changeOsc_none by exact Hs. simpl.
    split; [|auto]. exists []. rewrite app_nil_r. auto.
Qed.

(** C8: a diff with the [server] option on its added side stops the backend
    that was live, then constructs the replacement and makes it the live one;
    these are the only calls on backends.  The replacement is a
    [PlayerServer] for a truthy value and a [Player] otherwise, and it is
    handed the current [isPlaying] and [lastShader]; the change leaves
    [isPlaying], [lastShader] and [lastSoundShader] as they were.  The
    replacement is a new object whenever the identity of the old one was
    handed out before. *)
Theorem backend_swap_stops_then_constructs
    (d : RcDiff) (app : App Cfg) (server : Nullable Z) :
  added_server (added d) = Some server ->
  let app' := snd (onAnyChanges E d app) in
  let rc := createRc E (config app) in
  (exists delta,
     trace app' = trace app ++ delta /\
     List.filter isBackendEvent delta =
       [EvPlayerStop (bid (player app)); EvNewBackend (player app')]) /\
  (if truthyNum (Some server)
   then exists n,
          server = JsVal n /\
          ctor (player app') =
            PlayerServer n rc (isPlaying app) (projectPath E (config app))
              (lastShader app)
   else exists view,
          ctor (player app') =
            Player view rc (isPlaying app) (lastShader app)) /\
  isPlaying app' = isPlaying app /\
  lastShader app' = lastShader app /\
  lastSoundShader app' = lastSoundShader app /\
  ((bid (player app) < nextId app)%nat ->
   bid (player app') <> bid (player app)).
Proof.
  intros Hs. rewrite onAnyChanges_seq. simpl.
  rewrite changeValidatorPath_run. simpl.
  set (a1 := if truthyStr _ then _ else app).
  assert (H1 : trace a1 = trace app /\ player a1 = player app /\
               isPlaying a1 = isPlaying app /\
               lastShader a1 = lastShader app /\
               lastSoundShader a1 = lastSoundShader app /\
               config a1 = config app /\ nextId a1 = nextId app).
  { subst a1. destruct (truthyStr _); repeat split. }
  destruct H1 as (Ht1 & Hp1 & Hi1 & Hl1 & Hls1 & Hc1 & Hn1).
  destruct (changeServer_some (added d) a1 server Hs)
    as (_ & (views & Ht2 & Hvb & _) & Hctor & Hi2 & Hl2 & Hls2 & _ & _ &
        _ & Hfresh).
  set (a2 := snd (changeServer E (added d) a1)) in *.
  destruct (changeOsc_frame (added d) a2)
    as ((delta & Ht3 & Hb3) & Hp3 & Hi3 & Hl3 & Hls3).
  set (a3 := snd (changeOsc (added d) a2)) in *.
  rewrite Hp3. split; [|split; [|repeat split; try congruence]].
  - eexists. split.
    + rewrite Ht3, Ht2, Ht1, <- app_assoc. reflexivity.
    + rewrite !List.filter_app, Hvb, Hb3, Hp1. reflexivity.
  - rewrite Hc1, Hi1, Hl1 in Hctor. exact Hctor.
  - intros Hold Heq. rewrite Hn1 in Hfresh. lia.
Qed.

(** *** Control sources along a run *)

Lemma liveOsc_app (tr delta : list Event) :
  liveOsc (tr ++ delta) = fold_left oscStep delta (liveOsc tr).
Proof. unfold liveOsc. apply fold_left_app. Qed.

Lemma oscStep_lifecycle (delta : list Event) (live : list nat) :
  fold_left oscStep delta live =
  fold_left oscStep (List.filter isOscLifecycle delta) live.
Proof.
  revert live. induction delta as [|e delta IH]; intros live; [reflexivity|].
  destruct e; simpl; apply IH.
Qed.

Lemma oscUntouched_refl (a : App Cfg) : oscUntouched a a.
Proof. split; [reflexivity|]. exists []. rewrite app_nil_r. auto. Qed.

Lemma oscUntouched_trans (a b c : App Cfg) :
  oscUntouched a b -> oscUntouched b c -> oscUntouched a c.
Proof.
  intros [Ho1 (d1 & Ht1 & Hf1)] [Ho2 (d2 & Ht2 & Hf2)].
  split; [congruence|]. exists (d1 ++ d2).
  rewrite Ht2, Ht1, <- app_assoc, List.filter_app, Hf1, Hf2. auto.
Qed.

Lemma oscUntouched_emit (a : App Cfg) (es : list Event) :
  List.filter isOscLifecycle es = [] ->
  oscUntouched a (set_trace (trace a ++ es) a).
Proof. intros H. split; [reflexivity|]. exists es. auto. Qed.

Lemma oscUntouched_inv (a a' : App Cfg) :
  oscInv a -> oscUntouched a a' -> oscInv a'.
Proof.
  unfold oscInv. intros Hi [Ho (delta & Ht & Hf)].
  rewrite Ht, liveOsc_app, oscStep_lifecycle, Hf, Ho. exact Hi.
Qed.

Lemma removeOne_head (i : nat) (l : list nat) : removeOne i (i :: l) = l.
Proof. simpl. rewrite Nat.eqb_refl. reflexivity. Qed.

(** What [onAnyChanges] does to the control source, for a diff with the [osc]
    option on its added side. *)
Lemma onAnyChanges_osc (d : RcDiff) (app : App Cfg) (newPort : Nullable Z) :
  added_osc (added d) = Some newPort ->
  let app' := snd (onAnyChanges E d app) in
  let present := truthyNum (Some newPort) in
  exists delta,
    trace app' = trace app ++ delta /\
    match osc app with
    | Some o =>
        if negb (oscOutdated o newPort) then
          List.filter isOscLifecycle delta = [] /\ osc app' = Some o
        else if present then
          exists o',
            List.filter isOscLifecycle delta =
              [EvOscDestroy (oid o); EvNewOsc o'] /\
            osc app' = Some o' /\ JsVal (port o') = newPort
        else
          List.filter isOscLifecycle delta = [EvOscDestroy (oid o)] /\
          osc app' = None
    | None =>
        if present then
          exists o',
            List.filter isOscLifecycle delta = [EvNewOsc o'] /\
            osc app' = Some o' /\ JsVal (port o') = newPort
        else List.filter isOscLifecycle delta = [] /\ osc app' = None
    end.
Proof.
  intros Hs app' present. subst app' present.
  rewrite onAnyChanges_seq. cbn [snd].
  rewrite changeValidatorPath_run. cbn [snd].
  set (a1 := if truthyStr _ then _ else app).
  assert (H1 : trace a1 = trace app /\ osc a1 = osc app).
  { subst a1. destruct (truthyStr _); split; reflexivity. }
  destruct H1 as [Ht1 Ho1].
  destruct (changeServer_frame (added d) a1) as ((d2 & Ht2 & Hf2) & Ho2 & _).
  set (a2 := snd (changeServer E (added d) a1)) in *.
  destruct (changeOsc_some (added d) a2 newPort Hs)
    as (_ & (d3 & Ht3 & _ & Hcase) & _).
  set (a3 := snd (changeOsc (added d) a2)) in *.
  exists (d2 ++ d3). split.
  - rewrite Ht3, Ht2, Ht1, <- app_assoc. reflexivity.
  - rewrite List.filter_app, Hf2, app_nil_l.
    rewrite Ho2, Ho1 in Hcase.
    destruct (osc app) as [o|].
    + destruct (negb (oscOutdated o newPort)); [exact Hcase|].
      destruct (truthyNum (Some newPort)); [|exact Hcase].
      destruct Hcase as (o' & ? & ? & ? & _). eauto.
    + destruct (truthyNum (Some newPort)); [|exact Hcase].
      destruct Hcase as (o' & ? & ? & ? & _). eauto.
Qed.

Lemma onAnyChanges_inv (d : RcDiff) (app : App Cfg) :
  oscInv app -> oscInv (snd (onAnyChanges E d app)).
Proof.
  intros Hinv. destruct (added_osc (added d)) as [newPort|] eqn:Hs.
  - destruct (onAnyChanges_osc d app newPort Hs) as (delta & Ht & Hcase).
    unfold oscInv in *. rewrite Ht, liveOsc_app, oscStep_lifecycle, Hinv.
    destruct (osc app) as [o|].
    + destruct (negb (oscOutdated o newPort)).
      { destruct Hcase as [-> ->]. reflexivity. }
      destruct (truthyNum (Some newPort)).
      * destruct Hcase as (o' & -> & -> & _). simpl.
        rewrite Nat.eqb_refl. reflexivity.
      * destruct Hcase as [-> ->]. simpl. rewrite Nat.eqb_refl. reflexivity.
    + destruct (truthyNum (Some newPort)).
      * destruct Hcase as (o' & -> & -> & _). reflexivity.
      * destruct Hcase as [-> ->]. reflexivity.
  - apply (oscUntouched_inv app); [exact Hinv|].
    rewrite onAnyChanges_seq. simpl.
    rewrite changeValidatorPath_run. simpl.
    set (a1 := if truthyStr _ then _ else app).
    assert (H1 : oscUntouched app a1).
    { subst a1.
      destruct (truthyStr _);
        (split; [reflexivity|]; exists []; simpl; rewrite app_nil_r; auto). }
    rewrite changeOsc_none by exact Hs. simpl.
    apply (oscUntouched_trans _ a1); [exact H1|].
    destruct (changeServer_frame (added d) a1) as (Hd & Ho & _).
    split; assumption.
Qed.

Lemma onAnyChanges_ok (d : RcDiff) (a : App Cfg) :
  fst (onAnyChanges E d a) = Ok tt.
Proof. rewrite onAnyChanges_seq. reflexivity. Qed.

Lemma filter_lifecycle_loads (l : list LoadCall) :
  List.filter isOscLifecycle (map EvLoadFile l) = [].
Proof. induction l; simpl; auto. Qed.

Ltac untouched :=
  split; [reflexivity|]; eexists;
  split; [simpl; rewrite <- ?app_assoc; reflexivity|];
  rewrite ?List.filter_app, ?filter_lifecycle_loads; reflexivity.

Lemma loadShaderOfEditor_untouched (ed : option Editor) (isSound : bool)
    (a : App Cfg) :
  oscUntouched a (snd (loadShaderOfEditor E ed isSound a)).
Proof.
  destruct ed as [ed|]; [|apply oscUntouched_refl].
  destruct (getPath ed) as [filepath|] eqn:Hp.
  2: { unfold loadShaderOfEditor. rewrite Hp. apply oscUntouched_refl. }
  destruct (matchPostfix filepath) as [postfix|] eqn:Hm.
  2: { unfold loadShaderOfEditor. rewrite Hp. simpl. rewrite Hm.
       unfold promise, console_error, emit, modify. simpl. untouched. }
  pose proof (loadShaderOfEditor_steps E ed isSound a filepath postfix Hp Hm)
    as H. cbv zeta in H.
  destruct (stepSnapshot E filepath (getText ed) isSound (config a))
    as [cfg' rc].
  rewrite H. cbn [snd].
  destruct (stepPreprocess E rc filepath (getText ed)); [|untouched].
  destruct (stepValidate E isSound _ _ postfix); [|untouched].
  destruct (snd (stepAssemble E _ rc _ postfix _)); [|untouched].
  destruct isSound; untouched.
Qed.

Lemma callPlayer_untouched (ev : nat -> Event) (a : App Cfg) :
  isOscLifecycle (ev (bid (player a))) = false ->
  oscUntouched a (snd (callPlayer ev a)).
Proof.
  intros H. unfold callPlayer, emit, gets, modify, mbind, M_bind, bind.
  simpl. split; [reflexivity|]. eexists. split; [reflexivity|].
  simpl. rewrite H. reflexivity.
Qed.

Lemma play_untouched (a : App Cfg) : oscUntouched a (snd (play E a)).
Proof.
  unfold play, callPlayer, emit, gets, modify, mbind, M_bind, bind. simpl.
  untouched.
Qed.

Lemma stop_untouched (a : App Cfg) : oscUntouched a (snd (stop E a)).
Proof.
  unfold stop, stopWatching, dispose, callPlayer, emit, gets, modify, mbind,
    M_bind, bind. simpl.
  destruct (activeEditorDisposer a) eqn:Ha, (editorDisposer a) eqn:He;
    simpl; rewrite ?He; simpl; untouched.
Qed.

Lemma loadLastShader_untouched (a : App Cfg) :
  oscUntouched a (snd (loadLastShader a)).
Proof.
  unfold loadLastShader, callPlayer, emit, gets, modify, mbind, M_bind, bind.
  simpl. untouched.
Qed.

Lemma loadLastSoundShader_untouched (a : App Cfg) :
  oscUntouched a (snd (loadLastSoundShader a)).
Proof.
  unfold loadLastSoundShader, callPlayer, emit, gets, modify, mbind, mret,
    M_bind, M_ret, bind, ret. simpl.
  destruct (lastSoundShader a =? ""); simpl; [apply oscUntouched_refl|].
  untouched.
Qed.

(** Every call keeps the live control sources in step with the [osc]
    field. *)
Lemma perform_inv (c : Call) (a : App Cfg) :
  oscInv a -> oscInv (perform E c a).
Proof.
  intros Hinv. destruct c as [d|d|m| | | | |ed|ed| ]; unfold perform.
  - unfold onChange, mbind, M_bind, bind.
    pose proof (onAnyChanges_inv d a Hinv) as H1.
    pose proof (onAnyChanges_ok d a) as Hok.
    destruct (onAnyChanges E d a) as [r a1]. simpl in *. subst r.
    apply (oscUntouched_inv a1); [exact H1|].
    unfold loadLastShader, callPlayer, emit, gets, modify, mbind, M_bind,
      bind. simpl. untouched.
  - unfold onChangeSound, mbind, M_bind, bind.
    pose proof (onAnyChanges_inv d a Hinv) as H1.
    pose proof (onAnyChanges_ok d a) as Hok.
    destruct (onAnyChanges E d a) as [r a1]. simpl in *. subst r.
    apply (oscUntouched_inv a1); [exact H1|].
    unfold callPlayer, emit, gets, modify, mbind, M_bind, bind. simpl.
    untouched.
  - apply (oscUntouched_inv a); [exact Hinv|].
    unfold onOsc. apply callPlayer_untouched. reflexivity.
  - apply (oscUntouched_inv a); [exact Hinv|].
    apply loadLastShader_untouched.
  - apply (oscUntouched_inv a); [exact Hinv|].
    unfold toggle, mbind, M_bind, bind, gets. cbn [fst snd].
    destruct (isPlaying a); [apply stop_untouched | apply play_untouched].
  - apply (oscUntouched_inv a); [exact Hinv | apply play_untouched].
  - apply (oscUntouched_inv a); [exact Hinv | apply stop_untouched].
  - apply (oscUntouched_inv a); [exact Hinv|].
    apply loadShaderOfEditor_untouched.
  - apply (oscUntouched_inv a); [exact Hinv|].
    apply loadShaderOfEditor_untouched.
  - apply (oscUntouched_inv a); [exact Hinv|].
    apply loadLastSoundShader_untouched.
Qed.

Lemma run_inv (cs : list Call) (a : App Cfg) :
  oscInv a -> oscInv (run E cs a).
Proof.
  revert a. induction cs as [|c cs IH]; intros a Hinv; [exact Hinv|].
  simpl. apply IH, perform_inv, Hinv.
Qed.

Lemma constructor_inv (cfg : Cfg) : oscInv (constructor E cfg).
Proof. reflexivity. Qed.

(** C7: for a diff with the [osc] option on its added side, where a port is
    present when it is truthy to the code (a number other than 0) and is a
    plain integer, below 10^21 in absolute value, so that its text has no
    exponent: a live control source bound to the new port is kept, with no
    destruction and no construction; a live one is destroyed when the new
    port is absent or another number, and this comes before the construction
    of its replacement; one is constructed exactly when the new port is
    present and none is live any more; with none live and no port nothing
    happens.  Along every run of the object, whatever the ports, at most one
    control source is live. *)
Theorem control_source_follows_port :
  (forall (d : RcDiff) (app : App Cfg) (newPort : Nullable Z),
     added_osc (added d) = Some newPort ->
     plainPort newPort ->
     let app' := snd (onAnyChanges E d app) in
     let present := truthyNum (Some newPort) in
     exists delta,
       trace app' = trace app ++ delta /\
       match osc app with
       | Some o =>
           if present && samePort o newPort then
             List.filter isOscLifecycle delta = [] /\ osc app' = Some o
           else if present then
             exists o',
               List.filter isOscLifecycle delta =
                 [EvOscDestroy (oid o); EvNewOsc o'] /\
               osc app' = Some o' /\ JsVal (port o') = newPort
           else
             List.filter isOscLifecycle delta = [EvOscDestroy (oid o)] /\
             osc app' = None
       | None =>
           if present then
             exists o',
               List.filter isOscLifecycle delta = [EvNewOsc o'] /\
               osc app' = Some o' /\ JsVal (port o') = newPort
           else List.filter isOscLifecycle delta = [] /\ osc app' = None
       end) /\
  (forall (cfg : Cfg) (cs : list Call),
     let app := run E cs (constructor E cfg) in
     (length (liveOsc (trace app)) <= 1)%nat /\
     liveOsc (trace app) = match osc app with
                           | Some o => [oid o]
                           | None => []
                           end).
Proof.
  split.
  - intros d app newPort Hs Hplain app' present.
    destruct (onAnyChanges_osc d app newPort Hs) as (delta & Ht & Hcase).
    exists delta. split; [exact Ht|].
    destruct (osc app) as [o|]; [|exact Hcase].
    subst present. rewrite <- (kept_iff_same_port o newPort Hplain).
    exact Hcase.
  - intros cfg cs app.
    assert (Hinv : oscInv app) by apply run_inv, constructor_inv.
    split; [|exact Hinv]. rewrite Hinv. destruct (osc app); simpl; lia.
Qed.

End ConfigChangeFacts.

(** * Examples on the concrete project *)

Section Examples.

Import Scenario.

(** Two specifications, every file loads: the assembler resolves. *)
Lemma createPasses_count_and_order_witness :
  exists passes,
    snd (createPasses (fun _ f => Ok f) resolveIn glslang
           [vsOnly "a.vert"; fsOnly "b.frag"] text ".frag" "/proj")
    = Ok passes.
Proof.
  apply (proj2 (createPasses_count_and_order (fun _ f => Ok f) resolveIn
                  glslang text ".frag" "/proj"
                  [vsOnly "a.vert"; fsOnly "b.frag"])).
  intros f. exists f. reflexivity.
Defined.

(** The empty list of specifications and the file [shader.frag]: one pass,
    with the edited text as [fs] and no [vs]. *)
Lemma unset_sides_filled_by_postfix_witness :
  exists p,
    [mkPass None None None None None (Some text)] !! 0%nat = Some p /\
    fs p = Some text /\ vs p = None.
Proof.
  destruct (unset_sides_filled_by_postfix readFile resolveIn glslang text
              ".frag" "/proj" []
              [mkPass None None None None None (Some text)] 0 emptyRcPass
              eq_refl eq_refl eq_refl eq_refl) as (p & Hp & _ & Hfrag).
  exists p. split; [exact Hp|]. apply Hfrag. right. left. reflexivity.
Defined.

(** The specification [{vs: "a.vert"}] as only pass and the file
    [shader.frag]: the pass has the loaded [vs] and the edited text as
    [fs]. *)
Lemma one_side_set_other_from_editor_witness :
  exists p,
    [mkPass None None None None (Some "VS_TEXT") (Some text)] !! 0%nat
      = Some p /\
    vs p = Some "VS_TEXT" /\ fs p = Some text.
Proof.
  destruct (one_side_set_other_from_editor readFile resolveIn glslang text
              ".frag" "/proj" [vsOnly "a.vert"]
              [mkPass None None None None (Some "VS_TEXT") (Some text)]
              0 (vsOnly "a.vert") eq_refl eq_refl) as (p & Hp & Hvs & _).
  destruct (Hvs eq_refl eq_refl) as (src & Hload & Hv & Hlast & _).
  change (Ok "VS_TEXT" = Ok src) in Hload. injection Hload as Hsrc.
  exists p. split; [exact Hp|]. split.
  - rewrite Hv, Hsrc. reflexivity.
  - apply Hlast; [reflexivity | left; reflexivity].
Defined.

(** The specification [{vs: "a.vert", fs: "b.frag"}] as only pass and the
    file [shader.vert]: the edited text is the [vs], the loaded file the
    [fs]. *)
Lemma both_sides_set_asymmetric_witness :
  exists p,
    [mkPass None None None None (Some text) (Some "FS_TEXT")] !! 0%nat
      = Some p /\
    vs p = Some text /\ fs p = Some "FS_TEXT".
Proof.
  destruct (both_sides_set_asymmetric readFile resolveIn glslang text
              ".vert" "/proj" [vsAndFs "a.vert" "b.frag"]
              [mkPass None None None None (Some text) (Some "FS_TEXT")]
              (vsAndFs "a.vert" "b.frag") eq_refl eq_refl eq_refl eq_refl)
    as (p & vsrc & fsrc & Hp & _ & Hlf & Hvert & _).
  change (Ok "FS_TEXT" = Ok fsrc) in Hlf. injection Hlf as Hsrc.
  exists p. split; [exact Hp|].
  destruct (Hvert (or_introl eq_refl)) as [Hv Hf].
  split; [exact Hv|]. rewrite Hf, Hsrc. reflexivity.
Defined.

(** A shader that does not validate: the visual shader state stays. *)
Lemma failed_build_keeps_shader_state_witness :
  let app := start (rcOf false []) (rcOf false []) in
  let app' :=
    snd (loadShaderOfEditor collab (Some (fragEditor "void main(){")) false
           app) in
  lastShader app' = lastShader app /\
  lastSoundShader app' = lastSoundShader app.
Proof.
  apply (proj1 (failed_build_keeps_shader_state collab
                  (fragEditor "void main(){") false
                  (start (rcOf false []) (rcOf false [])))).
  left.
  apply (ValidationError collab _ _ _ "/proj/shader.frag" ".frag"
           "void main(){" (Failure "ERROR: syntax error"));
    reflexivity.
Defined.

(** C2, refuted as stated: a sound build whose snapshot lists a pass with an
    explicit vertex source loads that file, and with a file that does not
    load the sound build ends without storing or dispatching the sound
    shader. *)
Lemma sound_build_runs_pass_assembly :
  let ed := fragEditor text in
  let app := start (rcOf false []) (rcOf false [vsOnly "a.vert"]) in
  let app' := snd (loadSoundShader collab (Some ed) app) in
  let bad := start (rcOf false []) (rcOf false [vsOnly "missing.vert"]) in
  let bad' := snd (loadSoundShader collab (Some ed) bad) in
  trace app' =
    trace app ++
    [EvLoadFile (mkLoadCall glslang "/proj/a.vert");
     EvPlayerLoadSoundShader 1 text] /\
  trace bad' =
    trace bad ++
    [EvLoadFile (mkLoadCall glslang "/proj/missing.vert");
     EvConsoleError (LogError (Failure "ENOENT"))] /\
  lastSoundShader bad' = lastSoundShader bad.
Proof. repeat split. Qed.

Lemma pass_assembly_runs_in_both_modes_witness :
  let app := start (rcOf false []) (rcOf false [vsOnly "a.vert"]) in
  let app' := snd (loadShaderOfEditor collab (Some (fragEditor text)) true
                     app) in
  exists delta,
    trace app' = trace app ++ delta /\
    Permutation (List.filter isFileLoad delta)
      [EvLoadFile (mkLoadCall glslang "/proj/a.vert")] /\
    List.filter (fun e => negb (isFileLoad e)) delta =
      [EvPlayerLoadSoundShader 1 text] /\
    last delta = Some (EvPlayerLoadSoundShader 1 text) /\
    lastShader app' = lastShader app.
Proof.
  destruct (pass_assembly_runs_in_both_modes collab (fragEditor text) true
              (start (rcOf false []) (rcOf false [vsOnly "a.vert"]))
              "/proj/shader.frag" ".frag" text eq_refl eq_refl eq_refl
              eq_refl) as (delta & Ht & Hperm & Hrest).
  cbv zeta in Hrest.
  change (List.filter (fun e => negb (isFileLoad e)) delta =
            [EvPlayerLoadSoundShader 1 text] /\
          last delta =
            head (List.filter (fun e => negb (isFileLoad e)) delta) /\
          lastShader
            (snd (loadShaderOfEditor collab (Some (fragEditor text)) true
                    (start (rcOf false []) (rcOf false [vsOnly "a.vert"]))))
          = lastShader
              (start (rcOf false []) (rcOf false [vsOnly "a.vert"])))
    in Hrest.
  destruct Hrest as (Ho & Hl & Hs).
  exists delta. split; [exact Ht|]. split; [exact Hperm|].
  split; [exact Ho|]. split; [rewrite Hl, Ho; reflexivity | exact Hs].
Defined.

(** C9, refuted as stated: with preprocessing requested by the sound
    snapshot, the text that is stored and dispatched is the preprocessor's
    output, not the text of the editor. *)
Lemma sound_build_stores_bundled_text :
  let ed := fragEditor text in
  let app := start (rcOf false []) (rcOf true []) in
  let app' := snd (loadSoundShader collab (Some ed) app) in
  lastSoundShader app' = (banner ++ text)%string /\
  lastSoundShader app' <> getText ed /\
  trace app' =
    trace app ++ [EvPlayerLoadSoundShader 1 (banner ++ text)%string].
Proof. repeat split. discriminate. Qed.

Lemma sound_build_stores_preprocessed_text_witness :
  let app := start (rcOf false []) (rcOf true []) in
  let app' := snd (loadShaderOfEditor collab (Some (fragEditor text)) true
                     app) in
  lastSoundShader app' = (banner ++ text)%string /\
  exists tr,
    trace app' = tr ++ [EvPlayerLoadSoundShader 1 (banner ++ text)%string].
Proof.
  destruct (sound_build_stores_preprocessed_text collab (fragEditor text)
              (start (rcOf false []) (rcOf true []))
              "/proj/shader.frag" ".frag" (banner ++ text)%string
              [mkPass None None None None None (Some (banner ++ text)%string)]
              eq_refl eq_refl eq_refl eq_refl) as (Hl & Ht & _).
  split; [exact Hl | exact Ht].
Defined.

(** The control source is set to port 7000 and then to port 7000 again: the
    second change neither destroys nor constructs one. *)
Lemma control_source_follows_port_witness :
  let app := run collab [CallChange (oscDiff (JsVal 7000%Z))]
               (start (rcOf false []) (rcOf false [])) in
  let app' := snd (onAnyChanges collab (oscDiff (JsVal 7000%Z)) app) in
  exists delta,
    trace app' = trace app ++ delta /\
    List.filter isOscLifecycle delta = [] /\
    osc app' = osc app.
Proof.
  destruct (proj1 (control_source_follows_port collab)
              (oscDiff (JsVal 7000%Z))
              (run collab [CallChange (oscDiff (JsVal 7000%Z))]
                 (start (rcOf false []) (rcOf false [])))
              (JsVal 7000%Z) eq_refl eq_refl) as (delta & Ht & Hf & Ho).
  exists delta. split; [exact Ht|]. split; [exact Hf | exact Ho].
Defined.

(** The [server] option is set to 3000 on the freshly constructed object:
    the local backend is stopped, then the remote one is constructed. *)
Lemma backend_swap_stops_then_constructs_witness :
  let app := start (rcOf false []) (rcOf false []) in
  let app' := snd (onAnyChanges collab (serverDiff (JsVal 3000%Z)) app) in
  (exists delta,
     trace app' = trace app ++ delta /\
     List.filter isBackendEvent delta =
       [EvPlayerStop 1; EvNewBackend (player app')]) /\
  isPlaying app' = false.
Proof.
  destruct (backend_swap_stops_then_constructs collab
              (serverDiff (JsVal 3000%Z))
              (start (rcOf false []) (rcOf false []))
              (JsVal 3000%Z) eq_refl) as (Hd & _ & Hi & _).
  split; [exact Hd | exact Hi].
Defined.

End Examples.

(** * Further properties *)

(** ** The pass assembler, pass by pass *)

Section PassAssemblerMore.

Variable loadFile : string -> string -> result string.
Variable path_resolve : string -> string -> string.
Variables gvp shader postfix dir : string.

Ltac cases_of_task :=
  unfold assemblePass, task_bind, loadFileTask, task_ret; simpl;
  repeat match goal with
    | |- context [loadFile ?a ?f] =>
        destruct (loadFile a f) eqn:?; simpl
    | |- context [if ?b then _ else _] => destruct b eqn:?; simpl
    end.

(** The output at an index comes from the specification at that index. *)
Lemma createPasses_lookup_inv (rcPasses : list RcPass) (passes : list Pass)
    (i : nat) (p : Pass) :
  snd (createPasses loadFile path_resolve gvp rcPasses shader postfix dir) =
    Ok passes ->
  passes !! i = Some p ->
  exists spec,
    coercePasses rcPasses !! i = Some spec /\
    snd (assemblePass loadFile path_resolve gvp shader postfix dir
           (lastPassOf rcPasses) i spec) = Ok p.
Proof.
  rewrite createPasses_settle, settleAll_Ok. intros Heq Hp.
  apply (f_equal (fun l => l !! i)) in Heq.
  change (map Ok passes) with (Ok <$> passes) in Heq.
  rewrite list_lookup_imap, list_lookup_fmap, Hp in Heq.
  destruct (coercePasses rcPasses !! i) as [spec|]; simpl in Heq;
    [|discriminate].
  exists spec. split; [reflexivity|].
  injection Heq as Heq. exact Heq.
Qed.

Lemma assemblePass_sides lastPass i spec p :
  snd (assemblePass loadFile path_resolve gvp shader postfix dir lastPass i
         spec) = Ok p ->
  (vs p <> None \/ fs p <> None) /\
  TARGET p = rc_TARGET spec /\ FLOAT p = rc_FLOAT spec /\
  WIDTH p = rc_WIDTH spec /\ HEIGHT p = rc_HEIGHT spec.
Proof.
  cases_of_task; intros H; try discriminate H; injection H as <-; simpl;
    (split; [first [left; discriminate | right; discriminate]|]); auto.
Qed.

(** X1: every pass of an assembly that resolves has a vertex source or a
    fragment source: no specification is assembled into a pass with both
    sides unset. *)
Theorem assembled_pass_has_a_side
    (rcPasses : list RcPass) (passes : list Pass) (p : Pass) :
  snd (createPasses loadFile path_resolve gvp rcPasses shader postfix dir) =
    Ok passes ->
  In p passes ->
  vs p <> None \/ fs p <> None.
Proof.
  intros Hc Hin. apply list_elem_of_In, list_elem_of_lookup in Hin.
  destruct Hin as [i Hi].
  destruct (createPasses_lookup_inv _ _ _ _ Hc Hi) as (spec & _ & Ht).
  apply (assemblePass_sides _ _ _ _ Ht).
Qed.

(** X2: the target, the float flag, the width and the height of every
    assembled pass are those of the specification at the same index,
    whichever sources the pass gets. *)
Theorem assembled_pass_carries_attributes
    (rcPasses : list RcPass) (passes : list Pass) (i : nat) (spec : RcPass)
    (p : Pass) :
  snd (createPasses loadFile path_resolve gvp rcPasses shader postfix dir) =
    Ok passes ->
  rcPasses !! i = Some spec ->
  passes !! i = Some p ->
  TARGET p = rc_TARGET spec /\ FLOAT p = rc_FLOAT spec /\
  WIDTH p = rc_WIDTH spec /\ HEIGHT p = rc_HEIGHT spec.
Proof.
  intros Hc Hs Hp.
  destruct (createPasses_lookup_inv _ _ _ _ Hc Hp) as (spec' & Hs' & Ht).
  rewrite (lookup_coercePasses _ _ _ Hs) in Hs'. injection Hs' as <-.
  apply (assemblePass_sides _ _ _ _ Ht).
Qed.

Abbreviation namedSource := (namedSourceOf path_resolve gvp dir).

Lemma truthyStr_Some (v : option string) :
  truthyStr v = true -> exists ref, v = Some ref /\ ref <> "".
Proof.
  destruct v as [ref|]; simpl; [|discriminate].
  intros H. exists ref. split; [reflexivity|].
  intros ->. discriminate H.
Qed.

Lemma assemblePass_loads lastPass i spec :
  Forall (namedSource [spec])
    (fst (assemblePass loadFile path_resolve gvp shader postfix dir lastPass
            i spec)) /\
  (length (fst (assemblePass loadFile path_resolve gvp shader postfix dir
                  lastPass i spec)) <= 2)%nat.
Proof.
  assert (Hv : truthyStr (rc_vs spec) = true ->
               namedSource [spec]
                 (mkLoadCall gvp
                    (path_resolve dir (default "" (rc_vs spec))))).
  { intros H. destruct (truthyStr_Some _ H) as (ref & Hr & Hne).
    split; [reflexivity|]. exists spec, ref. rewrite Hr. simpl. auto. }
  assert (Hf : truthyStr (rc_fs spec) = true ->
               namedSource [spec]
                 (mkLoadCall gvp
                    (path_resolve dir (default "" (rc_fs spec))))).
  { intros H. destruct (truthyStr_Some _ H) as (ref & Hr & Hne).
    split; [reflexivity|]. exists spec, ref. rewrite Hr. simpl. auto. }
  unfold assemblePass, task_bind, loadFileTask, task_ret.
  destruct (truthyStr (rc_fs spec)) eqn:Hfs,
           (truthyStr (rc_vs spec)) eqn:Hvs; simpl;
    repeat match goal with
      | |- context [loadFile ?a ?f] =>
          destruct (loadFile a f) eqn:?; simpl
      | |- context [if ?b then _ else _] => destruct b eqn:?; simpl
      end;
    (split; [|lia]);
    repeat first
      [ apply List.Forall_nil
      | apply List.Forall_cons;
        [first [apply Hv; reflexivity | apply Hf; reflexivity]|] ].
Qed.

Lemma namedSource_mono (l1 l2 : list RcPass) (c : LoadCall) :
  (forall spec, In spec l1 -> In spec l2) ->
  namedSource l1 c -> namedSource l2 c.
Proof.
  intros Hsub [Hg (spec & ref & Hin & H)].
  split; [exact Hg|]. exists spec, ref. auto.
Qed.

Lemma imap_loads (specs all : list RcPass) (lastPass k : nat) :
  (forall spec, In spec specs -> In spec all) ->
  let loads :=
    concat (map fst
      (imap (fun i => assemblePass loadFile path_resolve gvp shader postfix
                        dir lastPass (k + i)) specs)) in
  Forall (namedSource all) loads /\
  (length loads <= 2 * length specs)%nat.
Proof.
  revert k. induction specs as [|spec specs IH]; intros k Hsub; simpl.
  - split; [constructor | lia].
  - destruct (assemblePass_loads lastPass (k + 0) spec) as [H1 H2].
    destruct (IH (S k)) as [H3 H4].
    { intros s0 Hs0. apply Hsub. right. exact Hs0. }
    split.
    + apply Forall_app. split.
      * eapply Forall_impl; [exact H1|]. intros c Hc.
        eapply namedSource_mono; [|exact Hc].
        intros s0 [<-|[]]. apply Hsub. left. reflexivity.
      * erewrite imap_ext; [exact H3|].
        intros j s0 _. simpl. f_equal. apply Nat.add_succ_r.
    + rewrite length_app.
      erewrite (imap_ext _ (fun i => assemblePass loadFile path_resolve gvp
                             shader postfix dir lastPass (S k + i))).
      * eapply Nat.le_trans;
          [apply Nat.add_le_mono; [exact H2 | exact H4] | simpl; lia].
      * intros j s0 _. simpl. f_equal. apply Nat.add_succ_r.
Qed.

(** X3: the assembler loads nothing but the sources that the listed
    specifications name: every load is made with the validator path it was
    given, for the vertex or fragment reference of a listed specification,
    resolved against the directory of the edited file; there are at most two
    loads for each specification, and none for an empty list. *)
Theorem createPasses_loads_named_sources (rcPasses : list RcPass) :
  let loads :=
    fst (createPasses loadFile path_resolve gvp rcPasses shader postfix dir)
  in
  Forall (namedSource rcPasses) loads /\
  (length loads <= 2 * length rcPasses)%nat.
Proof.
  unfold createPasses, Promise_all. simpl.
  destruct rcPasses as [|spec specs].
  - simpl. rewrite assemblePass_neither by reflexivity. simpl.
    split; [constructor | lia].
  - rewrite coercePasses_nonempty by discriminate.
    apply (imap_loads (spec :: specs) (spec :: specs) _ 0). auto.
Qed.

Abbreviation textPass := (textPassOf shader postfix).

(** X4: when no listed specification names a source, and so for the empty
    list, the assembler loads no file and always resolves; each pass holds
    the edited text on the side that the postfix selects. *)
Theorem createPasses_without_sources (rcPasses : list RcPass) :
  (forall spec, In spec rcPasses ->
     truthyStr (rc_vs spec) = false /\ truthyStr (rc_fs spec) = false) ->
  createPasses loadFile path_resolve gvp rcPasses shader postfix dir =
  ([], Ok (map textPass (coercePasses rcPasses))).
Proof.
  intros Hnone.
  assert (Hc : forall spec, In spec (coercePasses rcPasses) ->
            truthyStr (rc_vs spec) = false /\
            truthyStr (rc_fs spec) = false).
  { destruct rcPasses as [|r l]; [|exact Hnone].
    intros spec [<-|[]]. split; reflexivity. }
  unfold createPasses, Promise_all.
  generalize (length (coercePasses rcPasses) - 1)%nat as lastPass.
  intros lastPass.
  assert (Hk : forall k,
    imap (fun i => assemblePass loadFile path_resolve gvp shader postfix dir
                     lastPass (k + i)) (coercePasses rcPasses) =
    map (fun spec => ([], Ok (textPass spec))) (coercePasses rcPasses)).
  { induction (coercePasses rcPasses) as [|spec l IH]; intros k;
      [reflexivity|].
    simpl. destruct (Hc spec (or_introl eq_refl)) as [Hv Hf].
    rewrite assemblePass_neither by assumption. f_equal.
    erewrite imap_ext; [apply (IH (fun s0 H => Hc s0 (or_intror H)) (S k))|].
    intros j s0 _. simpl. f_equal. apply Nat.add_succ_r. }
  rewrite (imap_ext _ (fun i => assemblePass loadFile path_resolve gvp shader
                                postfix dir lastPass (0 + i)) _)
    by (intros; reflexivity).
  rewrite (Hk 0%nat). clear Hk Hc.
  induction (coercePasses rcPasses) as [|spec l IH]; [reflexivity|].
  simpl. injection IH as IH1 IH2. rewrite IH1, IH2. reflexivity.
Qed.

End PassAssemblerMore.

Section PassAssemblerText.

Variable loadFile : string -> string -> result string.
Variable path_resolve : string -> string -> string.
Variables gvp postfix dir : string.

Lemma assemblePass_text_unused (lastPass i : nat) (spec : RcPass)
    (shader1 shader2 : string) :
  truthyStr (rc_vs spec) || truthyStr (rc_fs spec) = true ->
  ((i =? lastPass)%nat = true ->
   truthyStr (rc_vs spec) && isFragmentPostfix postfix = false /\
   truthyStr (rc_fs spec) && isVertexPostfix postfix = false) ->
  assemblePass loadFile path_resolve gvp shader1 postfix dir lastPass i spec =
  assemblePass loadFile path_resolve gvp shader2 postfix dir lastPass i spec.
Proof.
  intros Hside Hlast.
  unfold assemblePass, task_bind, loadFileTask, task_ret.
  destruct (truthyStr (rc_fs spec)) eqn:Hf,
           (truthyStr (rc_vs spec)) eqn:Hv; try discriminate Hside;
    destruct (i =? lastPass)%nat;
    try (destruct (Hlast eq_refl) as [H1 H2]; simpl in H1, H2;
         rewrite ?H1, ?H2);
    simpl;
    repeat match goal with
      | |- context [loadFile ?a ?f] => destruct (loadFile a f); simpl
      end;
    reflexivity.
Qed.

(** X5: when every listed specification names a source, and the last one
    does not name the side opposite to the kind of the edited file (as is
    always the case for the postfix .glsl, which is neither a vertex nor a
    fragment postfix to the assembler), the edited text is not used: the
    assembly, loads included, is the same for any two texts. *)
Theorem explicit_sources_ignore_text
    (rcPasses : list RcPass) (shader1 shader2 : string) :
  rcPasses <> [] ->
  (forall spec, In spec rcPasses ->
     truthyStr (rc_vs spec) || truthyStr (rc_fs spec) = true) ->
  (forall spec,
     rcPasses !! (length rcPasses - 1)%nat = Some spec ->
     truthyStr (rc_vs spec) && isFragmentPostfix postfix = false /\
     truthyStr (rc_fs spec) && isVertexPostfix postfix = false) ->
  createPasses loadFile path_resolve gvp rcPasses shader1 postfix dir =
  createPasses loadFile path_resolve gvp rcPasses shader2 postfix dir.
Proof.
  intros Hne Hside Hlast. unfold createPasses.
  rewrite coercePasses_nonempty by exact Hne.
  f_equal. apply imap_ext. intros i spec Hi.
  apply assemblePass_text_unused.
  - apply Hside. apply list_elem_of_In. eapply list_elem_of_lookup_2.
    exact Hi.
  - intros Heq. apply Nat.eqb_eq in Heq. subst i. apply Hlast. exact Hi.
Qed.

End PassAssemblerText.

(** ** File names and head comments *)

Lemma string_length_append (s1 s2 : string) :
  String.length (s1 ++ s2)%string = (String.length s1 + String.length s2)%nat.
Proof. induction s1 as [|c s1 IH]; simpl; [reflexivity | congruence]. Qed.

Lemma string_append_cons (c : ascii) (s1 s2 : string) :
  (String c s1 ++ s2)%string = String c (s1 ++ s2)%string.
Proof. reflexivity. Qed.

Lemma string_append_nil (s : string) : ("" ++ s)%string = s.
Proof. reflexivity. Qed.

Lemma string_append_assoc (s1 s2 s3 : string) :
  ((s1 ++ s2) ++ s3)%string = (s1 ++ (s2 ++ s3))%string.
Proof.
  induction s1 as [|c s1 IH]; [reflexivity|].
  rewrite !string_append_cons. congruence.
Qed.

Lemma endsWith_nil (suffix : string) :
  endsWith "" suffix = ("" =? suffix) || false.
Proof. reflexivity. Qed.

Lemma endsWith_cons (c : ascii) (s suffix : string) :
  endsWith (String c s) suffix = (String c s =? suffix) || endsWith s suffix.
Proof. reflexivity. Qed.

Lemma endsWith_spec (s suffix : string) :
  endsWith s suffix = true <-> exists stem, s = (stem ++ suffix)%string.
Proof.
  split.
  - induction s as [|c s IH].
    + rewrite endsWith_nil, orb_false_r. intros H. apply String.eqb_eq in H.
      exists "". exact H.
    + rewrite endsWith_cons. intros H.
      apply orb_true_iff in H. destruct H as [H|H].
      * apply String.eqb_eq in H. exists "". exact H.
      * destruct (IH H) as [stem ->]. exists (String c stem). reflexivity.
  - intros [stem ->]. induction stem as [|c stem IH].
    + rewrite string_append_nil.
      destruct suffix;
        rewrite ?endsWith_nil, ?endsWith_cons, String.eqb_refl; reflexivity.
    + rewrite string_append_cons, endsWith_cons, IH. apply orb_true_r.
Qed.

(** Of two endings of one string, the shorter is an ending of the longer. *)
Lemma append_suffix (s1 s2 p q : string) :
  (s1 ++ p)%string = (s2 ++ q)%string ->
  (String.length p <= String.length q)%nat ->
  exists u, q = (u ++ p)%string.
Proof.
  revert s2. induction s1 as [|c s1 IH]; intros s2 Heq Hlen.
  - rewrite string_append_nil in Heq.
    apply (f_equal String.length) in Heq as Hl.
    rewrite string_length_append in Hl.
    destruct s2 as [|d s2]; simpl in Hl; [|lia].
    exists "". symmetry. exact Heq.
  - rewrite string_append_cons in Heq. destruct s2 as [|d s2].
    + rewrite string_append_nil in Heq.
      exists (String c s1). symmetry. exact Heq.
    + rewrite string_append_cons in Heq.
      injection Heq as _ Heq. apply (IH s2 Heq Hlen).
Qed.

Lemma endsWith_other (stem p q : string) :
  endsWith p q = false ->
  endsWith q p = false ->
  endsWith (stem ++ p)%string q = false.
Proof.
  intros Hpq Hqp.
  destruct (endsWith (stem ++ p)%string q) eqn:H; [|reflexivity].
  apply endsWith_spec in H. destruct H as [stem' H].
  destruct (Nat.le_ge_cases (String.length p) (String.length q)) as [Hl|Hl].
  - destruct (append_suffix _ _ _ _ H Hl) as [u Hu].
    assert (Ht : endsWith q p = true) by (apply endsWith_spec; eauto).
    congruence.
  - destruct (append_suffix _ _ _ _ (eq_sym H) Hl) as [u Hu].
    assert (Ht : endsWith p q = true) by (apply endsWith_spec; eauto).
    congruence.
Qed.

(** X6: a file path is taken for a shader exactly when it ends with one of
    the five postfixes .glsl, .frag, .vert, .fs and .vs, and the postfix
    found is that ending; a path with none of them (the empty path
    included) is turned down. *)
Theorem matchPostfix_characterisation (s p : string) :
  matchPostfix s = Some p <->
  In p [".glsl"; ".frag"; ".vert"; ".fs"; ".vs"] /\
  exists stem, s = (stem ++ p)%string.
Proof.
  split.
  - unfold matchPostfix. intros H.
    repeat match type of H with
      | (if endsWith ?a ?b then _ else _) = _ =>
          destruct (endsWith a b) eqn:?
      end; try discriminate H; injection H as <-;
      (split; [simpl; tauto | apply endsWith_spec; assumption]).
  - intros [Hin [stem ->]]. unfold matchPostfix.
    assert (Hself : endsWith (stem ++ p)%string p = true)
      by (apply endsWith_spec; eauto).
    simpl in Hin.
    destruct Hin as [<-|[<-|[<-|[<-|[<-|[]]]]]];
      rewrite ?Hself;
      repeat (rewrite endsWith_other by reflexivity);
      rewrite ?Hself; reflexivity.
Qed.

Lemma isOpener_spec (s : list N) :
  isOpener s = true <-> exists body, s = slash :: star :: body.
Proof.
  destruct s as [|a [|b body]]; simpl; split;
    try discriminate; try (intros [x H]; discriminate H).
  - intros H. apply andb_true_iff in H. destruct H as [Ha Hb].
    apply N.eqb_eq in Ha, Hb. subst. eauto.
  - intros [x H]. injection H as -> -> _. reflexivity.
Qed.

Lemma isCloser_spec (s : list N) :
  isCloser s = true <-> exists rest, s = star :: slash :: rest.
Proof.
  destruct s as [|a [|b rest]]; simpl; split;
    try discriminate; try (intros [x H]; discriminate H).
  - intros H. apply andb_true_iff in H. destruct H as [Ha Hb].
    apply N.eqb_eq in Ha, Hb. subst. eauto.
  - intros [x H]. injection H as -> -> _. reflexivity.
Qed.

Lemma closerFree_nil : closerFree [].
Proof. intros [|x u] v H; discriminate H. Qed.

(** The body found from a position is the text up to the first closer, and
    it is found exactly when no barred unit comes before that closer. *)
Lemma untilClose_spec (s : list N) :
  match untilClose s with
  | Some c =>
      (exists rest, s = c ++ [star; slash] ++ rest) /\
      closerFree c /\ forallb commentUnit c = true
  | None =>
      forall c rest,
        s = c ++ [star; slash] ++ rest -> forallb commentUnit c = false
  end.
Proof.
  induction s as [|a s IH].
  - simpl. intros [|x c] rest H; discriminate H.
  - cbn [untilClose]. destruct (isCloser (a :: s)) eqn:Hc.
    + apply isCloser_spec in Hc. destruct Hc as [rest Hr].
      split; [exists rest; exact Hr|]. split; [exact closerFree_nil|].
      reflexivity.
    + assert (Hhead : forall rest, a :: s <> [star; slash] ++ rest).
      { intros rest H.
        assert (isCloser (a :: s) = true)
          by (apply isCloser_spec; exists rest; exact H).
        congruence. }
      destruct (commentUnit a) eqn:Ha.
      * destruct (untilClose s) as [c|]; cbn [option_map].
        -- destruct IH as ([rest Hr] & Hfree & Hall).
           split; [exists rest; rewrite Hr; reflexivity|]. split.
           ++ intros [|x u] v H.
              ** apply (Hhead (v ++ [star; slash] ++ rest)).
                 rewrite Hr. simpl in H. injection H as -> ->.
                 reflexivity.
              ** simpl in H. injection H as _ H. apply (Hfree u v H).
           ++ simpl. rewrite Ha, Hall. reflexivity.
        -- intros [|x c] rest H.
           ++ destruct (Hhead rest H).
           ++ simpl in H. injection H as <- H. simpl.
              rewrite (IH c rest H). apply andb_false_r.
      * intros [|x c] rest H.
        -- destruct (Hhead rest H).
        -- simpl in H. injection H as <- _. simpl. rewrite Ha. reflexivity.
Qed.

(** X7: the head comment of a text (any sequence of UTF-16 code units) is
    the body of the leftmost block comment that has neither U+2028 nor
    U+2029 in its body: the text is a prefix, an opener, the body, a closer
    and a rest; the body has no closer and neither of the two units in it;
    and no block comment without these units opens earlier.  When there is
    no head comment, every block comment of the text has one of the two
    units in its body. *)
Theorem headComment_first_block_comment (s : list N) :
  match headCommentUnits s with
  | Some c =>
      exists pre post,
        s = blockComment pre c post /\
        closerFree c /\
        forallb commentUnit c = true /\
        forall pre2 c2 post2,
          s = blockComment pre2 c2 post2 ->
          forallb commentUnit c2 = true ->
          (length pre <= length pre2)%nat
  | None =>
      forall pre c post,
        s = blockComment pre c post -> forallb commentUnit c = false
  end.
Proof.
  unfold blockComment.
  induction s as [|a s IH].
  - simpl. intros [|x pre] c post H; discriminate H.
  - cbn [headCommentUnits].
    destruct (if isOpener (a :: s) then untilClose (drop 2 (a :: s))
              else None) as [c|] eqn:Hhere.
    + destruct (isOpener (a :: s)) eqn:Ho; [|discriminate Hhere].
      apply isOpener_spec in Ho. destruct Ho as [body Hb].
      rewrite Hb in Hhere.
      change (drop 2 (slash :: star :: body)) with body in Hhere.
      pose proof (untilClose_spec body) as Hu. rewrite Hhere in Hu.
      destruct Hu as ([rest Hr] & Hfree & Hall).
      exists [], rest. split; [rewrite Hb, Hr; reflexivity|].
      split; [exact Hfree|]. split; [exact Hall|].
      intros. simpl. lia.
    + assert (Hfirst : forall c2 post2,
          a :: s = [] ++ [slash; star] ++ c2 ++ [star; slash] ++ post2 ->
          forallb commentUnit c2 = false).
      { intros c2 post2 H.
        assert (Ho : isOpener (a :: s) = true)
          by (apply isOpener_spec; eexists; exact H).
        rewrite Ho, H in Hhere.
        change (drop 2 ([] ++ [slash; star] ++ c2 ++ [star; slash] ++ post2))
          with (c2 ++ [star; slash] ++ post2) in Hhere.
        pose proof (untilClose_spec (c2 ++ [star; slash] ++ post2)) as Hu.
        rewrite Hhere in Hu. apply (Hu c2 post2). reflexivity. }
      destruct (headCommentUnits s) as [c|].
      * destruct IH as (pre & post & Hs & Hfree & Hall & Hleft).
        exists (a :: pre), post. split; [rewrite Hs; reflexivity|].
        split; [exact Hfree|]. split; [exact Hall|].
        intros [|x pre2] c2 post2 H Hc2.
        -- rewrite (Hfirst c2 post2 H) in Hc2. discriminate Hc2.
        -- simpl in H. injection H as _ H. simpl. apply le_n_S.
           apply (Hleft pre2 c2 post2 H Hc2).
      * intros [|x pre] c post H.
        -- apply (Hfirst c post H).
        -- simpl in H. injection H as _ H. apply (IH pre c post H).
Qed.

(** ** The build pipeline, outcome by outcome *)

Section BuildPipelineMore.

Context {Cfg : Type} (E : Collab Cfg).

(** The state after a build on an editor with a recognised path, by the
    step at which the build ends. *)
Ltac by_steps ed isSound app filepath postfix Hp Hm :=
  let H := fresh "Hrun" in
  pose proof (loadShaderOfEditor_steps E ed isSound app filepath postfix
                Hp Hm) as H;
  cbv zeta in H;
  destruct (stepSnapshot E filepath (getText ed) isSound (config app))
    as [cfg' rc] eqn:Hsnap;
  rewrite H; clear H; cbn [snd fst];
  destruct (stepPreprocess E rc filepath (getText ed)) as [shader|e1] eqn:H1;
  [ destruct (stepValidate E isSound (glslangValidatorPath app) shader
                postfix) as [[]|e2] eqn:H2;
    [ destruct (snd (stepAssemble E (glslangValidatorPath app) rc shader
                       postfix (dirname E filepath))) as [passes|e3] eqn:H3;
      [ destruct isSound | ] | ] | ].

(** X9: a build on a file with a recognised postfix hands the head comment
    of the text to the configuration before anything can fail, so the
    configuration holds the settings of the file also after a build that was
    given up; without an editor, a path or a recognised postfix the
    configuration is not touched. *)
Theorem build_updates_config_first
    (ed : option Editor) (isSound : bool) (app : App Cfg) :
  config (snd (loadShaderOfEditor E ed isSound app)) =
  match ed with
  | Some e =>
      match getPath e with
      | Some filepath =>
          match matchPostfix filepath with
          | Some _ =>
              if isSound
              then setSoundSettingsByString E filepath
                     (headComment (getText e)) (config app)
              else setFileSettingsByString E filepath
                     (headComment (getText e)) (config app)
          | None => config app
          end
      | None => config app
      end
  | None => config app
  end.
Proof.
  destruct ed as [ed|]; [|reflexivity].
  destruct (getPath ed) as [filepath|] eqn:Hp.
  2: { unfold loadShaderOfEditor. rewrite Hp. reflexivity. }
  destruct (matchPostfix filepath) as [postfix|] eqn:Hm.
  2: { unfold loadShaderOfEditor. rewrite Hp. simpl. rewrite Hm.
       reflexivity. }
  assert (Hcfg :
    fst (stepSnapshot E filepath (getText ed) isSound (config app)) =
    if isSound
    then setSoundSettingsByString E filepath (headComment (getText ed))
           (config app)
    else setFileSettingsByString E filepath (headComment (getText ed))
           (config app))
    by (unfold stepSnapshot; destruct isSound; reflexivity).
  by_steps ed isSound app filepath postfix Hp Hm; simpl in *; exact Hcfg.
Qed.

Lemma loadShaderOfEditor_fields
    (ed : option Editor) (isSound : bool) (app : App Cfg) :
  let app' := snd (loadShaderOfEditor E ed isSound app) in
  player app' = player app /\
  isPlaying app' = isPlaying app /\
  osc app' = osc app /\
  glslangValidatorPath app' = glslangValidatorPath app /\
  activeEditorDisposer app' = activeEditorDisposer app /\
  editorDisposer app' = editorDisposer app /\
  editor app' = editor app /\
  nextId app' = nextId app /\
  (if isSound
   then lastShader app' = lastShader app
   else lastSoundShader app' = lastSoundShader app).
Proof.
  destruct ed as [ed|]; [|destruct isSound; repeat split].
  destruct (getPath ed) as [filepath|] eqn:Hp.
  2: { unfold loadShaderOfEditor. rewrite Hp.
       destruct isSound; repeat split. }
  destruct (matchPostfix filepath) as [postfix|] eqn:Hm.
  2: { unfold loadShaderOfEditor. rewrite Hp. simpl. rewrite Hm.
       destruct isSound; repeat split. }
  cbv zeta.
  by_steps ed isSound app filepath postfix Hp Hm;
    try destruct isSound; repeat split.
Qed.

(** X10: a build changes nothing of the object but the configuration, the
    trace and the shader state of its own mode: the backend held, the
    playing flag, the control source, the validator path, the watch fields
    and the identities stay, a visual build leaves the sound shader state
    alone and a sound build the visual one. *)
Theorem build_leaves_the_rest
    (ed : option Editor) (isSound : bool) (app : App Cfg) :
  let app' := snd (loadShaderOfEditor E ed isSound app) in
  player app' = player app /\
  isPlaying app' = isPlaying app /\
  osc app' = osc app /\
  glslangValidatorPath app' = glslangValidatorPath app /\
  activeEditorDisposer app' = activeEditorDisposer app /\
  editorDisposer app' = editorDisposer app /\
  editor app' = editor app /\
  nextId app' = nextId app /\
  (if isSound
   then lastShader app' = lastShader app
   else lastSoundShader app' = lastSoundShader app).
Proof. exact (loadShaderOfEditor_fields ed isSound app). Qed.

(** The events of a build are reports, file loads and a load on the backend
    held. *)
Lemma loadShaderOfEditor_calm
    (ed : option Editor) (isSound : bool) (app : App Cfg) :
  exists delta,
    trace (snd (loadShaderOfEditor E ed isSound app)) = trace app ++ delta /\
    forallb (calmEvent (bid (player app))) delta = true.
Proof.
  assert (Hloads : forall l,
    forallb (calmEvent (bid (player app))) (map EvLoadFile l) = true).
  { induction l; simpl; auto. }
  destruct ed as [ed|].
  2: { exists []. simpl. rewrite app_nil_r. auto. }
  destruct (getPath ed) as [filepath|] eqn:Hp.
  2: { unfold loadShaderOfEditor. rewrite Hp. exists []. simpl.
       rewrite app_nil_r. auto. }
  destruct (matchPostfix filepath) as [postfix|] eqn:Hm.
  2: { unfold loadShaderOfEditor. rewrite Hp. simpl. rewrite Hm.
       eexists. split; [reflexivity|]. reflexivity. }
  by_steps ed isSound app filepath postfix Hp Hm;
    (eexists; split; [simpl; rewrite <- ?app_assoc; reflexivity|]);
    rewrite ?forallb_app, ?Hloads; simpl; rewrite ?Nat.eqb_refl; reflexivity.
Qed.

(** X11: a call on an editor either hands exactly one shader to the backend
    and reports nothing, or reports exactly one diagnostic and hands nothing
    to the backend, or (without editor or path) does neither and leaves the
    object as it was.  What is handed to the backend is what the state holds
    afterwards, and after a report both shader states are the old ones. *)
Theorem build_dispatches_or_reports
    (ed : option Editor) (isSound : bool) (app : App Cfg) :
  let app' := snd (loadShaderOfEditor E ed isSound app) in
  exists delta,
    trace app' = trace app ++ delta /\
    match List.filter isDispatch delta, List.filter isDiagnostic delta with
    | [EvPlayerLoadShader b passes], [] =>
        isSound = false /\ b = bid (player app) /\ lastShader app' = passes
    | [EvPlayerLoadSoundShader b shader], [] =>
        isSound = true /\ b = bid (player app) /\
        lastSoundShader app' = shader
    | [], [_] =>
        lastShader app' = lastShader app /\
        lastSoundShader app' = lastSoundShader app
    | [], [] => app' = app
    | _, _ => False
    end.
Proof.
  assert (Hloads : forall l,
    List.filter isDispatch (map EvLoadFile l) = [] /\
    List.filter isDiagnostic (map EvLoadFile l) = []).
  { induction l; simpl; auto. }
  destruct ed as [ed|].
  2: { exists []. simpl. rewrite app_nil_r. auto. }
  destruct (getPath ed) as [filepath|] eqn:Hp.
  2: { unfold loadShaderOfEditor. rewrite Hp. exists []. simpl.
       rewrite app_nil_r. auto. }
  destruct (matchPostfix filepath) as [postfix|] eqn:Hm.
  2: { unfold loadShaderOfEditor. rewrite Hp. simpl. rewrite Hm.
       eexists. split; [reflexivity|]. simpl. auto. }
  cbv zeta.
  by_steps ed isSound app filepath postfix Hp Hm;
    (eexists; split; [simpl; rewrite <- ?app_assoc; reflexivity|]);
    rewrite ?List.filter_app;
    rewrite ?(proj1 (Hloads _)), ?(proj2 (Hloads _)); simpl; auto.
Qed.

End BuildPipelineMore.

(** ** Configuration changes and what follows them *)

Section ConfigChangeMore.

Context {Cfg : Type} (E : Collab Cfg).

Ltac run_blocks :=
  unfold changeValidatorPath, changeServer, changeOsc, newBackend, newView,
    newOscLoader, fresh, callPlayer, emit, emitAll, gets, modify, mbind,
    mret, M_bind, M_ret, bind, ret;
  simpl.

(** The fields that the second block leaves alone. *)
Lemma changeServer_fields (added : RcFragment) (a : App Cfg) :
  let a' := snd (changeServer E added a) in
  editor a' = editor a /\
  activeEditorDisposer a' = activeEditorDisposer a /\
  editorDisposer a' = editorDisposer a /\
  config a' = config a /\
  glslangValidatorPath a' = glslangValidatorPath a /\
  isPlaying a' = isPlaying a /\
  lastShader a' = lastShader a /\
  lastSoundShader a' = lastSoundShader a /\
  osc a' = osc a.
Proof.
  run_blocks. destruct (added_server added) as [[|n]|]; simpl;
    try destruct (n =? 0)%Z; simpl; repeat split.
Qed.

(** The fields that the third block leaves alone. *)
Lemma changeOsc_fields (added : RcFragment) (a : App Cfg) :
  let a' := snd (changeOsc added a) in
  editor a' = editor a /\
  activeEditorDisposer a' = activeEditorDisposer a /\
  editorDisposer a' = editorDisposer a /\
  config a' = config a /\
  glslangValidatorPath a' = glslangValidatorPath a /\
  isPlaying a' = isPlaying a /\
  lastShader a' = lastShader a /\
  lastSoundShader a' = lastSoundShader a /\
  player a' = player a.
Proof.
  run_blocks. destruct (added_osc added) as [newPort|]; simpl;
    [|repeat split].
  destruct (osc a) as [o|] eqn:Ho; simpl;
    [destruct (oscOutdated o newPort); simpl|];
    rewrite ?Ho; simpl;
    destruct newPort as [|n]; simpl;
    try destruct (n =? 0)%Z; simpl; repeat split.
Qed.

(** The fields that [onAnyChanges] leaves alone whatever the diff. *)
Lemma onAnyChanges_fields (d : RcDiff) (a : App Cfg) :
  let a' := snd (onAnyChanges E d a) in
  editor a' = editor a /\
  activeEditorDisposer a' = activeEditorDisposer a /\
  editorDisposer a' = editorDisposer a /\
  config a' = config a /\
  isPlaying a' = isPlaying a /\
  lastShader a' = lastShader a /\
  lastSoundShader a' = lastSoundShader a /\
  glslangValidatorPath a' =
    (if truthyStr (added_glslangValidatorPath (added d))
     then default "" (added_glslangValidatorPath (added d))
     else glslangValidatorPath a).
Proof.
  cbv zeta. rewrite onAnyChanges_seq. cbn [snd].
  rewrite changeValidatorPath_run. cbn [snd].
  set (a1 := if truthyStr _ then _ else a).
  destruct (changeServer_fields (added d) a1)
    as (H1 & H2 & H3 & H4 & H5 & H6 & H7 & H8 & _).
  destruct (changeOsc_fields (added d) (snd (changeServer E (added d) a1)))
    as (K1 & K2 & K3 & K4 & K5 & K6 & K7 & K8 & _).
  rewrite K1, K2, K3, K4, K5, K6, K7, K8, H1, H2, H3, H4, H5, H6, H7, H8.
  subst a1. destruct (truthyStr _); repeat split.
Qed.

Lemma loads_carry_validatorPath (gvp : string) (rcPasses : list RcPass)
    (shader postfix dir : string) :
  Forall (fun c => lc_validatorPath c = gvp)
    (fst (createPasses (loadFile E) (resolve E) gvp rcPasses shader postfix
            dir)).
Proof.
  unfold createPasses, Promise_all. cbn [fst].
  destruct (imap_loads (loadFile E) (resolve E) gvp shader postfix dir
              (coercePasses rcPasses) (coercePasses rcPasses)
              (length (coercePasses rcPasses) - 1) 0 (fun _ H => H))
    as [H _].
  eapply Forall_impl; [exact H|]. intros c [Hc _]. exact Hc.
Qed.

(** Every file load of a build is made with the validator path that the
    object holds. *)
Lemma build_loads_carry_validatorPath
    (ed : option Editor) (isSound : bool) (a : App Cfg) :
  exists delta,
    trace (snd (loadShaderOfEditor E ed isSound a)) = trace a ++ delta /\
    forall c, In (EvLoadFile c) delta ->
      lc_validatorPath c = glslangValidatorPath a.
Proof.
  destruct ed as [ed|].
  2: { exists []. simpl. rewrite app_nil_r. split; [reflexivity|].
       intros c []. }
  destruct (getPath ed) as [filepath|] eqn:Hpath.
  2: { unfold loadShaderOfEditor. rewrite Hpath. exists []. simpl.
       rewrite app_nil_r. split; [reflexivity|]. intros c []. }
  destruct (matchPostfix filepath) as [postfix|] eqn:Hm.
  2: { unfold loadShaderOfEditor. rewrite Hpath. simpl. rewrite Hm.
       eexists. split; [reflexivity|]. intros c [H|[]]. discriminate H. }
  pose proof (loadShaderOfEditor_steps E ed isSound a filepath postfix
                Hpath Hm) as Hrun.
  cbv zeta in Hrun.
  destruct (stepSnapshot E filepath (getText ed) isSound (config a))
    as [cfg' rc].
  rewrite Hrun. clear Hrun. cbn [snd].
  assert (Hloads : forall shader c,
    In (EvLoadFile c)
      (map EvLoadFile
         (fst (stepAssemble E (glslangValidatorPath a) rc shader postfix
                 (dirname E filepath)))) ->
    lc_validatorPath c = glslangValidatorPath a).
  { intros shader c Hin. apply in_map_iff in Hin.
    destruct Hin as (c' & Hc' & Hin). injection Hc' as ->.
    pose proof (loads_carry_validatorPath (glslangValidatorPath a)
                  (rc_PASSES rc) shader postfix (dirname E filepath)) as Hf.
    rewrite Forall_forall in Hf. apply Hf.
    apply list_elem_of_In. exact Hin. }
  destruct (stepPreprocess E rc filepath (getText ed)) as [shader|e1].
  2: { eexists. split; [reflexivity|]. intros c [H|[]]. discriminate H. }
  destruct (stepValidate E isSound (glslangValidatorPath a) shader postfix)
    as [[]|e2].
  2: { eexists. split; [reflexivity|]. intros c [H|[]]. discriminate H. }
  destruct (snd (stepAssemble E (glslangValidatorPath a) rc shader postfix
                   (dirname E filepath))) as [passes|e3];
    [destruct isSound|];
    (eexists; split; [simpl; rewrite <- ?app_assoc; reflexivity|]);
    intros c Hin; apply in_app_or in Hin;
    (destruct Hin as [Hin|[Hin|[]]];
     [exact (Hloads shader c Hin) | discriminate Hin]).
Qed.

(** X8: a sound build does not hand the edited text to [validator]:
    whatever [validator] would answer, the call ends the same way and leaves
    the same state.  The validator program is still used on the files that
    the passes name: each of them is loaded by [loadFile] with the validator
    path that the object holds. *)
Theorem sound_build_validates_loaded_files_only
    (v : string -> string -> string -> result unit)
    (ed : option Editor) (app : App Cfg) :
  loadShaderOfEditor (withValidator E v) ed true app =
    loadShaderOfEditor E ed true app /\
  exists delta,
    trace (snd (loadShaderOfEditor E ed true app)) = trace app ++ delta /\
    forall c, In (EvLoadFile c) delta ->
      lc_validatorPath c = glslangValidatorPath app.
Proof.
  split; [reflexivity|]. apply build_loads_carry_validatorPath.
Qed.

(** X12: a validator path given by a configuration change is the one that
    the builds after it work with: the object holds it, and every file load
    of the next build is made with it. *)
Theorem validator_path_change_reaches_next_build
    (d : RcDiff) (app : App Cfg) (p : string)
    (ed : option Editor) (isSound : bool) :
  added_glslangValidatorPath (added d) = Some p ->
  p <> "" ->
  let a1 := snd (onAnyChanges E d app) in
  let a2 := snd (loadShaderOfEditor E ed isSound a1) in
  glslangValidatorPath a1 = p /\
  exists delta,
    trace a2 = trace a1 ++ delta /\
    forall c, In (EvLoadFile c) delta -> lc_validatorPath c = p.
Proof.
  intros Hp Hne a1 a2.
  assert (Hg : glslangValidatorPath a1 = p).
  { subst a1.
    destruct (onAnyChanges_fields d app) as (_ & _ & _ & _ & _ & _ & _ & H).
    rewrite H, Hp. simpl.
    destruct (p =? "") eqn:Hpe; [|reflexivity].
    apply String.eqb_eq in Hpe. contradiction. }
  split; [exact Hg|]. subst a2. clearbody a1.
  destruct ed as [ed|].
  2: { exists []. simpl. rewrite app_nil_r. split; [reflexivity|].
       intros c []. }
  destruct (getPath ed) as [filepath|] eqn:Hpath.
  2: { unfold loadShaderOfEditor. rewrite Hpath. exists []. simpl.
       rewrite app_nil_r. split; [reflexivity|]. intros c []. }
  destruct (matchPostfix filepath) as [postfix|] eqn:Hm.
  2: { unfold loadShaderOfEditor. rewrite Hpath. simpl. rewrite Hm.
       eexists. split; [reflexivity|]. intros c [H|[]]. discriminate H. }
  pose proof (loadShaderOfEditor_steps E ed isSound a1 filepath postfix
                Hpath Hm) as Hrun.
  cbv zeta in Hrun.
  destruct (stepSnapshot E filepath (getText ed) isSound (config a1))
    as [cfg' rc].
  rewrite Hrun. clear Hrun. cbn [snd].
  assert (Hloads : forall shader c,
    In (EvLoadFile c)
      (map EvLoadFile
         (fst (stepAssemble E (glslangValidatorPath a1) rc shader postfix
                 (dirname E filepath)))) ->
    lc_validatorPath c = p).
  { intros shader c Hin. apply in_map_iff in Hin.
    destruct Hin as (c' & Hc' & Hin). injection Hc' as ->.
    pose proof (loads_carry_validatorPath (glslangValidatorPath a1)
                  (rc_PASSES rc) shader postfix (dirname E filepath)) as Hf.
    rewrite Forall_forall in Hf. rewrite <- Hg. apply Hf.
    apply list_elem_of_In. exact Hin. }
  destruct (stepPreprocess E rc filepath (getText ed)) as [shader|e1].
  2: { eexists. split; [reflexivity|]. intros c [H|[]]. discriminate H. }
  destruct (stepValidate E isSound (glslangValidatorPath a1) shader postfix)
    as [[]|e2].
  2: { eexists. split; [reflexivity|]. intros c [H|[]]. discriminate H. }
  destruct (snd (stepAssemble E (glslangValidatorPath a1) rc shader postfix
                   (dirname E filepath))) as [passes|e3];
    [destruct isSound|];
    (eexists; split; [simpl; rewrite <- ?app_assoc; reflexivity|]);
    intros c Hin; apply in_app_or in Hin;
    (destruct Hin as [Hin|[Hin|[]]];
     [exact (Hloads shader c Hin) | discriminate Hin]).
Qed.

(** X13: after a [change] event the backend that is in place once the diff
    has been applied, so the replacement when the diff swaps the backend and
    never the backend just stopped, is told about the diff and is handed the
    last visual shader again, in this order and as the last two calls. *)
Theorem onChange_reaches_backend_in_place (d : RcDiff) (app : App Cfg) :
  let a1 := snd (onAnyChanges E d app) in
  let app' := snd (onChange E d app) in
  player app' = player a1 /\
  trace app' =
    trace a1 ++
    [EvPlayerOnChange (bid (player a1)) d;
     EvPlayerLoadShader (bid (player a1)) (lastShader app)] /\
  (added_server (added d) <> None ->
   exists delta,
     trace a1 = trace app ++ delta /\
     In (EvPlayerStop (bid (player app))) delta /\
     In (EvNewBackend (player a1)) delta).
Proof.
  cbv zeta. unfold onChange, mbind, M_bind, bind.
  pose proof (onAnyChanges_ok E d app) as Hok.
  destruct (onAnyChanges_fields d app) as (_ & _ & _ & _ & _ & Hl & _).
  destruct (onAnyChanges E d app) as [r a1] eqn:Hrun.
  cbn [fst snd] in *. subst r.
  unfold loadLastShader, callPlayer, emit, gets, modify, mbind, M_bind, bind.
  cbn. rewrite Hl. split; [reflexivity|].
  split; [rewrite <- app_assoc; reflexivity|].
  intros Hs. destruct (added_server (added d)) as [server|] eqn:Hsv;
    [|congruence].
  pose proof (f_equal snd Hrun) as Ha1. rewrite onAnyChanges_seq in Ha1.
  cbn [snd] in Ha1. rewrite changeValidatorPath_run in Ha1. cbn [snd] in Ha1.
  set (a0 := if truthyStr _ then _ else app) in Ha1.
  assert (H0 : trace a0 = trace app /\ player a0 = player app)
    by (subst a0; destruct (truthyStr _); split; reflexivity).
  destruct H0 as [Ht0 Hp0].
  destruct (changeServer_some E (added d) a0 server Hsv)
    as (_ & (views & Ht & _) & _).
  destruct (changeOsc_frame (added d) (snd (changeServer E (added d) a0)))
    as ((d3 & Ht3 & _) & Hp3 & _).
  rewrite Ha1 in Ht3, Hp3.
  eexists. split.
  - rewrite Ht3, Ht, Ht0, <- !app_assoc. reflexivity.
  - rewrite Hp3, Hp0.
    split; repeat (rewrite in_app_iff || simpl); auto 10.
Qed.

Lemma app_self_nil {A} (l delta : list A) : l = l ++ delta -> delta = [].
Proof.
  intros H. apply (app_inv_head l). rewrite app_nil_r. symmetry. exact H.
Qed.

(** X15: [onAnyChanges] acts on the options that the added side of the diff
    names and on nothing else: without [server] the backend stays and gets
    no call, without [osc] the control source stays and none is constructed
    or destroyed, without a non-empty [glslangValidatorPath] the validator
    path stays, and without all three the object is left as it was. *)
Theorem onAnyChanges_acts_on_named_options (d : RcDiff) (app : App Cfg) :
  let app' := snd (onAnyChanges E d app) in
  exists delta,
    trace app' = trace app ++ delta /\
    (added_server (added d) = None ->
     player app' = player app /\ List.filter isBackendEvent delta = []) /\
    (added_osc (added d) = None ->
     osc app' = osc app /\ List.filter isOscLifecycle delta = []) /\
    (truthyStr (added_glslangValidatorPath (added d)) = false ->
     glslangValidatorPath app' = glslangValidatorPath app) /\
    (added_server (added d) = None ->
     added_osc (added d) = None ->
     truthyStr (added_glslangValidatorPath (added d)) = false ->
     app' = app).
Proof.
  cbv zeta. rewrite onAnyChanges_seq. cbn [snd].
  rewrite changeValidatorPath_run. cbn [snd].
  set (a0 := if truthyStr _ then _ else app).
  assert (H0 : trace a0 = trace app /\ player a0 = player app /\
               osc a0 = osc app)
    by (subst a0; destruct (truthyStr _); repeat split).
  destruct H0 as (Ht0 & Hp0 & Ho0).
  destruct (changeServer_frame E (added d) a0) as ((d2 & Ht2 & Hf2) & Ho2 & _).
  destruct (changeOsc_frame (added d) (snd (changeServer E (added d) a0)))
    as ((d3 & Ht3 & Hf3) & Hp3 & _).
  exists (d2 ++ d3). split.
  { rewrite Ht3, Ht2, Ht0, <- app_assoc. reflexivity. }
  split; [|split; [|split]].
  - intros Hs. rewrite changeServer_none in * by exact Hs. cbn [snd] in *.
    split; [congruence|].
    apply app_self_nil in Ht2. subst d2. exact Hf3.
  - intros Hs. rewrite changeOsc_none in * by exact Hs. cbn [snd] in *.
    split; [congruence|].
    apply app_self_nil in Ht3. subst d3. rewrite app_nil_r. exact Hf2.
  - intros Hg.
    destruct (onAnyChanges_fields d app) as (_ & _ & _ & _ & _ & _ & _ & H).
    rewrite onAnyChanges_seq in H. cbn [snd] in H.
    rewrite changeValidatorPath_run in H. cbn [snd] in H.
    rewrite Hg in H. unfold a0. rewrite Hg. exact H.
  - intros Hs Ho Hg.
    rewrite changeOsc_none by exact Ho. cbn [snd].
    rewrite changeServer_none by exact Hs. cbn [snd].
    unfold a0. rewrite Hg. reflexivity.
Qed.

(** X16: [destroy] destroys the backend held and, when one is held, the
    control source, and does nothing else; in particular it disposes of no
    listener.  On an object reached by a run from construction no control
    source is live afterwards. *)
Theorem destroy_tears_down_backend_and_control_source
    (cfg : Cfg) (cs : list Call) :
  let app := run E cs (constructor E cfg) in
  let app' := snd (destroy app) in
  trace app' =
    trace app ++
    EvPlayerDestroy (bid (player app)) ::
    match osc app with
    | Some o => [EvOscDestroy (oid o)]
    | None => []
    end /\
  liveOsc (trace app') = [].
Proof.
  intros app app'.
  assert (Hinv : oscInv app) by apply run_inv, constructor_inv.
  assert (Ht : trace app' =
    trace app ++
    EvPlayerDestroy (bid (player app)) ::
    match osc app with
    | Some o => [EvOscDestroy (oid o)]
    | None => []
    end).
  { subst app'. unfold destroy, callPlayer, emit, gets, modify, mbind, mret,
      M_bind, M_ret, bind, ret. cbn.
    destruct (osc app) as [o|] eqn:Ho; cbn; rewrite ?Ho; cbn;
      [rewrite <- app_assoc|]; reflexivity. }
  split; [exact Ht|].
  rewrite Ht, liveOsc_app. unfold oscInv in Hinv. rewrite Hinv.
  destruct (osc app) as [o|]; simpl; [|reflexivity].
  rewrite Nat.eqb_refl. reflexivity.
Qed.

End ConfigChangeMore.

(** ** Backends and listeners along a run *)

Section AlongRuns.

Context {Cfg : Type} (E : Collab Cfg).

Lemma constructedBackends_app (l1 l2 : list Event) :
  constructedBackends (l1 ++ l2) =
  constructedBackends l1 ++ constructedBackends l2.
Proof. unfold constructedBackends. apply flat_map_app. Qed.

Lemma lastCallTo_app (b : nat) (tr delta : list Event) :
  lastCallTo b (tr ++ delta) =
  match lastCallTo b delta with
  | Some e => Some e
  | None => lastCallTo b tr
  end.
Proof. unfold lastCallTo. rewrite List.filter_app. apply last_app. Qed.

Lemma backendPlaying_app (p : Backend) (tr delta : list Event) :
  backendPlaying p (tr ++ delta) =
  fold_left (playStep (bid p)) delta (backendPlaying p tr).
Proof. unfold backendPlaying. apply fold_left_app. Qed.

Lemma steady_constructed (b : nat) (delta : list Event) :
  forallb (steadyEvent b) delta = true -> constructedBackends delta = [].
Proof.
  induction delta as [|e delta IH]; [reflexivity|]. simpl.
  intros H. apply andb_true_iff in H. destruct H as [He Hd].
  rewrite (IH Hd). destruct e; try reflexivity. discriminate He.
Qed.

Lemma steady_addressed (b b' : nat) (delta : list Event) (e : Event) :
  forallb (steadyEvent b) delta = true ->
  In e delta -> addressedTo b' e = true -> b' = b.
Proof.
  intros H Hin Ha. rewrite forallb_forall in H. specialize (H e Hin).
  destruct e; simpl in *; try discriminate Ha;
    apply Nat.eqb_eq in Ha, H; congruence.
Qed.

Lemma steady_others (b b' : nat) (delta : list Event) :
  forallb (steadyEvent b) delta = true ->
  b' <> b -> List.filter (addressedTo b') delta = [].
Proof.
  intros H Hne. induction delta as [|e delta IH]; [reflexivity|].
  simpl in *. apply andb_true_iff in H. destruct H as [He Hd].
  rewrite (IH Hd).
  destruct (addressedTo b' e) eqn:Ha; [|reflexivity].
  exfalso. apply Hne.
  apply (steady_addressed b b' [e] e); simpl; auto. rewrite He. reflexivity.
Qed.

(** The invariant is kept by a step during which the backend stays. *)
Lemma backendInv_steady (a a' : App Cfg) (delta : list Event) :
  backendInv a ->
  player a' = player a ->
  (nextId a <= nextId a')%nat ->
  trace a' = trace a ++ delta ->
  forallb (steadyEvent (bid (player a))) delta = true ->
  fold_left (playStep (bid (player a))) delta (isPlaying a) = isPlaying a' ->
  backendInv a'.
Proof.
  intros (I1 & I2 & I3 & I4 & I5 & I6) Hp Hn Ht Hs Hplay.
  unfold backendInv. rewrite Ht, Hp, constructedBackends_app.
  rewrite (steady_constructed _ _ Hs), app_nil_r.
  split; [exact I1|]. split; [exact I2|].
  split; [intros b Hb; specialize (I3 b Hb); lia|].
  split; [|split].
  - intros b e Hin Ha. apply in_app_or in Hin. destruct Hin as [Hin|Hin].
    + specialize (I4 b e Hin Ha). lia.
    + rewrite (steady_addressed _ _ _ _ Hs Hin Ha).
      specialize (I3 _ I1). lia.
  - intros b Hb Hne. rewrite lastCallTo_app. unfold lastCallTo at 1.
    rewrite (steady_others _ _ _ Hs Hne). simpl. apply I5; assumption.
  - rewrite backendPlaying_app, I6. exact Hplay.
Qed.

Lemma calm_steady (b : nat) (delta : list Event) (playing : bool) :
  forallb (calmEvent b) delta = true ->
  forallb (steadyEvent b) delta = true /\
  fold_left (playStep b) delta playing = playing.
Proof.
  induction delta as [|e delta IH]; [auto|]. simpl.
  intros H. apply andb_true_iff in H. destruct H as [He Hd].
  destruct (IH Hd) as [H1 H2].
  destruct e; simpl in *; try discriminate He; rewrite ?He; auto.
Qed.

Lemma quiet_steady (b : nat) (delta : list Event) (playing : bool) :
  List.filter isBackendEvent delta = [] ->
  forallb (steadyEvent b) delta = true /\
  fold_left (playStep b) delta playing = playing.
Proof.
  induction delta as [|e delta IH]; [auto|]. simpl.
  destruct (isBackendEvent e) eqn:He; [discriminate|].
  intros Hd. destruct (IH Hd) as [H1 H2].
  destruct e; simpl in *; try discriminate He; auto.
Qed.

Lemma playStep_unaddressed (b : nat) (playing : bool) (e : Event) :
  addressedTo b e = false -> playStep b playing e = playing.
Proof.
  destruct e; simpl; try reflexivity; intros H; rewrite H; reflexivity.
Qed.

Lemma fold_playStep_unaddressed (b : nat) (tr : list Event) (playing : bool) :
  (forall e, In e tr -> addressedTo b e = true -> False) ->
  fold_left (playStep b) tr playing = playing.
Proof.
  revert playing. induction tr as [|e tr IH]; intros playing H; [reflexivity|].
  simpl. rewrite playStep_unaddressed.
  - apply IH. intros e' He'. apply H. right. exact He'.
  - destruct (addressedTo b e) eqn:Ha; [|reflexivity].
    destruct (H e (or_introl eq_refl) Ha).
Qed.

Lemma backendPlaying_unaddressed (p : Backend) (tr : list Event) :
  (forall e, In e tr -> addressedTo (bid p) e = true -> False) ->
  backendPlaying p tr = seedPlaying (ctor p).
Proof. apply fold_playStep_unaddressed. Qed.

(** The invariant is kept when the backend is swapped. *)
Lemma backendInv_swap (added : RcFragment) (a : App Cfg)
    (server : Nullable Z) :
  added_server added = Some server ->
  backendInv a ->
  backendInv (snd (changeServer E added a)).
Proof.
  intros Hs (I1 & I2 & I3 & I4 & I5 & I6).
  destruct (changeServer_some E added a server Hs)
    as (_ & (views & Ht & Hvb & _) & Hctor & Hi & _ & _ & _ & _ & _ & Hfresh).
  set (a' := snd (changeServer E added a)) in *.
  destruct (quiet_steady (bid (player a')) views (seedPlaying (ctor (player a')))
              Hvb) as [Hvs Hvp].
  pose proof (steady_constructed _ _ Hvs) as Hvc.
  assert (Hseed : seedPlaying (ctor (player a')) = isPlaying a).
  { destruct (truthyNum (Some server)).
    - destruct Hctor as (n & _ & ->). reflexivity.
    - destruct Hctor as (view & ->). reflexivity. }
  assert (Hold : (bid (player a) < nextId a)%nat) by (apply I3; exact I1).
  assert (Hnew : ~ In (bid (player a')) (constructedBackends (trace a))).
  { intros Hin. specialize (I3 _ Hin). lia. }
  unfold backendInv. rewrite Ht, !constructedBackends_app, Hvc. simpl.
  split; [apply in_or_app; right; left; reflexivity|].
  split.
  { apply NoDup_app. split; [exact I2|]. split.
    - intros x Hx Hk. apply list_elem_of_In in Hx, Hk.
      destruct Hk as [<-|[]]. apply Hnew. exact Hx.
    - apply NoDup_singleton. }
  split.
  { intros b Hb. apply in_app_or in Hb. destruct Hb as [Hb|[<-|[]]].
    - specialize (I3 b Hb). lia.
    - lia. }
  split.
  { intros b e Hin Ha. apply in_app_or in Hin. destruct Hin as [Hin|Hin].
    - specialize (I4 b e Hin Ha). lia.
    - destruct Hin as [<-|Hin].
      + simpl in Ha. apply Nat.eqb_eq in Ha. lia.
      + apply in_app_or in Hin. destruct Hin as [Hin|[<-|[]]].
        * pose proof (steady_addressed _ _ _ _ Hvs Hin Ha). lia.
        * discriminate Ha. }
  split.
  { intros b Hb Hne. rewrite lastCallTo_app.
    apply in_app_or in Hb. destruct Hb as [Hb|[<-|[]]]; [|congruence].
    unfold lastCallTo at 1. simpl.
    rewrite List.filter_app. simpl.
    assert (Hv : List.filter (addressedTo b) views = [])
      by (apply (steady_others _ _ _ Hvs Hne)).
    rewrite Hv. simpl.
    destruct (b =? bid (player a))%nat eqn:Hb'.
    - apply Nat.eqb_eq in Hb'. subst b. reflexivity.
    - simpl. apply I5; [exact Hb|]. apply Nat.eqb_neq. exact Hb'. }
  rewrite backendPlaying_app.
  assert (Hbefore : backendPlaying (player a') (trace a) =
                    seedPlaying (ctor (player a'))).
  { apply backendPlaying_unaddressed. intros e Hin Ha.
    specialize (I4 _ e Hin Ha). lia. }
  rewrite Hbefore. simpl.
  assert (Hne : (bid (player a') =? bid (player a))%nat = false)
    by (apply Nat.eqb_neq; lia).
  rewrite Hne, fold_left_app, Hvp. simpl. congruence.
Qed.

Lemma backendInv_calm (a a' : App Cfg) (delta : list Event) :
  backendInv a ->
  player a' = player a ->
  nextId a' = nextId a ->
  isPlaying a' = isPlaying a ->
  trace a' = trace a ++ delta ->
  forallb (calmEvent (bid (player a))) delta = true ->
  backendInv a'.
Proof.
  intros I Hp Hn Hi Ht Hc.
  destruct (calm_steady _ _ (isPlaying a) Hc) as [Hs Hf].
  apply (backendInv_steady a a' delta); auto; try lia. congruence.
Qed.

Lemma backendInv_onAnyChanges (d : RcDiff) (a : App Cfg) :
  backendInv a -> backendInv (snd (onAnyChanges E d a)).
Proof.
  intros I. rewrite onAnyChanges_seq. cbn [snd].
  rewrite changeValidatorPath_run. cbn [snd].
  set (a1 := if truthyStr _ then _ else a).
  assert (I1 : backendInv a1).
  { subst a1. destruct (truthyStr _); exact I. }
  clearbody a1.
  assert (I2 : backendInv (snd (changeServer E (added d) a1))).
  { destruct (added_server (added d)) as [server|] eqn:Hs.
    - apply (backendInv_swap _ _ server Hs I1).
    - rewrite changeServer_none by exact Hs. exact I1. }
  set (a2 := snd (changeServer E (added d) a1)) in *. clearbody a2.
  destruct (added_osc (added d)) as [newPort|] eqn:Ho.
  - destruct (changeOsc_some (added d) a2 newPort Ho)
      as (_ & (delta & Ht & Hb & _) & Hp & Hi & _ & _ & _ & _ & Hn).
    destruct (quiet_steady (bid (player a2)) delta (isPlaying a2) Hb)
      as [Hs Hf].
    apply (backendInv_steady a2 _ delta); auto. congruence.
  - rewrite changeOsc_none by exact Ho. exact I2.
Qed.

(** The disposals of [stopWatching] in a state. *)
Lemma stopWatching_summary (a : App Cfg) :
  let a' := snd (stopWatching a) in
  player a' = player a /\ nextId a' = nextId a /\
  isPlaying a' = isPlaying a /\
  activeEditorDisposer a' = None /\ editorDisposer a' = None /\
  editor a' = None /\
  trace a' =
    trace a ++
    match activeEditorDisposer a with Some x => [EvDispose x] | None => [] end
    ++
    match editorDisposer a with Some x => [EvDispose x] | None => [] end.
Proof.
  unfold stopWatching, dispose, emit, gets, modify, mbind, mret, M_bind,
    M_ret, bind, ret; simpl.
  destruct (activeEditorDisposer a) as [x|] eqn:H1; simpl;
    destruct (editorDisposer a) as [y|] eqn:H2; simpl;
    rewrite ?H1, ?H2; simpl; rewrite <- ?app_assoc, ?app_nil_r;
    repeat split; assumption.
Qed.

Lemma stop_summary (a : App Cfg) :
  let a' := snd (stop E a) in
  player a' = player a /\ nextId a' = nextId a /\
  isPlaying a' = false /\
  activeEditorDisposer a' = None /\ editorDisposer a' = None /\
  editor a' = None /\
  trace a' =
    trace a ++
    EvPlayerStop (bid (player a)) ::
    match activeEditorDisposer a with Some x => [EvDispose x] | None => [] end
    ++
    match editorDisposer a with Some x => [EvDispose x] | None => [] end.
Proof.
  unfold stop, callPlayer, emit, gets, modify.
  unfold mbind, M_bind, bind. cbn [snd fst].
  set (a1 := set_config _ _).
  destruct (stopWatching_summary a1) as (H1 & H2 & H3 & H4 & H5 & H6 & H7).
  destruct (stopWatching a1) as [r a2]. cbn [snd] in *.
  rewrite H1, H2, H3, H4, H5, H6, H7. subst a1. simpl.
  rewrite <- app_assoc. repeat split.
Qed.

Lemma stop_keeps_backendInv (a : App Cfg) :
  backendInv a -> backendInv (snd (stop E a)).
Proof.
  intros I.
  destruct (stop_summary a) as (H1 & H2 & H3 & _ & _ & _ & H7).
  eapply (backendInv_steady a); [exact I|exact H1|lia|exact H7| |].
  - simpl. rewrite Nat.eqb_refl.
    destruct (activeEditorDisposer a), (editorDisposer a); reflexivity.
  - simpl. rewrite Nat.eqb_refl, H3.
    destruct (activeEditorDisposer a), (editorDisposer a); reflexivity.
Qed.

Lemma backendInv_perform (c : Call) (a : App Cfg) :
  backendInv a -> backendInv (perform E c a).
Proof.
  intros I. destruct c as [d|d|m| | | | |ed|ed| ]; cbn [perform].
  - unfold onChange, loadLastShader, callPlayer, emit, gets, modify, mbind,
      M_bind, bind.
    rewrite onAnyChanges_seq. cbn [snd].
    pose proof (backendInv_onAnyChanges d a I) as I'.
    rewrite onAnyChanges_seq in I'. cbn [snd] in I'.
    set (a1 := snd (changeOsc _ _)) in *. clearbody a1. cbn [snd].
    eapply (backendInv_calm a1); [exact I'| | | | |];
      [reflexivity|reflexivity|reflexivity| |].
    + simpl. rewrite <- app_assoc. reflexivity.
    + simpl. rewrite !Nat.eqb_refl. reflexivity.
  - unfold onChangeSound, callPlayer, emit, gets, modify, mbind, M_bind,
      bind.
    rewrite onAnyChanges_seq. cbn [snd].
    pose proof (backendInv_onAnyChanges d a I) as I'.
    rewrite onAnyChanges_seq in I'. cbn [snd] in I'.
    set (a1 := snd (changeOsc _ _)) in *. clearbody a1. cbn [snd].
    eapply (backendInv_calm a1); [exact I'| | | | |];
      [reflexivity|reflexivity|reflexivity|reflexivity|].
    simpl. rewrite !Nat.eqb_refl. reflexivity.
  - eapply (backendInv_calm a); [exact I| | | | |];
      [reflexivity|reflexivity|reflexivity|reflexivity|].
    simpl. rewrite !Nat.eqb_refl. reflexivity.
  - eapply (backendInv_calm a); [exact I| | | | |];
      [reflexivity|reflexivity|reflexivity|reflexivity|].
    simpl. rewrite !Nat.eqb_refl. reflexivity.
  - unfold toggle, gets, mbind, M_bind, bind.
    destruct (isPlaying a) eqn:Hi.
    + apply stop_keeps_backendInv. exact I.
    + apply (backendInv_steady a _ [EvPlayerPlay (bid (player a))]);
        [exact I| | | | |]; simpl; rewrite ?Nat.eqb_refl; auto.
  - apply (backendInv_steady a _ [EvPlayerPlay (bid (player a))]);
      [exact I| | | | |]; simpl; rewrite ?Nat.eqb_refl; auto.
  - apply stop_keeps_backendInv. exact I.
  - unfold loadShader.
    destruct (loadShaderOfEditor_fields E ed false a)
      as (Hp & Hi & _ & _ & _ & _ & _ & Hn & _).
    destruct (loadShaderOfEditor_calm E ed false a) as (delta & Ht & Hc).
    apply (backendInv_calm a _ delta); auto.
  - unfold loadSoundShader.
    destruct (loadShaderOfEditor_fields E ed true a)
      as (Hp & Hi & _ & _ & _ & _ & _ & Hn & _).
    destruct (loadShaderOfEditor_calm E ed true a) as (delta & Ht & Hc).
    apply (backendInv_calm a _ delta); auto.
  - unfold onChangeSoundResolved, loadLastSoundShader, callPlayer, emit,
      gets, modify, mbind, mret, M_bind, M_ret, bind, ret. simpl.
    destruct (lastSoundShader a =? "")%string; cbn [snd]; [exact I|].
    eapply (backendInv_calm a); [exact I| | | | |];
      [reflexivity|reflexivity|reflexivity|reflexivity|].
    simpl. rewrite !Nat.eqb_refl. reflexivity.
Qed.

Lemma backendInv_constructor (cfg : Cfg) : backendInv (constructor E cfg).
Proof.
  unfold backendInv. simpl. split; [auto|].
  split; [apply NoDup_singleton|].
  split; [intros b [<-|[]]; lia|].
  split; [intros b e [<-|[<-|[]]]; discriminate|].
  split; [intros b [<-|[]] Hne; congruence|reflexivity].
Qed.

Lemma backendInv_run (cs : list Call) (a : App Cfg) :
  backendInv a -> backendInv (run E cs a).
Proof.
  revert a. induction cs as [|c cs IH]; intros a I; [exact I|].
  simpl. apply IH. apply backendInv_perform. exact I.
Qed.

(** *** Listeners *)

Lemma disposed_app (tr delta : list Event) (d : nat) :
  disposed (tr ++ delta) d = disposed tr d || disposed delta d.
Proof. unfold disposed. apply existsb_app. Qed.

Lemma disposed_In (tr : list Event) (d : nat) :
  disposed tr d = true <-> In (EvDispose d) tr.
Proof.
  unfold disposed. rewrite existsb_exists. split.
  - intros (e & Hin & He). destruct e; try discriminate He.
    simpl in He. apply Nat.eqb_eq in He. subst. exact Hin.
  - intros Hin. exists (EvDispose d). split; [exact Hin|].
    simpl. apply Nat.eqb_refl.
Qed.

Lemma watchStep_quiet (a a' : App Cfg) (delta : list Event) :
  (nextId a <= nextId a')%nat ->
  trace a' = trace a ++ delta ->
  (forall d, ~ In (EvDispose d) delta) ->
  activeEditorDisposer a' = activeEditorDisposer a ->
  editorDisposer a' = editorDisposer a ->
  watchStep a a'.
Proof.
  intros Hn Ht Hd H1 H2. split; [exact Hn|]. exists delta.
  split; [exact Ht|]. split; [|auto].
  intros d Hin. destruct (Hd d Hin).
Qed.

Lemma watchStep_trans (a b c : App Cfg) :
  watchStep a b -> watchStep b c -> watchStep a c.
Proof.
  intros (Hn1 & d1 & Ht1 & Hd1 & Ha1 & He1) (Hn2 & d2 & Ht2 & Hd2 & Ha2 & He2).
  split; [lia|]. exists (d1 ++ d2).
  split; [rewrite Ht2, Ht1, app_assoc; reflexivity|].
  split; [|split].
  - intros d Hin. apply in_app_or in Hin. destruct Hin as [Hin|Hin]; [auto|].
    destruct (Hd2 d Hin) as [H|H].
    + destruct Ha1 as [Ha1|[Ha1 _]]; [left|]; congruence.
    + destruct He1 as [He1|[He1 _]]; [right|]; congruence.
  - destruct Ha2 as [Ha2|[Ha2 Hx2]].
    + destruct Ha1 as [Ha1|[Ha1 Hx1]]; [left; congruence|].
      right. split; [congruence|].
      intros d Hd. apply in_or_app. left. auto.
    + right. split; [exact Ha2|]. intros d Hd. apply in_or_app.
      destruct Ha1 as [Ha1|[Ha1 Hx1]].
      * right. apply Hx2. congruence.
      * left. auto.
  - destruct He2 as [He2|[He2 Hx2]].
    + destruct He1 as [He1|[He1 Hx1]]; [left; congruence|].
      right. split; [congruence|].
      intros d Hd. apply in_or_app. left. auto.
    + right. split; [exact He2|]. intros d Hd. apply in_or_app.
      destruct He1 as [He1|[He1 Hx1]].
      * right. apply Hx2. congruence.
      * left. auto.
Qed.

Lemma calm_no_disposal (b : nat) (delta : list Event) :
  forallb (calmEvent b) delta = true -> forall d, ~ In (EvDispose d) delta.
Proof.
  intros H d Hin. rewrite forallb_forall in H. specialize (H _ Hin).
  discriminate H.
Qed.

Lemma config_no_disposal (delta : list Event) :
  forallb configEvent delta = true -> forall d, ~ In (EvDispose d) delta.
Proof.
  intros H d Hin. rewrite forallb_forall in H. specialize (H _ Hin).
  discriminate H.
Qed.

Ltac run_config :=
  unfold changeValidatorPath, changeServer, changeOsc, newBackend, newView,
    newOscLoader, fresh, callPlayer, emit, emitAll, gets, modify, mbind,
    mret, M_bind, M_ret, bind, ret;
  simpl.

(** What applying a configuration diff can cause. *)
Lemma changeServer_events (added : RcFragment) (a : App Cfg) :
  let a' := snd (changeServer E added a) in
  (nextId a <= nextId a')%nat /\
  exists delta,
    trace a' = trace a ++ delta /\ forallb configEvent delta = true.
Proof.
  run_config. destruct (added_server added) as [[|n]|]; simpl;
    try destruct (n =? 0)%Z; simpl;
    (split; [lia|]); eexists;
    (split; [rewrite <- ?app_assoc; try reflexivity;
             symmetry; apply app_nil_r|reflexivity]).
Qed.

Lemma changeOsc_events (added : RcFragment) (a : App Cfg) :
  let a' := snd (changeOsc added a) in
  (nextId a <= nextId a')%nat /\
  exists delta,
    trace a' = trace a ++ delta /\ forallb configEvent delta = true.
Proof.
  run_config. destruct (added_osc added) as [newPort|]; simpl.
  2: { split; [lia|]. exists []. rewrite app_nil_r. auto. }
  destruct (osc a) as [o|] eqn:Ho; simpl;
    [destruct (oscOutdated o newPort); simpl|];
    rewrite ?Ho; simpl;
    destruct newPort as [|n]; simpl;
    try destruct (n =? 0)%Z; simpl;
    (split; [lia|]); eexists;
    (split; [rewrite <- ?app_assoc; try reflexivity;
             symmetry; apply app_nil_r|reflexivity]).
Qed.

Lemma onAnyChanges_watchStep (d : RcDiff) (a : App Cfg) :
  watchStep a (snd (onAnyChanges E d a)).
Proof.
  destruct (onAnyChanges_fields E d a) as (_ & H2 & H3 & _).
  cbv zeta in H2, H3. revert H2 H3.
  rewrite onAnyChanges_seq. cbn [snd].
  rewrite changeValidatorPath_run. cbn [snd].
  set (a1 := if truthyStr _ then _ else a).
  assert (Ht1 : trace a1 = trace a /\ nextId a1 = nextId a)
    by (subst a1; destruct (truthyStr _); auto).
  destruct Ht1 as [Ht1 Hn1]. clearbody a1.
  destruct (changeServer_events (added d) a1) as (Hn2 & d2 & Ht2 & Hc2).
  set (a2 := snd (changeServer E (added d) a1)) in *. clearbody a2.
  destruct (changeOsc_events (added d) a2) as (Hn3 & d3 & Ht3 & Hc3).
  intros H2 H3.
  apply (watchStep_quiet a _ (d2 ++ d3)); auto; try lia.
  - rewrite Ht3, Ht2, Ht1, app_assoc. reflexivity.
  - apply config_no_disposal. rewrite forallb_app, Hc2, Hc3. reflexivity.
Qed.

Lemma config_no_dispatch (delta : list Event) :
  forallb configEvent delta = true -> List.filter isDispatch delta = [].
Proof.
  induction delta as [|e delta IH]; [reflexivity|]. simpl.
  intros H. apply andb_true_iff in H. destruct H as [He Hd].
  rewrite (IH Hd). destruct e; try discriminate He; reflexivity.
Qed.

Lemma onAnyChanges_events (d : RcDiff) (a : App Cfg) :
  exists delta,
    trace (snd (onAnyChanges E d a)) = trace a ++ delta /\
    forallb configEvent delta = true.
Proof.
  rewrite onAnyChanges_seq. cbn [snd].
  rewrite changeValidatorPath_run. cbn [snd].
  set (a1 := if truthyStr _ then _ else a).
  assert (Ht1 : trace a1 = trace a)
    by (subst a1; destruct (truthyStr _); auto).
  clearbody a1.
  destruct (changeServer_events (added d) a1) as (_ & d2 & Ht2 & Hc2).
  set (a2 := snd (changeServer E (added d) a1)) in *. clearbody a2.
  destruct (changeOsc_events (added d) a2) as (_ & d3 & Ht3 & Hc3).
  exists (d2 ++ d3). split.
  - rewrite Ht3, Ht2, Ht1, app_assoc. reflexivity.
  - rewrite forallb_app, Hc2, Hc3. reflexivity.
Qed.

(** X14: on a [changeSound] event the diff is applied and the backend then in
    place is told about it; no shader is handed to a backend before the
    promise of that call resolves, so none at all when it rejects.  The
    callback that runs when it resolves hands the sound shader that the
    object holds at that moment to the backend it holds at that moment,
    unless that shader is the empty text, which is never handed over. *)
Theorem onChangeSound_redispatches_when_resolved
    (d : RcDiff) (app later : App Cfg) :
  let a1 := snd (onAnyChanges E d app) in
  let app' := snd (onChangeSound E d app) in
  app' = set_trace (trace a1 ++ [EvPlayerOnChangeSound (bid (player a1)) d])
           a1 /\
  (exists delta,
     trace app' = trace app ++ delta /\ List.filter isDispatch delta = []) /\
  snd (onChangeSoundResolved later) =
    if lastSoundShader later =? ""
    then later
    else set_trace
           (trace later ++
            [EvPlayerLoadSoundShader (bid (player later))
               (lastSoundShader later)])
           later.
Proof.
  cbv zeta. split; [|split].
  - unfold onChangeSound, callPlayer, emit, gets, modify, mbind, M_bind, bind.
    rewrite onAnyChanges_seq. reflexivity.
  - destruct (onAnyChanges_events d app) as (delta & Ht & Hc).
    exists (delta ++
            [EvPlayerOnChangeSound
               (bid (player (snd (onAnyChanges E d app)))) d]).
    split.
    + unfold onChangeSound, callPlayer, emit, gets, modify, mbind, M_bind,
        bind.
      rewrite onAnyChanges_seq in *. cbn [snd fst trace set_trace] in *.
      rewrite Ht, app_assoc. reflexivity.
    + rewrite List.filter_app, (config_no_dispatch _ Hc). reflexivity.
  - unfold onChangeSoundResolved, loadLastSoundShader, callPlayer, emit, gets,
      modify, mbind, mret, M_bind, M_ret, bind, ret. simpl.
    destruct (lastSoundShader later =? ""); reflexivity.
Qed.

Lemma build_watchStep (ed : option Editor) (isSound : bool) (a : App Cfg) :
  watchStep a (snd (loadShaderOfEditor E ed isSound a)).
Proof.
  destruct (loadShaderOfEditor_fields E ed isSound a)
    as (_ & _ & _ & _ & H1 & H2 & _ & Hn & _).
  destruct (loadShaderOfEditor_calm E ed isSound a) as (delta & Ht & Hc).
  apply (watchStep_quiet a _ delta); auto; try lia.
  apply (calm_no_disposal _ _ Hc).
Qed.

Lemma emit_calm_watchStep (a : App Cfg) (delta : list Event) :
  forallb (calmEvent (bid (player a))) delta = true ->
  watchStep a (set_trace (trace a ++ delta) a).
Proof.
  intros Hc. apply (watchStep_quiet a _ delta); auto.
  apply (calm_no_disposal _ _ Hc).
Qed.

Lemma disposals_of_fields (a : App Cfg) (d : nat) :
  In (EvDispose d)
    (match activeEditorDisposer a with Some x => [EvDispose x] | None => [] end
     ++
     match editorDisposer a with Some x => [EvDispose x] | None => [] end) ->
  activeEditorDisposer a = Some d \/ editorDisposer a = Some d.
Proof.
  intros Hd. apply in_app_or in Hd. destruct Hd as [Hd|Hd].
  - destruct (activeEditorDisposer a); [|destruct Hd].
    destruct Hd as [Hd|[]]. injection Hd as <-. left. reflexivity.
  - destruct (editorDisposer a); [|destruct Hd].
    destruct Hd as [Hd|[]]. injection Hd as <-. right. reflexivity.
Qed.

Lemma stopWatching_watchStep (a : App Cfg) :
  watchStep a (snd (stopWatching a)).
Proof.
  destruct (stopWatching_summary a) as (_ & Hn & _ & H1 & H2 & _ & Ht).
  split; [lia|]. eexists. split; [exact Ht|]. split; [|split].
  - apply disposals_of_fields.
  - right. split; [exact H1|]. intros d Hd. rewrite Hd.
    apply in_or_app. left. left. reflexivity.
  - right. split; [exact H2|]. intros d Hd. rewrite Hd.
    apply in_or_app. right. left. reflexivity.
Qed.

Lemma stop_watchStep (a : App Cfg) : watchStep a (snd (stop E a)).
Proof.
  destruct (stop_summary a) as (_ & Hn & _ & H1 & H2 & _ & Ht).
  split; [lia|]. eexists. split; [exact Ht|]. split; [|split].
  - intros d [Hd|Hd]; [discriminate Hd|].
    apply disposals_of_fields. exact Hd.
  - right. split; [exact H1|]. intros d Hd. rewrite Hd.
    right. apply in_or_app. left. left. reflexivity.
  - right. split; [exact H2|]. intros d Hd. rewrite Hd.
    right. apply in_or_app. right. left. reflexivity.
Qed.

Lemma perform_watchStep (c : Call) (a : App Cfg) :
  watchStep a (perform E c a).
Proof.
  destruct c as [d|d|m| | | | |ed|ed| ]; cbn [perform].
  - unfold onChange, loadLastShader, callPlayer, emit, gets, modify, mbind,
      M_bind, bind.
    pose proof (onAnyChanges_watchStep d a) as W.
    rewrite onAnyChanges_seq in *. cbn [snd] in *.
    set (a1 := snd (changeOsc _ _)) in *. clearbody a1. cbn [snd].
    apply (watchStep_trans _ _ _ W).
    apply (watchStep_quiet a1 _
             [EvPlayerOnChange (bid (player a1)) d;
              EvPlayerLoadShader (bid (player a1)) (lastShader a1)]);
      simpl; auto.
    + rewrite <- app_assoc. reflexivity.
    + intros x [H|[H|[]]]; discriminate H.
  - unfold onChangeSound, callPlayer, emit, gets, modify, mbind, M_bind,
      bind.
    pose proof (onAnyChanges_watchStep d a) as W.
    rewrite onAnyChanges_seq in *. cbn [snd] in *.
    set (a1 := snd (changeOsc _ _)) in *. clearbody a1. cbn [snd].
    apply (watchStep_trans _ _ _ W).
    apply (watchStep_quiet a1 _
             [EvPlayerOnChangeSound (bid (player a1)) d]); simpl; auto.
    intros x [H|[]]; discriminate H.
  - apply (watchStep_quiet a _ [EvPlayerSetOsc (bid (player a)) m]);
      simpl; auto.
    intros x [H|[]]; discriminate H.
  - apply (watchStep_quiet a _
             [EvPlayerLoadShader (bid (player a)) (lastShader a)]);
      simpl; auto.
    intros x [H|[]]; discriminate H.
  - unfold toggle, gets, mbind, M_bind, bind.
    destruct (isPlaying a) eqn:Hi.
    + apply stop_watchStep.
    + apply (watchStep_quiet a _ [EvPlayerPlay (bid (player a))]);
        simpl; auto.
      intros x [H|[]]; discriminate H.
  - apply (watchStep_quiet a _ [EvPlayerPlay (bid (player a))]);
      simpl; auto.
    intros x [H|[]]; discriminate H.
  - apply stop_watchStep.
  - apply build_watchStep.
  - apply build_watchStep.
  - unfold onChangeSoundResolved, loadLastSoundShader, callPlayer, emit,
      gets, modify, mbind, mret, M_bind, M_ret, bind, ret. simpl.
    destruct (lastSoundShader a =? "")%string; cbn [snd].
    + apply (watchStep_quiet a _ []); simpl; auto.
      symmetry. apply app_nil_r.
    + apply (watchStep_quiet a _
               [EvPlayerLoadSoundShader (bid (player a))
                  (lastSoundShader a)]); simpl; auto.
      intros x [H|[]]; discriminate H.
Qed.

(** Listeners are live after a step exactly if they were live and were not
    disposed during it. *)
Lemma watchInv_step (w : Watch Cfg) (a' : App Cfg) :
  watchInv w -> watchStep (obj w) a' -> watchInv (mkWatch a' (listeners w)).
Proof.
  intros (I1 & I2 & I3 & I4 & I5 & I6) (Hn & delta & Ht & Hd & Ha & He).
  unfold watchInv, liveListeners. cbn [obj listeners].
  split; [|split; [exact I2|split; [|split; [|split]]]].
  - intros l Hl. apply filter_In in Hl. destruct Hl as [Hin Hlive].
    rewrite Ht, disposed_app in Hlive.
    apply negb_true_iff, orb_false_iff in Hlive.
    destruct Hlive as [Hold Hnew].
    assert (Hl : In l (liveListeners w)).
    { apply filter_In. split; [exact Hin|]. rewrite Hold. reflexivity. }
    specialize (I1 l Hl).
    destruct (isActiveListener l).
    + destruct Ha as [Ha|[_ Ha]]; [congruence|].
      apply Ha, disposed_In in I1. congruence.
    + destruct He as [He|[_ He]]; [congruence|].
      apply He, disposed_In in I1. congruence.
  - intros l Hl. specialize (I3 l Hl). lia.
  - intros d Hx. destruct Ha as [Ha|[Ha _]]; [|congruence].
    rewrite Ha in Hx. specialize (I4 d Hx). lia.
  - intros d Hx. destruct He as [He|[He _]]; [|congruence].
    rewrite He in Hx. specialize (I5 d Hx). lia.
  - intros d Hx. rewrite Ht, disposed_app in Hx.
    apply orb_true_iff in Hx. destruct Hx as [Hx|Hx].
    + specialize (I6 d Hx). lia.
    + apply disposed_In, Hd in Hx.
      destruct Hx as [Hx|Hx]; [specialize (I4 d Hx)|specialize (I5 d Hx)];
        lia.
Qed.

Lemma kinds_exclusive (l : Listener) :
  isContentListener l = negb (isActiveListener l).
Proof.
  unfold isContentListener, isActiveListener. destruct (lkind l); reflexivity.
Qed.

Lemma no_content_listener (w : Watch Cfg) :
  watchInv w -> editorDisposer (obj w) = None ->
  List.filter isContentListener (liveListeners w) = [].
Proof.
  intros (I1 & _) He.
  induction (liveListeners w) as [|l ls IH]; [reflexivity|].
  simpl. rewrite IH by (intros x Hx; apply I1; right; exact Hx).
  specialize (I1 l (or_introl eq_refl)).
  rewrite kinds_exclusive. destruct (isActiveListener l); [reflexivity|].
  congruence.
Qed.

Lemma no_active_listener (w : Watch Cfg) :
  watchInv w -> activeEditorDisposer (obj w) = None ->
  List.filter isActiveListener (liveListeners w) = [].
Proof.
  intros (I1 & _) He.
  induction (liveListeners w) as [|l ls IH]; [reflexivity|].
  simpl. rewrite IH by (intros x Hx; apply I1; right; exact Hx).
  specialize (I1 l (or_introl eq_refl)).
  destruct (isActiveListener l); [congruence|reflexivity].
Qed.

(** A registration adds one live listener and touches no other. *)
Lemma liveListeners_subscribe (k : ListenerKind)
    (set : option nat -> App Cfg -> App Cfg) (w : Watch Cfg) :
  (forall v a, trace (set v a) = trace a) ->
  watchInv w ->
  liveListeners (subscribe k set w) =
  liveListeners w ++ [mkListener (nextId (obj w)) k].
Proof.
  intros Hset (_ & _ & _ & _ & _ & I6).
  unfold liveListeners, subscribe. cbn [obj listeners].
  rewrite Hset. cbn [trace set_nextId].
  rewrite List.filter_app. f_equal. simpl.
  destruct (disposed (trace (obj w)) (nextId (obj w))) eqn:Hd;
    [|reflexivity].
  specialize (I6 _ Hd). lia.
Qed.

Lemma watchInv_subscribe_content (ed : Editor) (w : Watch Cfg) :
  watchInv w -> editorDisposer (obj w) = None ->
  watchInv (subscribe (DidStopChanging ed) set_editorDisposer w).
Proof.
  intros I He.
  pose proof (liveListeners_subscribe (DidStopChanging ed)
                set_editorDisposer w (fun _ _ => eq_refl) I) as Hlive.
  destruct I as (I1 & I2 & I3 & I4 & I5 & I6).
  unfold watchInv. rewrite Hlive. unfold subscribe. cbn [obj listeners].
  split; [|split; [|split; [|split; [|split]]]].
  - intros l Hl. apply in_app_or in Hl. destruct Hl as [Hl|[<-|[]]].
    + specialize (I1 l Hl). destruct (isActiveListener l); [exact I1|].
      congruence.
    + reflexivity.
  - rewrite map_app. simpl. apply NoDup_app. split; [exact I2|].
    split; [|apply NoDup_singleton].
    intros x Hx Hk. apply list_elem_of_In in Hx, Hk.
    destruct Hk as [<-|[]]. apply in_map_iff in Hx.
    destruct Hx as (l & Hl & Hin). specialize (I3 l Hin). lia.
  - intros l Hl. apply in_app_or in Hl. simpl.
    destruct Hl as [Hl|[<-|[]]]; [specialize (I3 l Hl)|simpl]; lia.
  - simpl. intros d Hd. specialize (I4 d Hd). lia.
  - simpl. intros d Hd. injection Hd as <-. lia.
  - simpl. intros d Hd. specialize (I6 d Hd). lia.
Qed.

Lemma watchInv_subscribe_active (w : Watch Cfg) :
  watchInv w -> activeEditorDisposer (obj w) = None ->
  watchInv (subscribe DidChangeActiveTextEditor set_activeEditorDisposer w).
Proof.
  intros I He.
  pose proof (liveListeners_subscribe DidChangeActiveTextEditor
                set_activeEditorDisposer w (fun _ _ => eq_refl) I) as Hlive.
  destruct I as (I1 & I2 & I3 & I4 & I5 & I6).
  unfold watchInv. rewrite Hlive. unfold subscribe. cbn [obj listeners].
  split; [|split; [|split; [|split; [|split]]]].
  - intros l Hl. apply in_app_or in Hl. destruct Hl as [Hl|[<-|[]]].
    + specialize (I1 l Hl). destruct (isActiveListener l); [|exact I1].
      congruence.
    + reflexivity.
  - rewrite map_app. simpl. apply NoDup_app. split; [exact I2|].
    split; [|apply NoDup_singleton].
    intros x Hx Hk. apply list_elem_of_In in Hx, Hk.
    destruct Hk as [<-|[]]. apply in_map_iff in Hx.
    destruct Hx as (l & Hl & Hin). specialize (I3 l Hin). lia.
  - intros l Hl. apply in_app_or in Hl. simpl.
    destruct Hl as [Hl|[<-|[]]]; [specialize (I3 l Hl)|simpl]; lia.
  - simpl. intros d Hd. injection Hd as <-. lia.
  - simpl. intros d Hd. specialize (I5 d Hd). lia.
  - simpl. intros d Hd. specialize (I6 d Hd). lia.
Qed.

(** The part of [watchShader] before the registration. *)
Lemma watchShader_pre (active : option Editor) (a : App Cfg) :
  let a3 :=
    snd (loadShaderOfEditor E active false
           (set_editor active
              (snd (dispose editorDisposer set_editorDisposer a)))) in
  watchStep a a3 /\
  editorDisposer a3 = None /\
  activeEditorDisposer a3 = activeEditorDisposer a /\
  editor a3 = active /\
  nextId a3 = nextId a.
Proof.
  cbv zeta.
  set (a2 := set_editor active _).
  assert (H2 : watchStep a a2 /\ editorDisposer a2 = None /\
               activeEditorDisposer a2 = activeEditorDisposer a /\
               editor a2 = active /\ nextId a2 = nextId a).
  { subst a2. unfold dispose, emit, gets, modify, mbind, mret, M_bind,
      M_ret, bind, ret. simpl.
    destruct (editorDisposer a) as [x|] eqn:Hx; simpl.
    - split; [|auto]. split; [simpl; lia|]. exists [EvDispose x].
      simpl. split; [reflexivity|]. split; [|split; [auto|]].
      + intros d [Hd|[]]. injection Hd as <-. right. congruence.
      + right. split; [reflexivity|]. intros d Hd.
        assert (x = d) as -> by congruence. left. reflexivity.
    - split; [|auto]. apply (watchStep_quiet a _ []); simpl; auto.
      symmetry. apply app_nil_r. }
  clearbody a2. destruct H2 as (W & He & Ha & Hed & Hn).
  destruct (loadShaderOfEditor_fields E active false a2)
    as (_ & _ & _ & _ & K1 & K2 & K3 & K4 & _).
  split; [apply (watchStep_trans _ _ _ W), build_watchStep|].
  repeat split; congruence.
Qed.

Lemma watchShader_inv (active : option Editor) (w : Watch Cfg) :
  watchInv w ->
  watchInv (snd (watchShader E active w)) /\
  activeEditorDisposer (obj (snd (watchShader E active w))) =
    activeEditorDisposer (obj w).
Proof.
  intros I. unfold watchShader. cbv zeta.
  destruct (watchShader_pre active (obj w)) as (W & He & Ha & _ & _).
  cbv zeta in W, He, Ha.
  pose proof (watchInv_step w _ I W) as I3.
  destruct (loadShaderOfEditor E active false _) as [[| |e] a3];
    cbn [snd] in *.
  - destruct active as [ed|]; cbn [snd]; [|auto].
    split; [apply watchInv_subscribe_content; assumption|exact Ha].
  - destruct active as [ed|]; cbn [snd]; [|auto].
    split; [apply watchInv_subscribe_content; assumption|exact Ha].
  - auto.
Qed.

Lemma watchActiveShader_inv (active : option Editor) (w : Watch Cfg) :
  watchInv w -> watchInv (snd (watchActiveShader E active w)).
Proof.
  intros I. unfold watchActiveShader.
  destruct (activeEditorDisposer (obj w)) as [x|] eqn:Hx; [exact I|].
  destruct (watchShader_inv active w I) as [I1 Ha].
  destruct (watchShader E active w) as [[[]|e] w1]; cbn [snd] in *.
  - apply watchInv_subscribe_active; [exact I1|congruence].
  - exact I1.
Qed.

Lemma performWatch_inv (c : WatchCall) (w : Watch Cfg) :
  watchInv w -> watchInv (performWatch E c w).
Proof.
  intros I. destruct c as [c|active|active| |active|l now];
    cbn [performWatch].
  - apply (watchInv_step w _ I), perform_watchStep.
  - apply watchActiveShader_inv, I.
  - apply watchShader_inv, I.
  - apply (watchInv_step w _ I), stopWatching_watchStep.
  - destruct (existsb _ _); [apply watchShader_inv, I|exact I].
  - destruct (existsb _ _); [|exact I].
    apply (watchInv_step w _ I), build_watchStep.
Qed.

Lemma startWatch_inv (cfg : Cfg) : watchInv (startWatch E cfg).
Proof.
  unfold watchInv, startWatch, liveListeners. simpl.
  split; [intros l []|]. split; [constructor|].
  split; [intros l []|]. repeat split; discriminate.
Qed.

Lemma runWatch_inv (cs : list WatchCall) (w : Watch Cfg) :
  watchInv w -> watchInv (runWatch E cs w).
Proof.
  revert w. induction cs as [|c cs IH]; intros w I; [exact I|].
  simpl. apply IH, performWatch_inv, I.
Qed.

(** *** Backends while watching *)

Lemma backendInv_quiet (a a' : App Cfg) :
  backendInv a ->
  player a' = player a ->
  (nextId a <= nextId a')%nat ->
  isPlaying a' = isPlaying a ->
  trace a' = trace a ->
  backendInv a'.
Proof.
  intros I Hp Hn Hi Ht.
  apply (backendInv_steady a a' []); auto.
  rewrite app_nil_r. exact Ht.
Qed.

Lemma backendInv_build (ed : option Editor) (isSound : bool) (a : App Cfg) :
  backendInv a -> backendInv (snd (loadShaderOfEditor E ed isSound a)).
Proof.
  intros I.
  destruct (loadShaderOfEditor_fields E ed isSound a)
    as (Hp & Hi & _ & _ & _ & _ & _ & Hn & _).
  destruct (loadShaderOfEditor_calm E ed isSound a) as (delta & Ht & Hc).
  apply (backendInv_calm a _ delta); auto.
Qed.

Lemma backendInv_stopWatching (a : App Cfg) :
  backendInv a -> backendInv (snd (stopWatching a)).
Proof.
  intros I.
  destruct (stopWatching_summary a) as (H1 & H2 & H3 & _ & _ & _ & H7).
  eapply (backendInv_steady a); [exact I|exact H1|lia|exact H7| |].
  - destruct (activeEditorDisposer a), (editorDisposer a); reflexivity.
  - rewrite H3.
    destruct (activeEditorDisposer a), (editorDisposer a); reflexivity.
Qed.

Lemma backendInv_subscribe (k : ListenerKind)
    (set : option nat -> App Cfg -> App Cfg) (w : Watch Cfg) :
  (forall v a,
     player (set v a) = player a /\ nextId (set v a) = nextId a /\
     isPlaying (set v a) = isPlaying a /\ trace (set v a) = trace a) ->
  backendInv (obj w) -> backendInv (obj (subscribe k set w)).
Proof.
  intros Hset I. unfold subscribe. cbn [obj].
  destruct (Hset (Some (nextId (obj w)))
              (set_nextId (S (nextId (obj w))) (obj w)))
    as (H1 & H2 & H3 & H4).
  apply (backendInv_quiet (obj w)); [exact I| | | |];
    [rewrite H1|rewrite H2; simpl; lia|rewrite H3|rewrite H4]; reflexivity.
Qed.

Lemma backendInv_watchShader (active : option Editor) (w : Watch Cfg) :
  backendInv (obj w) -> backendInv (obj (snd (watchShader E active w))).
Proof.
  intros I. unfold watchShader. cbv zeta.
  set (a2 := set_editor active _).
  assert (I2 : backendInv a2).
  { subst a2. unfold dispose, emit, gets, modify, mbind, mret, M_bind,
      M_ret, bind, ret. simpl.
    destruct (editorDisposer (obj w)) as [x|]; simpl.
    - apply (backendInv_steady (obj w) _ [EvDispose x]); auto.
    - apply (backendInv_quiet (obj w)); auto. }
  clearbody a2.
  pose proof (backendInv_build active false a2 I2) as I3.
  destruct (loadShaderOfEditor E active false a2) as [[| |e] a3];
    cbn [snd] in *; try exact I3;
    (destruct active as [ed|]; cbn [snd]; [|exact I3]);
    apply backendInv_subscribe; auto.
Qed.

Lemma backendInv_watchActiveShader (active : option Editor) (w : Watch Cfg) :
  backendInv (obj w) ->
  backendInv (obj (snd (watchActiveShader E active w))).
Proof.
  intros I. unfold watchActiveShader.
  destruct (activeEditorDisposer (obj w)); [exact I|].
  pose proof (backendInv_watchShader active w I) as I1.
  destruct (watchShader E active w) as [[[]|e] w1]; cbn [snd] in *;
    [|exact I1].
  apply backendInv_subscribe; auto.
Qed.

Lemma backendInv_performWatch (c : WatchCall) (w : Watch Cfg) :
  backendInv (obj w) -> backendInv (obj (performWatch E c w)).
Proof.
  intros I. destruct c as [c|active|active| |active|l now];
    cbn [performWatch].
  - apply backendInv_perform, I.
  - apply backendInv_watchActiveShader, I.
  - apply backendInv_watchShader, I.
  - apply backendInv_stopWatching, I.
  - destruct (existsb _ _); [apply backendInv_watchShader, I|exact I].
  - destruct (existsb _ _); [|exact I]. apply backendInv_build, I.
Qed.

Lemma backendInv_runWatch (cs : list WatchCall) (w : Watch Cfg) :
  backendInv (obj w) -> backendInv (obj (runWatch E cs w)).
Proof.
  revert w. induction cs as [|c cs IH]; intros w I; [exact I|].
  simpl. apply IH, backendInv_performWatch, I.
Qed.

(** X17: however the object is driven after construction and however its
    listeners fire, the backend it holds is one that it constructed, no
    backend was constructed twice, and every other backend that it
    constructed received [stop] as its last call. *)
Theorem retired_backends_were_stopped (cfg : Cfg) (cs : list WatchCall) :
  let a := obj (runWatch E cs (startWatch E cfg)) in
  In (bid (player a)) (constructedBackends (trace a)) /\
  NoDup (constructedBackends (trace a)) /\
  forall b,
    In b (constructedBackends (trace a)) ->
    b <> bid (player a) ->
    lastCallTo b (trace a) = Some (EvPlayerStop b).
Proof.
  destruct (backendInv_runWatch cs (startWatch E cfg)
              (backendInv_constructor cfg))
    as (I1 & I2 & _ & _ & I5 & _).
  cbv zeta. auto.
Qed.

(** X18: however the object is driven after construction and however its
    listeners fire, [state.isPlaying] says what the backend it holds was
    told: the [isPlaying] argument that the backend was constructed with,
    overridden by the latest [play] or [stop] call that it received. *)
Theorem isPlaying_agrees_with_backend (cfg : Cfg) (cs : list WatchCall) :
  let a := obj (runWatch E cs (startWatch E cfg)) in
  backendPlaying (player a) (trace a) = isPlaying a.
Proof.
  destruct (backendInv_runWatch cs (startWatch E cfg)
              (backendInv_constructor cfg))
    as (_ & _ & _ & _ & _ & I6).
  exact I6.
Qed.

Lemma NoDup_map_In {A B : Type} (f : A -> B) (l : list A) (x y : A) :
  NoDup (map f l) -> In x l -> In y l -> f x = f y -> x = y.
Proof.
  induction l as [|z l IH]; intros Hnd Hx Hy Hf; [destruct Hx|].
  simpl in Hnd. apply NoDup_cons in Hnd. destruct Hnd as [Hz Hnd].
  assert (Hout : forall u, In u l -> f u <> f z).
  { intros u Hu Heq. apply Hz. rewrite <- Heq.
    apply list_elem_of_In, in_map, Hu. }
  destruct Hx as [<-|Hx], Hy as [<-|Hy]; auto.
  - destruct (Hout y Hy). congruence.
  - destruct (Hout x Hx). congruence.
Qed.

Lemma filter_none {A : Type} (f : A -> bool) (l : list A) :
  (forall x, In x l -> f x = false) -> List.filter f l = [].
Proof.
  induction l as [|x l IH]; intros H; [reflexivity|]. simpl.
  rewrite (H x (or_introl eq_refl)). apply IH.
  intros y Hy. apply H. right. exact Hy.
Qed.

(** After a step that ends with both fields cleared and their disposables
    disposed, nothing is live. *)
Lemma cleared_none_live (w : Watch Cfg) (a' : App Cfg) (delta : list Event) :
  watchInv w ->
  trace a' = trace (obj w) ++ delta ->
  (forall d, activeEditorDisposer (obj w) = Some d \/
             editorDisposer (obj w) = Some d -> In (EvDispose d) delta) ->
  liveListeners (mkWatch a' (listeners w)) = [].
Proof.
  intros (I1 & _) Ht Hd. unfold liveListeners. cbn [obj listeners].
  apply filter_none. intros l Hl. rewrite Ht, disposed_app.
  destruct (disposed (trace (obj w)) (lid l)) eqn:Hold; [reflexivity|].
  assert (Hlive : In l (liveListeners w)).
  { apply filter_In. split; [exact Hl|]. rewrite Hold. reflexivity. }
  specialize (I1 l Hlive). simpl.
  assert (Hin : In (EvDispose (lid l)) delta).
  { apply Hd. destruct (isActiveListener l); auto. }
  apply disposed_In in Hin. rewrite Hin. reflexivity.
Qed.

(** X19: however the object is driven and however its listeners fire, every
    listener that is still live is the one whose disposable the object holds
    in [state.activeEditorDisposer] (the workspace listener) or in
    [state.editorDisposer] (the listener of an editor); so at most one
    listener of each kind is live. *)
Theorem live_listeners_are_held (cfg : Cfg) (cs : list WatchCall) :
  let w := runWatch E cs (startWatch E cfg) in
  (forall l, In l (liveListeners w) ->
     if isActiveListener l
     then activeEditorDisposer (obj w) = Some (lid l)
     else editorDisposer (obj w) = Some (lid l)) /\
  (forall l1 l2,
     In l1 (liveListeners w) -> In l2 (liveListeners w) ->
     isActiveListener l1 = isActiveListener l2 -> l1 = l2).
Proof.
  cbv zeta.
  destruct (runWatch_inv cs _ (startWatch_inv cfg)) as (I1 & I2 & _).
  split; [exact I1|]. intros l1 l2 H1 H2 Hk.
  pose proof (I1 l1 H1) as K1. pose proof (I1 l2 H2) as K2.
  rewrite Hk in K1.
  apply filter_In in H1, H2.
  apply (NoDup_map_In lid _ l1 l2 I2); [tauto|tauto|].
  destruct (isActiveListener l2); congruence.
Qed.

(** X20: in every state the object can reach, [stop] and [stopWatching]
    leave no listener live, and both fields and [state.editor] empty. *)
Theorem stop_leaves_no_listener (cfg : Cfg) (cs : list WatchCall) :
  let w := runWatch E cs (startWatch E cfg) in
  let unwatched (w' : Watch Cfg) :=
    liveListeners w' = [] /\
    activeEditorDisposer (obj w') = None /\
    editorDisposer (obj w') = None /\
    editor (obj w') = None in
  unwatched (performWatch E (OnObject CallStop) w) /\
  unwatched (performWatch E CallStopWatching w).
Proof.
  cbv zeta.
  pose proof (runWatch_inv cs _ (startWatch_inv cfg)) as I.
  set (w := runWatch E cs (startWatch E cfg)) in *. clearbody w.
  split; cbn [performWatch perform]; unfold onObject.
  - destruct (stop_summary (obj w)) as (_ & _ & _ & H1 & H2 & H3 & Ht).
    split; [|cbn [obj]; auto].
    apply (cleared_none_live w _ _ I Ht).
    intros d [Hd|Hd]; rewrite Hd; right; apply in_or_app;
      [left|right]; left; reflexivity.
  - destruct (stopWatching_summary (obj w))
      as (_ & _ & _ & H1 & H2 & H3 & Ht).
    split; [|cbn [obj]; auto].
    apply (cleared_none_live w _ _ I Ht).
    intros d [Hd|Hd]; rewrite Hd; apply in_or_app;
      [left|right]; left; reflexivity.
Qed.

(** X21: once [watchActiveShader] has returned normally, calling it again
    changes nothing and registers nothing, whatever the active editor is
    then. *)
Theorem watchActiveShader_twice
    (first second : option Editor) (w : Watch Cfg) :
  fst (watchActiveShader E first w) = Ok tt ->
  watchActiveShader E second (snd (watchActiveShader E first w)) =
  (Ok tt, snd (watchActiveShader E first w)).
Proof.
  unfold watchActiveShader at 1 3 4.
  destruct (activeEditorDisposer (obj w)) as [x|] eqn:Hx.
  - intros _. cbn [snd]. unfold watchActiveShader. rewrite Hx. reflexivity.
  - destruct (watchShader E first w) as [[[]|e] w1]; cbn [fst snd];
      [|discriminate].
    intros _. reflexivity.
Qed.

(** X22: [watchShader] on an editor whose buffer has no path throws, and in
    every state the object can reach it leaves the object without a live
    listener on any editor: the one it had is disposed, none is registered
    and [state.editorDisposer] stays empty, while [state.editor] is the
    untitled editor.  [watchActiveShader] then throws as well, before it
    registers the workspace listener. *)
Theorem watching_untitled_editor_registers_nothing
    (cfg : Cfg) (cs : list WatchCall) (ed : Editor) :
  getPath ed = None ->
  let w := runWatch E cs (startWatch E cfg) in
  let r := watchShader E (Some ed) w in
  let e := TypeError "Path must be a string. Received undefined" in
  fst r = Err e /\
  listeners (snd r) = listeners w /\
  List.filter isContentListener (liveListeners (snd r)) = [] /\
  editorDisposer (obj (snd r)) = None /\
  editor (obj (snd r)) = Some ed /\
  (activeEditorDisposer (obj w) = None ->
   watchActiveShader E (Some ed) w = (Err e, snd r) /\
   activeEditorDisposer (obj (snd r)) = None).
Proof.
  intros Hp. cbv zeta.
  pose proof (runWatch_inv cs _ (startWatch_inv cfg)) as I.
  set (w := runWatch E cs (startWatch E cfg)) in *. clearbody w.
  assert (Hl : forall a,
            loadShaderOfEditor E (Some ed) false a =
            (Thrown (TypeError "Path must be a string. Received undefined"),
             a)).
  { intros a. unfold loadShaderOfEditor. rewrite Hp. reflexivity. }
  destruct (watchShader_pre (Some ed) (obj w)) as (W & He & Ha & Hed & _).
  cbv zeta in W, He, Ha, Hed. rewrite Hl in W, He, Ha, Hed.
  cbn [snd] in W, He, Ha, Hed.
  assert (Hr : watchShader E (Some ed) w =
               (Err (TypeError "Path must be a string. Received undefined"),
                mkWatch
                  (set_editor (Some ed)
                     (snd (dispose editorDisposer set_editorDisposer
                             (obj w))))
                  (listeners w))).
  { unfold watchShader. cbv zeta. rewrite Hl. reflexivity. }
  rewrite Hr. cbn [fst snd obj listeners].
  split; [reflexivity|]. split; [reflexivity|].
  split; [apply no_content_listener;
          [apply (watchInv_step w _ I W)|exact He]|].
  split; [exact He|]. split; [exact Hed|].
  intros Hx. split; [|congruence].
  unfold watchActiveShader. rewrite Hx, Hr. reflexivity.
Qed.

(** X23: in every state the object can reach, [watchShader] without an
    active editor, or on an editor whose buffer has a path, returns normally
    and replaces the listener on an editor: afterwards the only live one is
    the listener just registered on the active editor (none without an
    active editor), and [state.editorDisposer] holds its disposable. *)
Theorem watchShader_replaces_editor_listener
    (cfg : Cfg) (cs : list WatchCall) (active : option Editor) :
  (forall ed, active = Some ed -> getPath ed <> None) ->
  let w := runWatch E cs (startWatch E cfg) in
  let r := watchShader E active w in
  fst r = Ok tt /\
  editor (obj (snd r)) = active /\
  match active with
  | Some ed =>
      List.filter isContentListener (liveListeners (snd r)) =
        [mkListener (nextId (obj w)) (DidStopChanging ed)] /\
      editorDisposer (obj (snd r)) = Some (nextId (obj w))
  | None =>
      List.filter isContentListener (liveListeners (snd r)) = [] /\
      editorDisposer (obj (snd r)) = None
  end.
Proof.
  intros Hpath. cbv zeta.
  pose proof (runWatch_inv cs _ (startWatch_inv cfg)) as I.
  set (w := runWatch E cs (startWatch E cfg)) in *. clearbody w.
  destruct (watchShader_pre active (obj w)) as (W & He & Ha & Hed & Hn).
  cbv zeta in W, He, Ha, Hed, Hn.
  pose proof (watchInv_step w _ I W) as I3.
  assert (Hres : fst (loadShaderOfEditor E active false
                        (set_editor active
                           (snd (dispose editorDisposer set_editorDisposer
                                   (obj w))))) = Resolved).
  { destruct active as [ed|].
    - destruct (getPath ed) as [filepath|] eqn:Hp;
        [|destruct (Hpath ed eq_refl Hp)].
      eapply (proj1 (proj2 (loadShaderOfEditor_resolves E false _))).
      exact Hp.
    - reflexivity. }
  unfold watchShader. cbv zeta.
  destruct (loadShaderOfEditor E active false _) as [c a3].
  cbn [fst snd] in *. subst c.
  destruct active as [ed|]; cbn [fst snd].
  - split; [reflexivity|]. split; [exact Hed|].
    rewrite (liveListeners_subscribe (DidStopChanging ed) set_editorDisposer
               _ (fun _ _ => eq_refl) I3).
    rewrite List.filter_app, (no_content_listener _ I3 He).
    split; [cbn [obj]; rewrite Hn; reflexivity|].
    unfold subscribe. simpl. rewrite Hn. reflexivity.
  - split; [reflexivity|]. split; [exact Hed|].
    split; [apply (no_content_listener _ I3 He)|exact He].
Qed.

End AlongRuns.

(** ** Sound transport *)

Section SoundTransport.

Context {Cfg : Type} (E : Collab Cfg).

(** X24: without an active editor, or on an editor whose buffer has a path,
    [playSound] returns normally and calls [playSound()] once, on the
    backend the object held before; this is so whatever the build did,
    because the promise of the build resolves also when the build failed.
    On an editor whose buffer has no path, [playSound] throws and makes no
    call. *)
Theorem playSound_plays_after_any_build
    (active : option Editor) (app : App Cfg) :
  match active with
  | Some (mkEditor None _) =>
      playSound E active app =
      (Err (TypeError "Path must be a string. Received undefined"), app, [])
  | _ =>
      playSound E active app =
      (Ok tt, snd (loadSoundShader E active app),
       [PlayerPlaySound (bid (player app))])
  end.
Proof.
  destruct active as [[[filepath|] text]|]; try reflexivity.
  unfold playSound, loadSoundShader.
  pose proof (proj1 (proj2 (loadShaderOfEditor_resolves E true app))
                (mkEditor (Some filepath) text) filepath eq_refl) as Hr.
  destruct (loadShaderOfEditor_fields E
              (Some (mkEditor (Some filepath) text)) true app) as (Hp & _).
  destruct (loadShaderOfEditor E _ true app) as [c app'].
  cbn [fst snd] in *. subst c. rewrite Hp. reflexivity.
Qed.

End SoundTransport.

(** ** Further examples *)

Section FurtherExamples.

Import Scenario.

(** The specification [{vs: "a.vert"}] and the file [shader.frag]: the one
    pass has both sides. *)
Lemma assembled_pass_has_a_side_witness :
  let p := mkPass None None None None (Some "VS_TEXT") (Some text) in
  vs p <> None \/ fs p <> None.
Proof.
  exact (assembled_pass_has_a_side readFile resolveIn glslang text ".frag"
           "/proj" [vsOnly "a.vert"]
           [mkPass None None None None (Some "VS_TEXT") (Some text)]
           (mkPass None None None None (Some "VS_TEXT") (Some text))
           eq_refl (or_introl eq_refl)).
Defined.

(** A specification with a target and a width keeps them in its pass. *)
Lemma assembled_pass_carries_attributes_witness :
  let spec :=
    mkRcPass (Some "buffer") (Some true) (Some "512") None (Some "a.vert")
      None in
  let p :=
    mkPass (Some "buffer") (Some true) (Some "512") None (Some "VS_TEXT")
      (Some text) in
  TARGET p = rc_TARGET spec /\ FLOAT p = rc_FLOAT spec /\
  WIDTH p = rc_WIDTH spec /\ HEIGHT p = rc_HEIGHT spec.
Proof.
  exact (assembled_pass_carries_attributes readFile resolveIn glslang text
           ".frag" "/proj"
           [mkRcPass (Some "buffer") (Some true) (Some "512") None
              (Some "a.vert") None]
           [mkPass (Some "buffer") (Some true) (Some "512") None
              (Some "VS_TEXT") (Some text)]
           0 _ _ eq_refl eq_refl eq_refl).
Defined.

(** Two specifications without sources and the file [shader.vert]: no load,
    and the edited text is the vertex source of both passes. *)
Lemma createPasses_without_sources_witness :
  createPasses readFile resolveIn glslang
    [mkRcPass (Some "buffer") None None None None None; emptyRcPass]
    text ".vert" "/proj" =
  ([], Ok [mkPass (Some "buffer") None None None (Some text) None;
           mkPass None None None None (Some text) None]).
Proof.
  apply (createPasses_without_sources readFile resolveIn glslang text ".vert"
           "/proj"
           [mkRcPass (Some "buffer") None None None None None; emptyRcPass]).
  intros spec [<-|[<-|[]]]; split; reflexivity.
Defined.

(** The specification [{vs: "a.vert", fs: "b.frag"}] and the file
    [shader.glsl]: the assembly is the same for two different texts. *)
Lemma explicit_sources_ignore_text_witness :
  createPasses readFile resolveIn glslang [vsAndFs "a.vert" "b.frag"]
    text ".glsl" "/proj" =
  createPasses readFile resolveIn glslang [vsAndFs "a.vert" "b.frag"]
    "void main(){ gl_FragColor = vec4(1.); }" ".glsl" "/proj".
Proof.
  apply (explicit_sources_ignore_text readFile resolveIn glslang ".glsl"
           "/proj" [vsAndFs "a.vert" "b.frag"]).
  - discriminate.
  - intros spec [<-|[]]. reflexivity.
  - intros spec Hs. injection Hs as <-. split; reflexivity.
Defined.

(** A change of the validator path, then a build that loads a file. *)
Lemma validator_path_change_reaches_next_build_witness :
  let d := mkRcDiff (mkRcFragment (Some "/opt/bin/glslangValidator") None
                       None) in
  let app := start (rcOf false [vsOnly "a.vert"]) (rcOf false []) in
  let a1 := snd (onAnyChanges collab d app) in
  let a2 := snd (loadShaderOfEditor collab (Some (fragEditor text)) false a1)
  in
  glslangValidatorPath a1 = "/opt/bin/glslangValidator" /\
  exists delta,
    trace a2 = trace a1 ++ delta /\
    forall c, In (EvLoadFile c) delta ->
      lc_validatorPath c = "/opt/bin/glslangValidator".
Proof.
  apply (validator_path_change_reaches_next_build collab
           (mkRcDiff (mkRcFragment (Some "/opt/bin/glslangValidator") None
                        None))
           (start (rcOf false [vsOnly "a.vert"]) (rcOf false []))
           "/opt/bin/glslangValidator" (Some (fragEditor text)) false).
  - reflexivity.
  - discriminate.
Defined.

(** Watching twice from the start. *)
Lemma watchActiveShader_twice_witness :
  let w := startWatch collab (mkSettings (rcOf false []) (rcOf false [])) in
  let w' := snd (watchActiveShader collab (Some (fragEditor text)) w) in
  watchActiveShader collab None w' = (Ok tt, w').
Proof.
  exact (watchActiveShader_twice collab (Some (fragEditor text)) None
           (startWatch collab (mkSettings (rcOf false []) (rcOf false [])))
           eq_refl).
Defined.

(** The object watches the file [shader.frag]; then an untitled editor
    becomes the active one. *)
Lemma watching_untitled_editor_registers_nothing_witness :
  let w :=
    runWatch collab [CallWatchActiveShader (Some (fragEditor text))]
      (startWatch collab (mkSettings (rcOf false []) (rcOf false []))) in
  let r := watchShader collab (Some (mkEditor None text)) w in
  List.filter isContentListener (liveListeners w) =
    [mkListener 2 (DidStopChanging (fragEditor text))] /\
  List.filter isContentListener (liveListeners (snd r)) = [].
Proof.
  split; [reflexivity|].
  exact (proj1 (proj2 (proj2
           (watching_untitled_editor_registers_nothing collab
              (mkSettings (rcOf false []) (rcOf false []))
              [CallWatchActiveShader (Some (fragEditor text))]
              (mkEditor None text) eq_refl)))).
Defined.

(** The object watches the file [shader.frag]; then another text is in the
    active editor. *)
Lemma watchShader_replaces_editor_listener_witness :
  let w :=
    runWatch collab [CallWatchActiveShader (Some (fragEditor text))]
      (startWatch collab (mkSettings (rcOf false []) (rcOf false []))) in
  let ed := fragEditor "void main(){ }" in
  let r := watchShader collab (Some ed) w in
  List.filter isContentListener (liveListeners w) =
    [mkListener 2 (DidStopChanging (fragEditor text))] /\
  List.filter isContentListener (liveListeners (snd r)) =
    [mkListener 4 (DidStopChanging ed)].
Proof.
  split; [reflexivity|].
  refine (proj1 (proj2 (proj2
            (watchShader_replaces_editor_listener collab
               (mkSettings (rcOf false []) (rcOf false []))
               [CallWatchActiveShader (Some (fragEditor text))]
               (Some (fragEditor "void main(){ }")) _)))).
  intros ed Hed. injection Hed as <-. discriminate.
Defined.

(** The bound on the port in the property of the control source is needed:
    a control source bound to the port 10^21 is found outdated by the test
    of [onAnyChanges] when the new port is 10^21 again. *)
Lemma oscOutdated_beyond_plain :
  oscOutdated (mkOscLoader 2 (10 ^ 21)) (JsVal (10 ^ 21)%Z) = true.
Proof. vm_compute. reflexivity. Qed.

End FurtherExamples.
